(** * Fixture parser of orgdown-vscode (common/src/fixture-parser.ts)

    A shallow embedding of the fixture test DSL compiler: the value
    normalizer [processExpectedValue], the directive argument reader
    [parseExpectedArgs], the expectation block decoder [parseExpectedBlock]
    with its four sub-grammars, and the driver [parseFixtureFile].

    Modelling conventions.
    - A JavaScript string is a [list ascii]: one element per UTF-16 code
      unit, restricted to code units below 256 (Latin-1).  Code units above
      255 are outside the model.
    - A JavaScript number that comes out of [parseInt] on a digit string is
      an exact [Z]; [NaN] is [None] in an [option Z].  Rounding to doubles
      above 2^53 and the engine's limit on string length are outside the
      model.
    - A [throw] is the [Throw] constructor of [result]; loops whose index is
      assigned in the body run on fuel, [OutOfFuel] marking exhaustion.
    - Regular expressions are written out as matchers, each next to the
      pattern it stands for. *)

From Stdlib Require Import Ascii String List ZArith Bool Arith Lia.
From stdpp Require Import base option list gmap strings.
Import ListNotations.

Open Scope char_scope.
Open Scope nat_scope.
Open Scope list_scope.

(** ** JavaScript strings *)

Abbreviation str := (list ascii).

Definition lit (s : string) : str := list_ascii_of_string s.

Module Js.

Definition code (c : ascii) : nat := nat_of_ascii c.

(** WhiteSpace and LineTerminator code units below 256: what [trim] strips
    and what [\s] matches. *)
Definition isSpace (c : ascii) : bool :=
  let n := code c in
  ((9 <=? n) && (n <=? 13)) || (n =? 32) || (n =? 160).

(** [\d] *)
Definition isDigit (c : ascii) : bool :=
  let n := code c in (48 <=? n) && (n <=? 57).

(** [\w], which is also [A-Za-z0-9_] *)
Definition isWord (c : ascii) : bool :=
  let n := code c in
  ((65 <=? n) && (n <=? 90)) || ((97 <=? n) && (n <=? 122))
  || isDigit c || (n =? 95).

(** [.] without the [s] flag: anything but a line terminator. *)
Definition isDot (c : ascii) : bool :=
  let n := code c in negb ((n =? 10) || (n =? 13)).

Definition lowerChar (c : ascii) : ascii :=
  let n := code c in
  if ((65 <=? n) && (n <=? 90)) || ((192 <=? n) && (n <=? 214))
     || ((216 <=? n) && (n <=? 222))
  then ascii_of_nat (n + 32) else c.

Definition toLowerCase (s : str) : str := map lowerChar s.

Definition eqc (a b : ascii) : bool := Ascii.eqb a b.

Fixpoint eqs (a b : str) : bool :=
  match a, b with
  | [], [] => true
  | x :: a', y :: b' => eqc x y && eqs a' b'
  | _, _ => false
  end.

(** [s.startsWith(p)] *)
Fixpoint startsWith (p s : str) : bool :=
  match p, s with
  | [], _ => true
  | x :: p', y :: s' => eqc x y && startsWith p' s'
  | _ :: _, [] => false
  end.

(** [s.endsWith(p)] *)
Definition endsWith (p s : str) : bool := startsWith (rev p) (rev s).

(** [s.includes(p)] *)
Fixpoint includes (p s : str) : bool :=
  startsWith p s ||
  match s with
  | [] => false
  | _ :: s' => includes p s'
  end.

(** [s.indexOf(p)], [None] for -1 *)
Fixpoint indexOf (p s : str) : option nat :=
  if startsWith p s then Some 0
  else match s with
       | [] => None
       | _ :: s' => S <$> indexOf p s'
       end.

Fixpoint span (f : ascii -> bool) (s : str) : str * str :=
  match s with
  | [] => ([], [])
  | c :: t => if f c then let (a, b) := span f t in (c :: a, b)
              else ([], s)
  end.

Definition trimStart (s : str) : str := snd (span isSpace s).
Definition trimEnd (s : str) : str := rev (trimStart (rev s)).
Definition trim (s : str) : str := trimEnd (trimStart s).

(** [s.split(c)] for a one-character separator: never the empty array. *)
Fixpoint split (c : ascii) (s : str) : list str :=
  match s with
  | [] => [[]]
  | x :: t =>
      if eqc x c then [] :: split c t
      else match split c t with
           | h :: r => (x :: h) :: r
           | [] => [[x]]
           end
  end.

(** [parts.join(sep)] *)
Fixpoint join (sep : str) (parts : list str) : str :=
  match parts with
  | [] => []
  | [p] => p
  | p :: rest => p ++ sep ++ join sep rest
  end.

Definition digitVal (c : ascii) : nat := code c - 48.

(** The value of a string of decimal digits, as [parseInt(ds, 10)] gives
    it where a pattern has already checked [ds] against [\d+]. *)
Definition parseNat (ds : str) : nat :=
  fold_left (fun acc c => 10 * acc + digitVal c) ds 0.

Definition parseZ (ds : str) : Z :=
  fold_left (fun acc c => 10 * acc + Z.of_nat (digitVal c))%Z ds 0%Z.

(** [parseInt(s, 10)]: leading white space, an optional sign, the longest
    run of digits; [NaN] ([None]) when that run is empty. *)
Definition parseInt (s : str) : option Z :=
  let s1 := trimStart s in
  let '(neg, s2) :=
    match s1 with
    | c :: t => if eqc c "-" then (true, t)
                else if eqc c "+" then (false, t) else (false, s1)
    | [] => (false, s1)
    end in
  match fst (span isDigit s2) with
  | [] => None
  | ds => Some (if neg then Z.opp (parseZ ds) else parseZ ds)
  end.

(** [s.replace(/re/g, f)]: [m] tells whether the pattern matches at the
    head of its argument, and then gives the replacement text and the
    length of the match (at least one character for every pattern of this
    program).  [skip] counts the characters of the current match still to
    be passed over; the replacement text is emitted and never looked at
    again by this pass. *)
Fixpoint replaceAll (m : str -> option (str * nat)) (skip : nat) (s : str)
  : str :=
  match s with
  | [] => []
  | c :: t =>
      match skip with
      | S k => replaceAll m k t
      | O =>
          match m s with
          | Some (r, n) => r ++ replaceAll m (pred n) t
          | None => c :: replaceAll m 0 t
          end
      end
  end.

(** A pattern that is a fixed text, replaced by a fixed text. *)
Definition matchLit (pat rep : str) (s : str) : option (str * nat) :=
  if startsWith pat s then Some (rep, length pat) else None.

End Js.

Arguments Js.eqc : simpl never.
Arguments Js.isSpace : simpl never.
Arguments Js.isDigit : simpl never.
Arguments Js.isWord : simpl never.
Arguments Js.isDot : simpl never.
Arguments Js.lowerChar : simpl never.

(** ** Value normalizer *)

(** [/<sp:(\d+)>/] at the head of [s]; the replacement is
    [" ".repeat(parseInt(count, 10))]. *)
Definition matchSp (s : str) : option (str * nat) :=
  if Js.startsWith (lit "<sp:") s then
    let (ds, rest) := Js.span Js.isDigit (skipn 4 s) in
    match ds, rest with
    | _ :: _, c :: _ =>
        if Js.eqc c ">" then Some (repeat " " (Js.parseNat ds), 4 + length ds + 1)
        else None
    | _, _ => None
    end
  else None.

Definition matchTab : str -> option (str * nat) :=
  Js.matchLit (lit "<tab>") ["009"].

Definition matchPipe : str -> option (str * nat) :=
  Js.matchLit (lit "<pipe>") ["|"].

Definition processExpectedValue (value : str) : str :=
  Js.replaceAll matchPipe 0
    (Js.replaceAll matchTab 0
       (Js.replaceAll matchSp 0 value)).

(** ** Directive argument reader *)

(** [/:(\w+)\s+([^:]+)/] at the head of [s]: the key, the value and the
    length of the match.  [\w+] and [[^:]+] are greedy and cannot give back
    anything useful; [\s+] gives back its last character when nothing but a
    colon or the end of the line follows the white space, and that
    character is then the whole value. *)
Definition matchArg (s : str) : option (str * str * nat) :=
  match s with
  | c :: t =>
      if Js.eqc c ":" then
        let (key, t1) := Js.span Js.isWord t in
        let (sp, t2) := Js.span Js.isSpace t1 in
        let (val, _) := Js.span (fun x => negb (Js.eqc x ":")) t2 in
        match key, sp, val with
        | [], _, _ => None
        | _, [], _ => None
        | _, _, _ :: _ => Some (key, val, 1 + length key + length sp + length val)
        | _, _ :: _ :: _, [] => Some (key, [List.last sp " "], 1 + length key + length sp)
        | _, _, [] => None
        end
      else None
  | [] => None
  end.

(** The [while ((match = regex.exec(line)) !== null)] loop: [skip] is the
    part of the last match that lies ahead of the scan. *)
Fixpoint parseArgsLoop (skip : nat) (s : str) (args : gmap str str)
  : gmap str str :=
  match s with
  | [] => args
  | _ :: t =>
      match skip with
      | S k => parseArgsLoop k t args
      | O =>
          match matchArg s with
          | Some (key, val, n) =>
              parseArgsLoop (pred n) t (<[Js.toLowerCase key := Js.trim val]> args)
          | None => parseArgsLoop 0 t args
          end
      end
  end.

Definition parseExpectedArgs (line : str) : gmap str str :=
  parseArgsLoop 0 line ∅.

(** ** Block extent finder *)

(** [/^\*+\s/.test(line)] *)
Definition isHeadline (line : str) : bool :=
  let (stars, rest) := Js.span (Js.eqc "*") line in
  match stars, rest with
  | _ :: _, c :: _ => Js.isSpace c
  | _, _ => false
  end.

(** The condition under which the inner [for] loop of [parseExpectedBlock]
    breaks at [rawLine]. *)
Definition isTerminator (rawLine : str) : bool :=
  let line := Js.trim rawLine in
  Js.startsWith (lit "#+NAME:") line
  || Js.startsWith (lit "#+BEGIN_FIXTURE") line
  || Js.startsWith (lit "#+EXPECTED:") line
  || (isHeadline line && negb (Js.includes (lit "=>") line)).

(** The inner [for (let j = currentIndex + 1; j < lines.length; j++)] loop:
    [rest] is [lines] from index [j] on; the result is
    [(blockContentLines, blockEndIndex)]. *)
Fixpoint scanBlock (rest : list str) (j : nat)
    (blockContentLines : list str) (blockEndIndex : nat) : list str * nat :=
  match rest with
  | [] => (blockContentLines, blockEndIndex)
  | rawLine :: rest' =>
      if isTerminator rawLine then (blockContentLines, j - 1)
      else scanBlock rest' (S j) (blockContentLines ++ [rawLine]) j
  end.

Definition blockExtent (lines : list str) (currentIndex : nat)
  : list str * nat :=
  scanBlock (drop (currentIndex + 1) lines) (currentIndex + 1) [] currentIndex.

(** ** Data model *)

Set Warnings "-register-all".

Record Capture := { index : option Z; value : str }.

Record Assertion := {
  text : str;
  mustContain : list str;
  mustNotContain : list str
}.

Inductive ScopeNode :=
  mkScopeNode (a : Assertion) (children : list ScopeNode).

Record Symbol := {
  name : str;
  startLine : Z;
  startChar : Z;
  endLine : Z;
  endChar : Z
}.

Inductive SymbolNode :=
  mkSymbolNode (s : Symbol) (children : list SymbolNode).

(** [captures] is [None] where the source stores [undefined]. *)
Inductive Expectation :=
| RegexExpectation (name : str) (shouldMatch : bool)
    (captures : option (list Capture))
| ScopeExpectation (assertions : list Assertion) (tree : list ScopeNode)
| FoldingExpectation (ranges : list (Z * Z))
| SymbolsExpectation (symbols : list SymbolNode).

Record FixtureTestCase := {
  tc_name : str;
  tc_input : str;
  tc_expectations : list Expectation
}.

Inductive result (A : Type) :=
| Ok (a : A)
| Throw (message : str)
| OutOfFuel.
Arguments Ok {A} a.
Arguments Throw {A} message.
Arguments OutOfFuel {A}.

(** ** Indentation trees

    The scope and the symbols decoder build their tree with the same loop:
    node objects are created one per qualifying line, and [roots], the
    [children] arrays and [nodeStack] hold references to them.  The heap
    below is the list of objects in creation order, a reference is an
    index into it. *)

Module Tree.
Section Tree.
Context {A : Type}.

Record cell := { payload : A; kids : list nat }.

Record builder := {
  heap : list cell;
  roots : list nat;
  nodeStack : list (nat * nat)   (* (depth, node), the top first *)
}.

Definition empty : builder :=
  {| heap := []; roots := []; nodeStack := [] |}.

(** [while (nodeStack.length > 0 && top.depth >= depth) nodeStack.pop()] *)
Fixpoint popWhile (depth : nat) (st : list (nat * nat)) : list (nat * nat) :=
  match st with
  | (d, r) :: st' => if depth <=? d then popWhile depth st' else st
  | [] => []
  end.

Definition pushKid (k : nat) (c : cell) : cell :=
  {| payload := payload c; kids := kids c ++ [k] |}.

(** One node inserted: the object is created, attached to [roots] or to
    the node on top of the stack, and pushed. *)
Definition insertNode (depth : nat) (a : A) (b : builder) : builder :=
  let node := length (heap b) in
  let heap1 := heap b ++ [{| payload := a; kids := [] |}] in
  let st := popWhile depth (nodeStack b) in
  match st with
  | [] =>
      {| heap := heap1; roots := roots b ++ [node];
         nodeStack := (depth, node) :: st |}
  | (_, parent) :: _ =>
      {| heap := alter (pushKid node) parent heap1; roots := roots b;
         nodeStack := (depth, node) :: st |}
  end.

Definition build (items : list (nat * A)) : builder :=
  fold_left (fun b it => insertNode (fst it) (snd it) b) items empty.

(** The object graph read back as a value: what a consumer of [roots]
    sees.  [fuel] bounds the nesting. *)
Fixpoint reify {T : Type} (mk : A -> list T -> T) (fuel : nat)
    (h : list cell) (r : nat) : list T :=
  match fuel with
  | O => []
  | S fuel' =>
      match h !! r with
      | Some c => [mk (payload c) (flat_map (reify mk fuel' h) (kids c))]
      | None => []
      end
  end.

Definition forest {T : Type} (mk : A -> list T -> T) (b : builder) : list T :=
  flat_map (reify mk (length (heap b)) (heap b)) (roots b).

End Tree.
Arguments cell : clear implicits.
Arguments builder : clear implicits.
End Tree.

(** ** The scope name table ([./scoping])

    [scopeModule[key]], when it is a string.  The table itself follows the
    decoders. *)

Definition lookupScope (table : list (string * string)) (key : str)
  : option str :=
  match find (fun kv => Js.eqs (lit (fst kv)) key) table with
  | Some kv => Some (lit (snd kv))
  | None => None
  end.

(** The exports of [common/src/scoping.ts], all of them string constants,
    in the order of the file. *)
Definition scopeModule : list (string * string) :=
  [
    ("META_DOCUMENT", "text.org");
    ("META_HEADER", "meta.file.header.org");
    ("META_PARAGRAPH", "meta.paragraph.org");
    ("PARAGRAPH", "markup.paragraph.org");
    ("META_NODE", "meta.outline-node.org");
    ("META_NODE_ACTIVE", "meta.outline-node.active.org");
    ("META_NODE_INACTIVE", "meta.outline-node.inactive.org");
    ("META_SECTION", "meta.section.org");
    ("META_DIRECTIVE", "meta.directive.org");
    ("META_BLOCK", "meta.block.org");
    ("META_BEGIN_END_BLOCK", "meta.block.begin-end.org");
    ("META_DRAWER", "meta.block.drawer.org");
    ("META_OUTLINE_1", "meta.outline.1.org");
    ("META_OUTLINE_2", "meta.outline.2.org");
    ("META_OUTLINE_3", "meta.outline.3.org");
    ("META_OUTLINE_4", "meta.outline.4.org");
    ("META_OUTLINE_5", "meta.outline.5.org");
    ("META_OUTLINE_6", "meta.outline.6.org");
    ("META_OUTLINE_MORE_THAN_6", "meta.outline.more-than-6.org");
    ("META_OUTLINE_INACTIVE", "comment.outline.org");
    ("HEADING_BLOCK", "markup.heading.org");
    ("HEADING_ACTIVE", "markup.heading.active.org");
    ("HEADING_INACTIVE", "markup.heading.inactive.org");
    ("HEADING_LEVEL_1", "markup.heading.1.org");
    ("HEADING_LEVEL_2", "markup.heading.2.org");
    ("HEADING_LEVEL_3", "markup.heading.3.org");
    ("HEADING_LEVEL_4", "markup.heading.4.org");
    ("HEADING_LEVEL_5", "markup.heading.5.org");
    ("HEADING_LEVEL_6", "markup.heading.6.org");
    ("HEADING_LEVEL_MORE_THAN_6", "markup.heading.more-than-6.org");
    ("HEADING_PUNCTUATION", "punctuation.definition.heading.org");
    ("TODO_KEYWORD", "keyword.other.todo.org");
    ("PRIORITY_COOKIE", "constant.other.priority.org");
    ("PRIORITY_VALUE", "constant.other.priority.value.org");
    ("HEADING_TITLE", "entity.name.section.org");
    ("PROGRESS_COOKIE", "constant.other.progress.org");
    ("TAG", "entity.name.tag.org");
    ("LIST_UNORDERED_TEXT", "markup.list.unnumbered.org");
    ("LIST_ORDERED_TEXT", "markup.list.numbered.org");
    ("LIST_BULLET", "punctuation.definition.list.begin.org");
    ("CHECKBOX", "constant.language.checkbox.org");
    ("DESCRIPTION_TERM", "entity.name.tag.description.term.org");
    ("DESCRIPTION_SEPARATOR", "punctuation.separator.key-value.org");
    ("LIST_COUNTER", "constant.numeric.list.counter.org");
    ("LIST_COUNTER_VALUE", "constant.numeric.list.counter.value.org");
    ("HORIZONTAL_RULE", "meta.separator.org");
    ("PUNCTUATION_WHITESPACE", "punctuation.whitespace.org");
    ("LEADING_WHITESPACE", "string.other.whitespace.leading.org");
    ("BLOCK_CONTENT", "markup.block.org");
    ("BLOCK_KEYWORD", "keyword.control.block.org");
    ("BLOCK_NAME", "entity.name.function.block.org");
    ("BLOCK_PARAMETERS", "variable.parameter.block.org");
    ("BLOCK_PARAMETER_KEY", "keyword.other.property.key.org");
    ("BLOCK_PARAMETER_VALUE", "string.unquoted.property.value.org");
    ("BLOCK_STANDARD_META", "meta.block.begin-end.standard.org");
    ("BLOCK_STANDARD_CONTENT", "markup.block.standard.org");
    ("BLOCK_SRC_META", "meta.block.begin-end.src.org");
    ("BLOCK_SRC_CONTENT", "markup.block.src.org");
    ("BLOCK_LANGUAGE", "entity.name.type.language.org");
    ("BLOCK_SWITCH", "storage.modifier.switch.org");
    ("DYNAMIC_BLOCK_META", "meta.block.begin-end.dynamic.org");
    ("DYNAMIC_BLOCK_CONTENT", "markup.block.dynamic.org");
    ("BLOCK_CUSTOMIZED_META", "meta.block.begin-end.customized.org");
    ("BLOCK_CUSTOMIZED_CONTENT", "markup.block.customized.org");
    ("KEYWORD", "meta.directive.keyword.org");
    ("KEYWORD_KEY", "keyword.other.org");
    ("KEYWORD_NAME", "entity.name.function.org");
    ("KEYWORD_VALUE", "string.unquoted.org");
    ("LINK_ABBREVIATION_META", "meta.directive.link-abbreviation.org");
    ("LINK_ABBREVIATION_KEYWORD", "keyword.other.link.abbreviation.org");
    ("LINK_ABBREVIATION_KEY", "variable.parameter.link.abbreviation.org");
    ("LINK_ABBREVIATION_URL", "string.unquoted.link.abbreviation.url.org");
    ("PLANNING_LINE_META", "meta.directive.planning.org");
    ("PLANNING_KEYWORD", "keyword.control.task-management.org");
    ("PLANNING_TIMESTAMP", "constant.other.timestamp.planning.org");
    ("INCLUDE_KEYWORD", "keyword.other.include.org");
    ("INCLUDE_PATH", "string.quoted.include.path.org");
    ("INCLUDE_OPTIONS", "meta.directive.include.options.org");
    ("DRAWER_BEGIN_KEYWORD", "keyword.control.block.drawer.begin.org");
    ("DRAWER_END_KEYWORD", "keyword.control.block.drawer.end.org");
    ("DRAWER_NAME", "entity.name.function.drawer.org");
    ("DRAWER_CONTENT", "markup.block.drawer.content.org");
    ("PROPERTY_DRAWER_META", "meta.block.drawer.property.org");
    ("PROPERTY_DRAWER_BEGIN_KEYWORD", "punctuation.definition.property-drawer.begin.org");
    ("PROPERTY_DRAWER_END_KEYWORD", "punctuation.definition.property-drawer.end.org");
    ("PROPERTY_META", "meta.property.org");
    ("PROPERTY_KEY", "entity.name.property.org");
    ("PROPERTY_VALUE", "variable.other.property.value.org");
    ("TIMESTAMP_ACTIVE", "constant.other.timestamp.active.org");
    ("TIMESTAMP_INACTIVE", "constant.other.timestamp.inactive.org");
    ("TIMESTAMP_ACTIVE_RANGE", "constant.other.timestamp.active.range.org");
    ("TIMESTAMP_INACTIVE_RANGE", "constant.other.timestamp.inactive.range.org");
    ("META_INLINE_MACRO", "meta.inline.macro.org");
    ("MACRO", "variable.other.macro.org");
    ("MACRO_PUNCTUATION", "punctuation.definition.macro.org");
    ("MACRO_NAME", "entity.name.function.macro.org");
    ("MACRO_PARAMETER", "variable.parameter.macro.org");
    ("BOLD", "markup.bold.org");
    ("ITALIC", "markup.italic.org");
    ("UNDERLINE", "markup.underline.org");
    ("STRIKE_THROUGH", "markup.strikethrough.org");
    ("CODE", "markup.inline.raw.org");
    ("VERBATIM", "markup.inline.raw.org");
    ("LINK", "markup.underline.link.org");
    ("LATEX", "markup.math.org");
    ("ENTITY", "constant.character.entity.org");
    ("SUB_SUPER_SCRIPT", "markup.other.sub-super-script.org");
    ("BOLD_PUNCTUATION", "punctuation.definition.bold.org");
    ("ITALIC_PUNCTUATION", "punctuation.definition.italic.org");
    ("UNDERLINE_PUNCTUATION", "punctuation.definition.underline.org");
    ("STRIKE_THROUGH_PUNCTUATION", "punctuation.definition.strikethrough.org");
    ("CODE_PUNCTUATION", "punctuation.definition.raw.code.org");
    ("VERBATIM_PUNCTUATION", "punctuation.definition.raw.verbatim.org");
    ("META_INLINE_BOLD", "meta.inline.bold.org");
    ("META_INLINE_ITALIC", "meta.inline.italic.org");
    ("META_INLINE_UNDERLINE", "meta.inline.underline.org");
    ("META_INLINE_STRIKE_THROUGH", "meta.inline.strikethrough.org");
    ("META_INLINE_CODE", "meta.inline.code.org");
    ("META_INLINE_VERBATIM", "meta.inline.verbatim.org");
    ("LINK_META", "meta.link.org");
    ("LINK_BEGIN_PUNCTUATION", "punctuation.definition.link.begin.org");
    ("LINK_END_PUNCTUATION", "punctuation.definition.link.end.org");
    ("LINK_SEPARATOR_PUNCTUATION", "punctuation.separator.link.org");
    ("LINK_DESCRIPTION", "string.other.link.description.org");
    ("LINK_PLAIN", "markup.underline.link.plain.org");
    ("LINK_ANGLE", "markup.underline.link.angle.org");
    ("LINK_PROTOCOL", "keyword.other.link.protocol.org");
    ("FOOTNOTE_REFERENCE", "markup.footnote.reference.org");
    ("FOOTNOTE_PUNCTUATION", "punctuation.definition.footnote.org");
    ("FOOTNOTE_LABEL", "constant.other.footnote.label.org");
    ("FOOTNOTE_DEFINITION", "meta.footnote.definition.org");
    ("FOOTNOTE_CONTENT", "markup.footnote.content.org");
    ("META_TABLE", "meta.block.table.org");
    ("TABLE_META", "meta.block.begin-end.table.org");
    ("TABLE_CONTENT", "markup.block.table.org");
    ("TABLE_ROW", "markup.block.table.row.org");
    ("TABLE_CELL", "markup.table.cell.org");
    ("TABLE_CELL_PUNCTUATION", "punctuation.separator.table.cell.org");
    ("TABLE_ROW_SEPARATOR", "punctuation.definition.table.row-separator.org");
    ("TABLE_CAPTION_META", "meta.directive.table.caption.org");
    ("TABLE_ATTR_META", "meta.directive.table.attr.org");
    ("TABLE_FORMULA", "meta.directive.table.formula.org");
    ("COMMENT_LINE", "comment.line.number-sign.org");
    ("COMMENT_BLOCK", "comment.block.org meta.block.begin-end.org meta.block.begin-end.standard.org");
    ("COMMENT_BLOCK_CONTENT", "comment.block.content.org")
  ]%string.

(** ** Sub-grammar decoders *)

(** *** Regex capture table *)

(** The [for (const line of blockContentLines)] loop of the regex branch:
    the state is [(shouldMatch, tableLines)]. *)
Definition regexScanLine (st : bool * list str) (line : str)
  : bool * list str :=
  if Js.eqs (Js.toLowerCase (Js.trim line)) (lit "no-match") then (false, snd st)
  else if Js.startsWith ["|"] (Js.trim line) then (fst st, snd st ++ [Js.trim line])
  else st.

(** The callback of [tableLines.map]: [None] is the source's [null]. *)
Definition captureOfRow (line : str) : option Capture :=
  match map Js.trim (Js.split "|" line) with
  | _ :: groupNumStr :: cell :: _ =>
      if negb (Js.eqs groupNumStr (lit "Group #"))
         && negb (Js.includes (lit "---") groupNumStr)
      then Some {| index := Js.parseInt groupNumStr;
                   value := processExpectedValue cell |}
      else None
  | _ => None
  end.

Definition decodeRegex (regexName : str) (blockContentLines : list str)
  : Expectation :=
  let (shouldMatch, tableLines) :=
    fold_left regexScanLine blockContentLines (true, []) in
  let captures := omap captureOfRow tableLines in
  RegexExpectation regexName shouldMatch
    (if shouldMatch then Some captures else None).

(** *** Scope assertions *)

(** [raw.replace(/\t/g, "    ")] *)
Definition expandTabs (raw : str) : str :=
  Js.replaceAll (Js.matchLit ["009"] (lit "    ")) 0 raw.

(** The length of the leading white space: [line.match(/^(\s* )/)[1].length] *)
Definition indentDepth (line : str) : nat :=
  length (fst (Js.span Js.isSpace line)).

(** [line.replace(/^\s*-\s*/, "")] *)
Definition stripBullet (line : str) : str :=
  match Js.trimStart line with
  | c :: t => if Js.eqc c "-" then Js.trimStart t else line
  | [] => line
  end.

Definition isBlankOrComment (line : str) : bool :=
  Js.eqs (Js.trim line) [] || Js.startsWith ["#"] (Js.trim line).

(** The quote stripping of the left-hand side. *)
Definition unquote (text : str) : str :=
  if (Js.startsWith ["034"] text && Js.endsWith ["034"] text)
     || (Js.startsWith ["'"] text && Js.endsWith ["'"] text)
  then removelast (tl text)   (* text.slice(1, -1) *)
  else text.

(** [/\{\{\s*scopes\.([A-Za-z0-9_]+)\s*\}\}/] at the head of [s], with the
    callback that keeps the matched text when the key is not bound to a
    string. *)
Definition matchTemplate (s : str) : option (str * nat) :=
  if Js.startsWith (lit "{{") s then
    let (ws1, t1) := Js.span Js.isSpace (drop 2 s) in
    if Js.startsWith (lit "scopes.") t1 then
      let (key, t3) := Js.span Js.isWord (drop 7 t1) in
      let (ws2, t4) := Js.span Js.isSpace t3 in
      match key with
      | [] => None
      | _ =>
          if Js.startsWith (lit "}}") t4 then
            let n := 2 + length ws1 + 7 + length key + length ws2 + 2 in
            Some (match lookupScope scopeModule key with
                  | Some val => val
                  | None => take n s
                  end, n)
          else None
      end
    else None
  else None.

Definition interpolate (right : str) : str :=
  Js.replaceAll matchTemplate 0 right.

(** [right.split(",").map((s) => s.trim()).filter(Boolean)] *)
Definition rawScopes (right : str) : list str :=
  filter (fun s => s <> []) (map Js.trim (Js.split "," right)).

(** The [for (const scope of rawScopes)] loop; the state is
    [(mustContain, mustNotContain)]. *)
Definition sortScope (st : list str * list str) (scope : str)
  : list str * list str :=
  if Js.startsWith ["!"] scope then (fst st, snd st ++ [drop 1 scope])
  else (fst st ++ [scope], snd st).

(** One iteration of the scope loop up to the test that guards the
    push: the depth and the assertion, or [None] where the source
    [continue]s or pushes nothing. *)
Definition decodeScopeLine (raw : str) : option (nat * Assertion) :=
  let normalized := expandTabs raw in
  if isBlankOrComment normalized then None
  else
    let depth := indentDepth normalized in
    let line := stripBullet normalized in
    match Js.indexOf (lit "=>") line with
    | None => None    (* !line.includes("=>") *)
    | Some idx =>
        let left := Js.trim (take idx line) in
        let right := Js.trim (drop (idx + 2) line) in
        let text := processExpectedValue (unquote (Js.trim left)) in
        let right := interpolate right in
        let (mc, mnc) := fold_left sortScope (rawScopes right) ([], []) in
        match mc, mnc with
        | [], [] => None
        | _, _ =>
            Some (depth, {| text := text; mustContain := mc;
                            mustNotContain := mnc |})
        end
    end.

Definition scopeLoopBody
    (st : list Assertion * Tree.builder Assertion) (raw : str)
  : list Assertion * Tree.builder Assertion :=
  match decodeScopeLine raw with
  | Some (depth, a) => (fst st ++ [a], Tree.insertNode depth a (snd st))
  | None => st
  end.

Definition hasMeaningfulContent (blockContentLines : list str) : bool :=
  existsb (fun l => let t := Js.trim l in
                    negb (Js.eqs t []) && negb (Js.startsWith ["#"] t))
    blockContentLines.

Definition scopeError : str :=
  lit "Scope expectation block must contain lines in the format: text => scope".

Definition decodeScope (blockContentLines : list str) : result Expectation :=
  let (assertions, b) :=
    fold_left scopeLoopBody blockContentLines ([], Tree.empty) in
  if (length assertions =? 0) && hasMeaningfulContent blockContentLines
  then Throw scopeError
  else Ok (ScopeExpectation assertions (Tree.forest mkScopeNode b)).

(** *** Folding ranges *)

(** [/\[(\d+)-(\d+)\]/] at the head of [s]. *)
Definition matchRange (s : str) : option ((Z * Z) * nat) :=
  match s with
  | c :: t =>
      if Js.eqc c "[" then
        let (d1, t1) := Js.span Js.isDigit t in
        match d1, t1 with
        | _ :: _, c1 :: t2 =>
            if Js.eqc c1 "-" then
              let (d2, t3) := Js.span Js.isDigit t2 in
              match d2, t3 with
              | _ :: _, c2 :: _ =>
                  if Js.eqc c2 "]"
                  then Some ((Js.parseZ d1, Js.parseZ d2),
                             3 + length d1 + length d2)
                  else None
              | _, _ => None
              end
            else None
        | _, _ => None
        end
      else None
  | [] => None
  end.

(** The [while ((match = rangeRegex.exec(content)) !== null)] loop. *)
Fixpoint foldingLoop (skip : nat) (s : str) (ranges : list (Z * Z))
  : list (Z * Z) :=
  match s with
  | [] => ranges
  | _ :: t =>
      match skip with
      | S k => foldingLoop k t ranges
      | O =>
          match matchRange s with
          | Some (r, n) => foldingLoop (pred n) t (ranges ++ [r])
          | None => foldingLoop 0 t ranges
          end
      end
  end.

Definition decodeFolding (blockContentLines : list str) : Expectation :=
  let content := Js.trim (Js.join [" "] blockContentLines) in
  FoldingExpectation (foldingLoop 0 content []).

(** *** Symbol trees *)

(** A run of digits closed by the character [stop]. *)
Definition digitsThen (stop : ascii) (s : str) : option (Z * str) :=
  let (ds, t) := Js.span Js.isDigit s in
  match ds, t with
  | _ :: _, c :: t' => if Js.eqc c stop then Some (Js.parseZ ds, t') else None
  | _, _ => None
  end.

(** The tail [\s+\((\d+):(\d+)-(\d+):(\d+)\)] of the symbol pattern at the
    head of [s]. *)
Definition symTail (s : str) : option (Z * Z * Z * Z) :=
  let (sp, t) := Js.span Js.isSpace s in
  match sp, t with
  | _ :: _, c :: t0 =>
      if Js.eqc c "(" then
        match digitsThen ":" t0 with
        | Some (sl, t1) =>
            match digitsThen "-" t1 with
            | Some (sc, t2) =>
                match digitsThen ":" t2 with
                | Some (el, t3) =>
                    match digitsThen ")" t3 with
                    | Some (ec, _) => Some (sl, sc, el, ec)
                    | None => None
                    end
                | None => None
                end
            | None => None
            end
        | None => None
        end
      else None
  | _, _ => None
  end.

(** The lazy group [(.+?)] followed by the tail: the name grows one
    character at a time until the tail matches. *)
Fixpoint lazyName (s : str) (acc : str) : option (str * (Z * Z * Z * Z)) :=
  match s with
  | [] => None
  | c :: t =>
      if Js.isDot c then
        match symTail t with
        | Some r => Some (acc ++ [c], r)
        | None => lazyName t (acc ++ [c])
        end
      else None
  end.

(** The greedy [\s*] after the dash: it first takes all [a] white space
    characters and gives them back one by one while the rest fails. *)
Fixpoint afterDash (a : nat) (t : str) : option (str * (Z * Z * Z * Z)) :=
  match lazyName (drop a t) [] with
  | Some r => Some r
  | None => match a with
            | O => None
            | S a' => afterDash a' t
            end
  end.

(** [line.match(/^\s*-\s*(.+?)\s+\((\d+):(\d+)-(\d+):(\d+)\)/)] *)
Definition matchSymbol (line : str) : option Symbol :=
  match Js.trimStart line with
  | c :: t =>
      if Js.eqc c "-" then
        match afterDash (length (fst (Js.span Js.isSpace t))) t with
        | Some (nm, (sl, sc, el, ec)) =>
            Some {| name := Js.trim nm; startLine := sl; startChar := sc;
                    endLine := el; endChar := ec |}
        | None => None
        end
      else None
  | [] => None
  end.

Definition decodeSymbolLine (raw : str) : option (nat * Symbol) :=
  let line := expandTabs raw in
  if isBlankOrComment line then None
  else
    let depth := indentDepth line in
    match matchSymbol line with
    | Some node => Some (depth, node)
    | None => None
    end.

Definition symbolLoopBody (b : Tree.builder Symbol) (raw : str)
  : Tree.builder Symbol :=
  match decodeSymbolLine raw with
  | Some (depth, node) => Tree.insertNode depth node b
  | None => b
  end.

Definition decodeSymbols (blockContentLines : list str) : Expectation :=
  SymbolsExpectation
    (Tree.forest mkSymbolNode
       (fold_left symbolLoopBody blockContentLines Tree.empty)).

(** ** The error monad of the parser *)

#[global] Instance result_ret : MRet result := fun _ a => Ok a.
#[global] Instance result_bind : MBind result := fun _ _ f r =>
  match r with
  | Ok a => f a
  | Throw m => Throw m
  | OutOfFuel => OutOfFuel
  end.

(** ** Expectation blocks *)

Definition isExpectedDirective (line : str) : bool :=
  Js.startsWith (lit "#+expected:") (Js.toLowerCase (Js.trim line)).

Definition isType (testType : option str) (t : string) : bool :=
  match testType with
  | Some s => Js.eqs s (lit t)
  | None => false
  end.

Definition missingName (expectedLine : str) : str :=
  lit "Regex test case is missing a :name argument in line: " ++ expectedLine.

(** The dispatch on [testType]: what one directive appends to
    [allExpectations]. *)
Definition decodeBlock (expectedLine : str) (blockContentLines : list str)
  : result (list Expectation) :=
  let args := parseExpectedArgs expectedLine in
  let testType := args !! lit "type" in
  if isType testType "regex" then
    match args !! lit "name" with
    | Some (c :: regexName) => Ok [decodeRegex (c :: regexName) blockContentLines]
    | _ => Throw (missingName expectedLine)
    end
  else if isType testType "scope" then
    e ← decodeScope blockContentLines; Ok [e]
  else if isType testType "folding" then
    Ok [decodeFolding blockContentLines]
  else if isType testType "symbols" then
    Ok [decodeSymbols blockContentLines]
  else Ok [].

(** [while (i < lines.length && lines[i].trim() === "") i++], [rest] being
    [lines] from index [i] on. *)
Fixpoint skipBlankFrom (rest : list str) (i : nat) : nat :=
  match rest with
  | l :: rest' => if Js.eqs (Js.trim l) [] then skipBlankFrom rest' (S i) else i
  | [] => i
  end.

Definition skipBlank (lines : list str) (i : nat) : nat :=
  skipBlankFrom (drop i lines) i.

(** The body of the outer [while] of [parseExpectedBlock], entered with
    an expectation directive at [currentIndex]: the next [currentIndex] and
    [allExpectations]. *)
Definition expStep (lines : list str) (currentIndex : nat)
    (expectedLine : str) (allExpectations : list Expectation)
  : result (nat * list Expectation) :=
  let (blockContentLines, blockEndIndex) := blockExtent lines currentIndex in
  pushed ← decodeBlock expectedLine blockContentLines;
  Ok (skipBlank lines (blockEndIndex + 1), allExpectations ++ pushed).

Fixpoint expLoop (fuel : nat) (lines : list str) (currentIndex : nat)
    (allExpectations : list Expectation) : result (list Expectation * Z) :=
  match fuel with
  | O => OutOfFuel
  | S fuel' =>
      match lines !! currentIndex with
      | Some expectedLine =>
          if isExpectedDirective expectedLine then
            '(next, all) ← expStep lines currentIndex expectedLine allExpectations;
            expLoop fuel' lines next all
          else Ok (allExpectations, (Z.of_nat currentIndex - 1)%Z)
      | None => Ok (allExpectations, (Z.of_nat currentIndex - 1)%Z)
      end
  end.

(** Every iteration moves [currentIndex] forward, so the loop body runs at
    most [lines.length] times. *)
Definition parseExpectedBlock (lines : list str) (startIndex : nat)
  : result (list Expectation * Z) :=
  expLoop (S (length lines)) lines startIndex [].

(** ** Fixture file compiler *)

Definition isNameDirective (line : str) : bool :=
  Js.startsWith (lit "#+name:") (Js.toLowerCase (Js.trim line)).

Definition isBeginFixture (line : str) : bool :=
  Js.startsWith (lit "#+begin_fixture") (Js.toLowerCase (Js.trim line)).

Definition isEndFixture (line : str) : bool :=
  Js.startsWith (lit "#+end_fixture") (Js.toLowerCase (Js.trim line)).

(** [line.replace(/^\s*#\+name:/i, "").trim()] *)
Definition testNameOf (line : str) : str :=
  let t := Js.trimStart line in
  Js.trim (if Js.startsWith (lit "#+name:") (Js.toLowerCase t)
           then drop 7 t else line).

(** The search for the closing directive, from [j] on; [None] is the
    source's [-1]. *)
Fixpoint findEndFrom (rest : list str) (j : nat) : option nat :=
  match rest with
  | l :: rest' => if isEndFixture l then Some j else findEndFrom rest' (S j)
  | [] => None
  end.

Definition findEnd (lines : list str) (contentStartIndex : nat) : option nat :=
  findEndFrom (drop contentStartIndex lines) contentStartIndex.

(** The callback of [fixtureLines.map]: [/^(\s* ),(.* )/], where the dot
    stops at a line terminator. *)
Definition stripComma (line : str) : str :=
  let (ws, t) := Js.span Js.isSpace line in
  match t with
  | c :: u => if Js.eqc c "," then ws ++ fst (Js.span Js.isDot u) else line
  | [] => line
  end.

(** [lines.slice(from, to)] *)
Definition slice (lines : list str) (from to : nat) : list str :=
  take (to - from) (drop from lines).

(** One iteration of the [for] loop of [parseFixtureFile] at index [i],
    where [lines[i]] is [line]: the index of the next iteration (after the
    loop's own [i++]) and [tests]. *)
Definition scanStep (lines : list str) (i : nat) (line : str)
    (tests : list FixtureTestCase) : result (nat * list FixtureTestCase) :=
  if negb (isNameDirective line) then Ok (S i, tests)
  else
    let testName := testNameOf line in
    let containerStartLine := i + 1 in
    match lines !! containerStartLine with
    | None => Ok (S i, tests)
    | Some opening =>
        if negb (isBeginFixture opening) then Ok (S i, tests)
        else
          let contentStartIndex := containerStartLine + 1 in
          match findEnd lines contentStartIndex with
          | None => Ok (S i, tests)   (* Unmatched BEGIN_FIXTURE *)
          | Some contentEndIndex =>
              let fixtureLines := slice lines contentStartIndex contentEndIndex in
              let input := Js.join ["010"] (map stripComma fixtureLines) in
              let lookaheadIndex := skipBlank lines (contentEndIndex + 1) in
              match lines !! lookaheadIndex with
              | Some la =>
                  if isExpectedDirective la then
                    '(expectations, endIndex) ← parseExpectedBlock lines lookaheadIndex;
                    Ok (Z.to_nat (endIndex + 1),
                        tests ++ [{| tc_name := testName; tc_input := input;
                                     tc_expectations := expectations |}])
                  else Ok (S contentEndIndex, tests)
              | None => Ok (S contentEndIndex, tests)
              end
          end
    end.

Fixpoint scanLoop (fuel : nat) (lines : list str) (i : nat)
    (tests : list FixtureTestCase) : result (list FixtureTestCase) :=
  match fuel with
  | O => OutOfFuel
  | S fuel' =>
      match lines !! i with
      | Some line =>
          '(next, tests') ← scanStep lines i line tests;
          scanLoop fuel' lines next tests'
      | None => Ok tests
      end
  end.

Definition parseFixtureFile (content : str) : result (list FixtureTestCase) :=
  let lines := Js.split "010" content in
  scanLoop (S (length lines)) lines 0 [].


(** ** Reference definitions for the properties

    What follows is not code of the parser: these definitions state, in
    the words of the design document, what the parser is compared with. *)

(** *** The value normalizer as a single substitution

    One scan from left to right that replaces each token where it stands
    in the input and never looks at what it has produced. *)

Definition matchToken (s : str) : option (str * nat) :=
  match matchSp s with
  | Some r => Some r
  | None =>
      match matchTab s with
      | Some r => Some r
      | None => matchPipe s
      end
  end.

Definition normalizeOnce (value : str) : str :=
  Js.replaceAll matchToken 0 value.

(** Does a [<sp:N>] token whose count is zero stand somewhere in [s]? *)
Fixpoint hasZeroSp (s : str) : bool :=
  match matchSp s with
  | Some ([], _) => true
  | _ => match s with
         | [] => false
         | _ :: t => hasZeroSp t
         end
  end.

(** *** Where the two loops get to

    [ScanReaches lines i tests]: the [for] loop of [parseFixtureFile]
    starts an iteration with index [i] and the test cases [tests].
    [ExpReaches lines start cur all]: the [while] loop of
    [parseExpectedBlock], called at [start], tests its condition with
    [currentIndex = cur] and [allExpectations = all]. *)

Inductive ScanReaches (lines : list str) : nat -> list FixtureTestCase -> Prop :=
| scan_start : ScanReaches lines 0 []
| scan_next i line tests i' tests' :
    ScanReaches lines i tests ->
    lines !! i = Some line ->
    scanStep lines i line tests = Ok (i', tests') ->
    ScanReaches lines i' tests'.

Inductive ExpReaches (lines : list str) (start : nat)
  : nat -> list Expectation -> Prop :=
| exp_start : ExpReaches lines start start []
| exp_next cur line all cur' all' :
    ExpReaches lines start cur all ->
    lines !! cur = Some line ->
    isExpectedDirective line = true ->
    expStep lines cur line all = Ok (cur', all') ->
    ExpReaches lines start cur' all'.

(** A fixture file given line by line. *)
Definition fileOf (ls : list string) : str := Js.join ["010"] (map lit ls).

(** *** The regex capture table in the words of the design document

    A row is a content line that begins, once trimmed, with the bar; it is
    a capture assertion when it has at least three cells and its second
    cell is a decimal integer. *)

Definition isTableRow (line : str) : bool :=
  Js.startsWith ["|"] (Js.trim line).

Definition isNoMatch (line : str) : bool :=
  Js.eqs (Js.toLowerCase (Js.trim line)) (lit "no-match").

Definition isDecimalInteger (s : str) : bool :=
  match s with
  | [] => false
  | _ => forallb Js.isDigit s
  end.

Definition specCapture (line : str) : option Capture :=
  match map Js.trim (Js.split "|" (Js.trim line)) with
  | _ :: n :: cell :: _ =>
      if isDecimalInteger n
      then Some {| index := Some (Js.parseZ n);
                   value := processExpectedValue cell |}
      else None
  | _ => None
  end.

Definition specCaptures (blockContentLines : list str) : list Capture :=
  omap specCapture (List.filter isTableRow blockContentLines).

(** *** The words of the claims on plain lists of characters

    The notions below are written on lists and character codes alone, with
    none of the functions of the program, so that a theorem that relates
    the program to them says what the program's own tests compute. *)

(** White space: tab, line feed, vertical tab, form feed, carriage
    return, space and no-break space. *)
Definition White (c : ascii) : Prop :=
  In (nat_of_ascii c) [9; 10; 11; 12; 13; 32; 160].

(** A decimal digit. *)
Definition Digit (c : ascii) : Prop :=
  48 <= nat_of_ascii c /\ nat_of_ascii c <= 57.

(** [core] is [l] without the white space around it. *)
Definition Trimmed (l core : str) : Prop :=
  exists a b, l = a ++ core ++ b
    /\ Forall White a /\ Forall White b
    /\ (forall c t, core = c :: t -> ~ White c)
    /\ (forall t c, core = t ++ [c] -> ~ White c).

Definition BeginsWith (p s : str) : Prop := exists t, s = p ++ t.

Definition Holds (p s : str) : Prop := exists a b, s = a ++ p ++ b.

(** The same character, or the same letter of [A-Z] in the other case. *)
Definition SameLetter (x y : ascii) : Prop :=
  x = y
  \/ (65 <= nat_of_ascii x /\ nat_of_ascii x <= 90
      /\ nat_of_ascii y = nat_of_ascii x + 32)
  \/ (65 <= nat_of_ascii y /\ nat_of_ascii y <= 90
      /\ nat_of_ascii x = nat_of_ascii y + 32).

(** [p] spells [keyword], in whatever case. *)
Definition Spells (keyword p : str) : Prop := Forall2 SameLetter keyword p.

(** One or more stars followed by a white space character. *)
Definition HeadlineShaped (s : str) : Prop :=
  exists k c t, 1 <= k /\ s = repeat "*" k ++ c :: t /\ White c.

(** The three keywords that end a block. *)
Definition blockKeywords : list str :=
  [lit "#+NAME:"; lit "#+BEGIN_FIXTURE"; lit "#+EXPECTED:"].

(** The line ends a block: trimmed, it begins with one of the keywords as
    written above, or it is headline-shaped and holds no [=>]. *)
Definition EndsBlock (l : str) : Prop :=
  exists core, Trimmed l core
    /\ ((exists k, In k blockKeywords /\ BeginsWith k core)
        \/ (HeadlineShaped core /\ ~ Holds (lit "=>") core)).

(** The same with the keyword in any spelling of upper and lower case. *)
Definition EndsBlockAnyCase (l : str) : Prop :=
  exists core, Trimmed l core
    /\ ((exists k p, In k blockKeywords /\ Spells k p /\ BeginsWith p core)
        \/ (HeadlineShaped core /\ ~ Holds (lit "=>") core)).

(** The same as a test: the terminator test of the program with the case
    of the line folded, as the tests of the directives elsewhere in the
    file fold it. *)
Definition isTerminatorAnyCase (rawLine : str) : bool :=
  let line := Js.trim rawLine in
  let lower := Js.toLowerCase line in
  Js.startsWith (lit "#+name:") lower
  || Js.startsWith (lit "#+begin_fixture") lower
  || Js.startsWith (lit "#+expected:") lower
  || (isHeadline line && negb (Js.includes (lit "=>") line)).

(** The terminators as the claim words them: a directive, in whatever
    spelling the compiler takes for one, or a line that is itself
    headline-shaped and holds no [=>]. *)
Definition EndsBlockAsClaimed (l : str) : Prop :=
  (exists core k p, Trimmed l core /\ In k blockKeywords /\ Spells k p
                    /\ BeginsWith p core)
  \/ (HeadlineShaped l /\ ~ Holds (lit "=>") l).

(** **** The capture table *)

(** The value of a run of decimal digits, read from its last digit. *)
Fixpoint decimalRev (rds : str) : Z :=
  match rds with
  | [] => 0
  | d :: r => Z.of_nat (nat_of_ascii d - 48) + 10 * decimalRev r
  end%Z.

Definition decimal (ds : str) : Z := decimalRev (rev ds).

(** Cells written one after the other with a bar between them. *)
Fixpoint barred (cells : list str) : str :=
  match cells with
  | [] => []
  | [c] => c
  | c :: rest => c ++ "|" :: barred rest
  end.

(** The row splits on the bar into these cells. *)
Definition SplitsInto (row : str) (cells : list str) : Prop :=
  cells <> [] /\ Forall (fun c => ~ In "|" c) cells /\ row = barred cells.

Definition Sign (s : str) : Prop := s = [] \/ s = ["-"] \/ s = ["+"].

Definition signed (sign : str) (v : Z) : Z :=
  match sign with
  | ["-"] => (- v)%Z
  | _ => v
  end.

(** What the index of a capture is for the second cell [n] of its row: the
    integer that an optional sign and the digits that follow it spell,
    whatever text comes after the digits, and [NaN] where no digit stands
    there.  Of a run of more than fifteen digits, which a JavaScript
    number need not hold exactly, nothing is said. *)
Definition IndexReads (n : str) (v : option Z) : Prop :=
  (forall sign ds rest,
      n = sign ++ ds ++ rest -> Sign sign -> ds <> [] -> Forall Digit ds ->
      (forall c t, rest = c :: t -> ~ Digit c) -> length ds <= 15 ->
      v = Some (signed sign (decimal ds)))
  /\ (forall sign rest,
        n = sign ++ rest -> Sign sign ->
        (forall c t, rest = c :: t ->
           ~ Digit c /\ (sign = [] -> c <> "-" /\ c <> "+")) ->
        v = None).

(** The line is [no-match], in any case and with white space around. *)
Definition NoMatchLine (l : str) : Prop :=
  exists core, Trimmed l core /\ Spells (lit "no-match") core.

(** The content line [l] is a capture assertion and [c] is its entry: the
    trimmed line begins with the bar and splits into three cells at least,
    the second of which, trimmed, is neither [Group #] nor holds [---];
    the index is read from the second cell and the value is the third
    cell, trimmed and normalized. *)
Definition EntryOf (l : str) (c : Capture) : Prop :=
  exists row c0 x1 x2 more n cell,
    Trimmed l row /\ BeginsWith ["|"] row
    /\ SplitsInto row (c0 :: x1 :: x2 :: more)
    /\ Trimmed x1 n /\ Trimmed x2 cell
    /\ n <> lit "Group #" /\ ~ Holds (lit "---") n
    /\ IndexReads n (index c)
    /\ value c = processExpectedValue cell.

(** One entry for every capture assertion among the content lines, in
    the order of the lines, and nothing for the other lines. *)
Inductive CapturesOf : list str -> list Capture -> Prop :=
| captures_nil : CapturesOf [] []
| captures_skip (l : str) (ls : list str) (cs : list Capture) :
    (forall c, ~ EntryOf l c) -> CapturesOf ls cs -> CapturesOf (l :: ls) cs
| captures_take (l : str) (ls : list str) (c : Capture) (cs : list Capture) :
    EntryOf l c -> CapturesOf ls cs -> CapturesOf (l :: ls) (c :: cs).

(** *** A scope assertion line in the words of the design document

    The text left of the first [=>], and every comma-separated token right
    of it, sorted by its leading [!]. *)

Definition negated (scope : str) : bool := Js.startsWith ["!"] scope.

Definition specScopeLine (raw : str) : option Assertion :=
  let line := stripBullet raw in
  match Js.indexOf (lit "=>") line with
  | None => None
  | Some idx =>
      let tokens := map Js.trim (Js.split "," (drop (idx + 2) line)) in
      Some {| text := processExpectedValue (unquote (Js.trim (take idx line)));
              mustContain := List.filter (fun s => negb (negated s)) tokens;
              mustNotContain := map (drop 1) (List.filter negated tokens) |}
  end.

(** *** Indentation trees against the depths of their lines

    The qualifying lines of a block are numbered in order; [ds] is the list
    of their depths and node [k] is the object made for line [k]. *)

(** The nearest index before [k] whose depth is below [d]. *)
Fixpoint searchBack (ds : list nat) (d : nat) (k : nat) : option nat :=
  match k with
  | O => None
  | S j =>
      match ds !! j with
      | Some dj => if dj <? d then Some j else searchBack ds d j
      | None => searchBack ds d j
      end
  end.

(** The nearest line before line [k] that is shallower than line [k]. *)
Definition nearestShallower (ds : list nat) (k : nat) : option nat :=
  match ds !! k with
  | Some d => searchBack ds d k
  | None => None
  end.

(** The nearest line before line [k] that has the depth of line [k]. *)
Fixpoint searchBackEq (ds : list nat) (d : nat) (k : nat) : option nat :=
  match k with
  | O => None
  | S j =>
      match ds !! j with
      | Some dj => if dj =? d then Some j else searchBackEq ds d j
      | None => searchBackEq ds d j
      end
  end.

Definition nearestEqual (ds : list nat) (k : nat) : option nat :=
  match ds !! k with
  | Some d => searchBackEq ds d k
  | None => None
  end.

(** The [children] array of node [j]. *)
Definition kidsOf {A : Type} (b : Tree.builder A) (j : nat) : list nat :=
  match Tree.heap b !! j with
  | Some c => Tree.kids c
  | None => []
  end.

(** The node that holds [k] in its [children], if there is one. *)
Definition parentOf {A : Type} (b : Tree.builder A) (k : nat) : option nat :=
  fst <$> list_find (fun c => k ∈ Tree.kids c) (Tree.heap b).

Inductive Descendant {A : Type} (b : Tree.builder A) : nat -> nat -> Prop :=
| desc_child j k : k ∈ kidsOf b j -> Descendant b j k
| desc_below j p k : Descendant b j p -> k ∈ kidsOf b p -> Descendant b j k.

(** Line [k] lies in the run of lines after line [j] that are all deeper
    than line [j]. *)
Definition deeperRun (ds : list nat) (j k : nat) : Prop :=
  j < k < length ds
  /\ forall m dj dm, j < m <= k -> ds !! j = Some dj -> ds !! m = Some dm ->
                     dj < dm.

(** The trees the two decoders build, as object graphs, and the depths of
    the lines that made their nodes. *)
Definition scopeTree (blockContentLines : list str) : Tree.builder Assertion :=
  snd (fold_left scopeLoopBody blockContentLines ([], Tree.empty)).

Definition symbolTree (blockContentLines : list str) : Tree.builder Symbol :=
  fold_left symbolLoopBody blockContentLines Tree.empty.

Definition scopeDepths (blockContentLines : list str) : list nat :=
  map fst (omap decodeScopeLine blockContentLines).

Definition symbolDepths (blockContentLines : list str) : list nat :=
  map fst (omap decodeSymbolLine blockContentLines).

(** What the decoders guarantee about a tree [b] built from lines of
    depths [ds]. *)
Record IndentationTree {A : Type} (b : Tree.builder A) (ds : list nat) : Prop := {
  it_nodes : length (Tree.heap b) = length ds;
  it_child : forall j k, k ∈ kidsOf b j <-> nearestShallower ds k = Some j;
  it_root : forall k,
    k ∈ Tree.roots b <-> k < length ds /\ nearestShallower ds k = None;
  it_sibling : forall j k,
    nearestEqual ds k = Some j ->
    (forall m dm dk, j < m < k -> ds !! m = Some dm -> ds !! k = Some dk ->
                     dk <= dm) ->
    nearestShallower ds j = nearestShallower ds k;
  it_descendant : forall j k, Descendant b j k <-> deeperRun ds j k
}.

(** *** The invariant of the tree loop

    What the loop keeps true between two lines: the stack answers, for
    every depth, the search for the nearest shallower line. *)
Record TreeInv {A : Type} (items : list (nat * A)) (b : Tree.builder A)
  : Prop := {
  inv_nodes : length (Tree.heap b) = length items;
  inv_stack : forall d,
    snd <$> head (Tree.popWhile d (Tree.nodeStack b))
    = searchBack (map fst items) d (length items);
  inv_child : forall j k,
    k ∈ kidsOf b j <-> nearestShallower (map fst items) k = Some j;
  inv_root : forall k,
    k ∈ Tree.roots b <->
    k < length items /\ nearestShallower (map fst items) k = None
}.


(** Closes goals that say that the characters of a fixed text differ from a
    given one. *)
Ltac chars_neq := repeat constructor; discriminate.

(** * The syntax tree and its two readers

    [getTreeSitterFolds] (common/src/folding.ts) and
    [provideDocumentSymbols] (server/src/features/symbols.ts) walk a
    web-tree-sitter tree.  Of a node they read its type, its text, its two
    positions, its children, an entry of which may be null, and the first
    child that carries a field name. *)
Module Syntax.

Record Point := { row : Z; column : Z }.

Inductive SyntaxNode :=
  mkNode (type text : str) (startPosition endPosition : Point)
         (children : list (option (option str * SyntaxNode))).

Definition type (n : SyntaxNode) : str :=
  match n with mkNode t _ _ _ _ => t end.
Definition text (n : SyntaxNode) : str :=
  match n with mkNode _ t _ _ _ => t end.
Definition startPosition (n : SyntaxNode) : Point :=
  match n with mkNode _ _ p _ _ => p end.
Definition endPosition (n : SyntaxNode) : Point :=
  match n with mkNode _ _ _ p _ => p end.
Definition children (n : SyntaxNode)
  : list (option (option str * SyntaxNode)) :=
  match n with mkNode _ _ _ _ c => c end.

(** [node.childForFieldName(name)]: the first child under that field. *)
Definition childForFieldName (n : SyntaxNode) (field : str)
  : option SyntaxNode :=
  head (omap (fun child =>
                match child with
                | Some (Some f, c) => if Js.eqs f field then Some c else None
                | _ => None
                end) (children n)).

Record Tree := { rootNode : SyntaxNode }.

(** The children that are not null. *)
Definition kidsOf (n : SyntaxNode) : list SyntaxNode :=
  omap (fun child => snd <$> child) (children n).

(** The nodes of a tree in document order, the node before its children. *)
Fixpoint preorder (n : SyntaxNode) : list SyntaxNode :=
  n :: flat_map (fun child =>
                   match child with
                   | Some (_, c) => preorder c
                   | None => []
                   end) (children n).

End Syntax.

Module Folding.
Import Syntax.

Record SimpleFoldingRange := {
  startLine : Z;
  endLine : Z;
  kind : option str
}.

(** What [traverse] pushes at one node, before it goes into the children. *)
Definition pushed (node : SyntaxNode) : option SimpleFoldingRange :=
  if Js.eqs (type node) (lit "section") then
    match childForFieldName node (lit "headline") with
    | Some headlineNode =>
        let startLine := row (startPosition headlineNode) in
        let endLine := (row (endPosition node) - 1)%Z in
        if (endLine >? startLine)%Z
        then Some {| startLine := startLine; endLine := endLine; kind := None |}
        else None
    | None => None
    end
  else if Js.eqs (type node) (lit "block") || Js.eqs (type node) (lit "drawer")
          || Js.eqs (type node) (lit "property_drawer") then
    if (row (endPosition node) >? row (startPosition node))%Z
    then Some {| startLine := row (startPosition node);
                 endLine := (row (endPosition node) - 1)%Z; kind := None |}
    else None
  else None.

(** [traverse], with the array [folds] of the closure passed along. *)
Fixpoint traverse (node : SyntaxNode) (folds : list SimpleFoldingRange)
  : list SimpleFoldingRange :=
  let folds := match pushed node with
               | Some f => folds ++ [f]
               | None => folds
               end in
  fold_left (fun folds child =>
               match child with
               | Some (_, c) => traverse c folds
               | None => folds
               end) (children node) folds.

Definition getTreeSitterFolds (tree : Tree) : list SimpleFoldingRange :=
  traverse (rootNode tree) [].

(** server/src/features/folding.ts; [FoldingRangeKind.Region] is the
    string [region]. *)
Definition provideFoldingRanges (tree : Tree) : list SimpleFoldingRange :=
  map (fun fr => {| startLine := startLine fr; endLine := endLine fr;
                    kind := Some (lit "region") |})
      (getTreeSitterFolds tree).

End Folding.

Module Symbols.
Import Syntax.

Record Position := { line : Z; character : Z }.
Record Range := { start : Position; end_ : Position }.

(** [SymbolKind.String] is the only kind the outline uses. *)
Inductive SymbolKind := KindString.

Inductive DocumentSymbol :=
  mkSymbol (name : str) (kind : SymbolKind) (range selectionRange : Range)
           (children : list DocumentSymbol).

Definition rangeOf (n : SyntaxNode) : Range :=
  {| start := {| line := row (startPosition n);
                 character := column (startPosition n) |};
     end_ := {| line := row (endPosition n);
                character := column (endPosition n) |} |}.

Definition titleOf (headlineNode : SyntaxNode) : str :=
  match childForFieldName headlineNode (lit "item") with
  | Some itemNode => text itemNode
  | None => lit "Untitled"
  end.

Fixpoint traverse (node : SyntaxNode) : option DocumentSymbol :=
  if Js.eqs (type node) (lit "section") then
    match childForFieldName node (lit "headline") with
    | None => None
    | Some headlineNode =>
        Some (mkSymbol (titleOf headlineNode) KindString
                (rangeOf node) (rangeOf headlineNode)
                (omap (fun child =>
                         match child with
                         | Some (_, c) =>
                             if Js.eqs (type c) (lit "section")
                             then traverse c else None
                         | None => None
                         end) (children node)))
    end
  else None.

Fixpoint findSections (node : SyntaxNode) (symbols : list DocumentSymbol)
  : list DocumentSymbol :=
  if Js.eqs (type node) (lit "section") then
    match traverse node with
    | Some symbol => symbols ++ [symbol]
    | None => symbols
    end
  else
    fold_left (fun symbols child =>
                 match child with
                 | Some (_, c) => findSections c symbols
                 | None => symbols
                 end) (children node) symbols.

Definition provideDocumentSymbols (tree : Tree) : list DocumentSymbol :=
  findSections (rootNode tree) [].

(** The entries of an outline at every level, a symbol before its
    children, each with its name and its two ranges. *)
Fixpoint entries (s : DocumentSymbol) : list (str * Range * Range) :=
  match s with
  | mkSymbol name _ range selectionRange children =>
      (name, range, selectionRange) :: flat_map entries children
  end.

(** The entry that a section node with a headline stands for. *)
Definition entryOf (n : SyntaxNode) : option (str * Range * Range) :=
  if Js.eqs (type n) (lit "section") then
    match childForFieldName n (lit "headline") with
    | Some headlineNode =>
        Some (titleOf headlineNode, rangeOf n, rangeOf headlineNode)
    | None => None
    end
  else None.

Definition isSection (n : SyntaxNode) : bool :=
  Js.eqs (type n) (lit "section").

(** No node of the subtree is a section. *)
Definition sectionFree (n : SyntaxNode) : bool :=
  forallb (fun m => negb (isSection m)) (preorder n).

(** The shape in which a grammar of headlines nests the sections: a section
    has a headline, the sections below it are its children, and its other
    children hold no section. *)
Fixpoint nested (n : SyntaxNode) : bool :=
  (if isSection n
   then bool_decide (is_Some (childForFieldName n (lit "headline")))
   else true)
  && forallb (fun child =>
                match child with
                | Some (_, c) =>
                    if isSection n && negb (isSection c)
                    then sectionFree c else nested c
                | None => true
                end) (children n).

End Symbols.

(** A document of one headline with a sub-headline, as the grammar of
    Org nests it. *)
Definition outlineSample : Syntax.Tree :=
  (let pt r c := {| Syntax.row := r; Syntax.column := c |} in
  let leaf ty tx r c1 c2 := Syntax.mkNode ty tx (pt r c1) (pt r c2) [] in
  let headline tx r stars :=
    Syntax.mkNode (lit "headline") tx (pt r 0) (pt (r + 1) 0)
      [Some (Some (lit "stars"), leaf (lit "stars") stars r 0 1);
       Some (Some (lit "item"), leaf (lit "item") tx r 2 5)] in
  {| Syntax.rootNode :=
       Syntax.mkNode (lit "document") [] (pt 0 0) (pt 4 0)
         [Some (None,
            Syntax.mkNode (lit "section") [] (pt 0 0) (pt 4 0)
              [Some (Some (lit "headline"), headline (lit "One") 0 (lit "*"));
               Some (Some (lit "body"), leaf (lit "body") (lit "text") 1 0 4);
               None;
               Some (Some (lit "subsection"),
                  Syntax.mkNode (lit "section") [] (pt 2 0) (pt 4 0)
                    [Some (Some (lit "headline"),
                           headline (lit "Two") 2 (lit "**"));
                     Some (Some (lit "body"),
                           leaf (lit "body") (lit "more") 3 0 4)])])] |})%Z.

(** * Fixture content under a test headline

    [transformSrcContent] (scripts/build-inspections.ts) moves the
    headlines of a fixture below the headline of its test.  The parent
    level is the level of a headline plus one, a natural number. *)

(** [line.match(/^(\*+) /)]: the number of the stars.  The stars are taken
    greedily, and fewer stars leave a star where the space has to be. *)
Definition headlineMatch (line : str) : option nat :=
  let (stars, rest) := Js.span (Js.eqc "*") line in
  match stars, rest with
  | _ :: _, c :: _ => if Js.eqc c " " then Some (length stars) else None
  | _, _ => None
  end.

Definition transformLine (parentLevel : nat) (line : str) : str :=
  match headlineMatch line with
  | Some level =>
      let newLevel := parentLevel + level in
      repeat "*"%char newLevel ++ drop level line
  | None => line
  end.

Definition transformSrcContent (content : str) (parentLevel : nat) : str :=
  Js.join ["010"%char] (map (transformLine parentLevel)
                          (Js.split "010" content)).

(** ** Reference definitions for the further properties *)

(** The folding ranges written on one line. *)
Definition rangesOf (line : str) : list (Z * Z) := foldingLoop 0 line [].

(** The names that the name directives of a file give, in file order. *)
Definition namesOf (lines : list str) : list str :=
  map testNameOf (List.filter isNameDirective lines).
(** * Properties *)

(** ** Strings *)

Lemma eqc_true (a b : ascii) : Js.eqc a b = true <-> a = b.
Proof. unfold Js.eqc. apply Ascii.eqb_eq. Qed.

Lemma eqc_false (a b : ascii) : Js.eqc a b = false <-> a <> b.
Proof. unfold Js.eqc. apply Ascii.eqb_neq. Qed.

Lemma eqs_true (a b : str) : Js.eqs a b = true <-> a = b.
Proof.
  revert b. induction a as [|x a IH]; intros [|y b]; simpl; try (split; [done | discriminate]).
  - done.
  - rewrite andb_true_iff, eqc_true, IH. split; [intros [-> ->]; done | intros [= -> ->]; done].
Qed.

Lemma startsWith_true (p s : str) :
  Js.startsWith p s = true <-> exists r, s = p ++ r.
Proof.
  revert s. induction p as [|x p IH]; intros s; simpl.
  - split; [eauto | done].
  - destruct s as [|y s].
    + split; [done | intros [r Hr]; discriminate].
    + rewrite andb_true_iff, eqc_true, IH. split.
      * intros [-> [r ->]]. eauto.
      * intros [r [= -> ->]]. eauto.
Qed.

Lemma startsWith_app (p r : str) : Js.startsWith p (p ++ r) = true.
Proof. apply startsWith_true. eauto. Qed.

Lemma startsWith_cons (x : ascii) (p : str) (y : ascii) (s : str) :
  Js.startsWith (x :: p) (y :: s) = Js.eqc x y && Js.startsWith p s.
Proof. reflexivity. Qed.

Lemma span_app (f : ascii -> bool) (s : str) :
  fst (Js.span f s) ++ snd (Js.span f s) = s.
Proof.
  induction s as [|c s IH]; simpl; [done|].
  destruct (f c); [|done]. destruct (Js.span f s); simpl in *. by rewrite IH.
Qed.

Lemma span_all (f : ascii -> bool) (s : str) :
  Forall (fun c => f c = true) (fst (Js.span f s)).
Proof.
  induction s as [|c s IH]; simpl; [constructor|].
  destruct (f c) eqn:E; [|constructor].
  destruct (Js.span f s); simpl in *. by constructor.
Qed.

Lemma span_stop (f : ascii -> bool) (s : str) (c : ascii) (t : str) :
  snd (Js.span f s) = c :: t -> f c = false.
Proof.
  induction s as [|x s IH]; simpl; [done|].
  destruct (f x) eqn:E.
  - destruct (Js.span f s); simpl in *. done.
  - simpl. by intros [= -> ->].
Qed.

Lemma span_cons_false (f : ascii -> bool) (c : ascii) (t : str) :
  f c = false -> Js.span f (c :: t) = ([], c :: t).
Proof. intros H. simpl. by rewrite H. Qed.

Lemma span_app_stop (f : ascii -> bool) (a : str) (c : ascii) (t : str) :
  Forall (fun x => f x = true) a -> f c = false ->
  Js.span f (a ++ c :: t) = (a, c :: t).
Proof.
  intros Ha Hc. induction Ha as [|x a Hx _ IH]; simpl.
  - by rewrite Hc.
  - by rewrite Hx, IH.
Qed.

Lemma span_all_nil (f : ascii -> bool) (a : str) :
  Forall (fun x => f x = true) a -> Js.span f a = (a, []).
Proof.
  induction 1 as [|x a Hx _ IH]; simpl; [done|]. by rewrite Hx, IH.
Qed.

Lemma indexOf_includes (p s : str) :
  Js.includes p s = true <-> exists i, Js.indexOf p s = Some i.
Proof.
  induction s as [|c s IH]; simpl.
  - rewrite orb_false_r. destruct (Js.startsWith p []); split; eauto; try done.
    by intros [i ?].
  - destruct (Js.startsWith p (c :: s)); simpl; [split; eauto|].
    rewrite IH. split; intros [i Hi].
    + rewrite Hi. simpl. eauto.
    + destruct (Js.indexOf p s); [eauto | done].
Qed.

(** *** Global replacement *)

Lemma replaceAll_skip (m : str -> option (str * nat)) (k : nat) (s : str) :
  Js.replaceAll m k s = Js.replaceAll m 0 (drop k s).
Proof.
  revert k. induction s as [|c s IH]; intros [|k]; simpl; auto.
Qed.

Lemma replaceAll_match (m : str -> option (str * nat)) (s r : str) (n : nat) :
  m s = Some (r, n) -> s <> [] -> 0 < n ->
  Js.replaceAll m 0 s = r ++ Js.replaceAll m 0 (drop n s).
Proof.
  intros Hm Hs Hn. destruct s as [|c t]; [done|]. simpl. rewrite Hm.
  rewrite replaceAll_skip. destruct n; [lia|]. done.
Qed.

Lemma replaceAll_pass (m : str -> option (str * nat)) (c : ascii) (t : str) :
  m (c :: t) = None ->
  Js.replaceAll m 0 (c :: t) = c :: Js.replaceAll m 0 t.
Proof. intros Hm. simpl. by rewrite Hm. Qed.

(** Text none of whose characters can start a match goes through
    unchanged. *)
Lemma replaceAll_inert (m : str -> option (str * nat)) (a s : str) :
  Forall (fun c => forall t, m (c :: t) = None) a ->
  Js.replaceAll m 0 (a ++ s) = a ++ Js.replaceAll m 0 s.
Proof.
  induction 1 as [|c a Hc _ IH]; [done|].
  rewrite <- app_comm_cons, replaceAll_pass by apply Hc. by rewrite IH.
Qed.

(** If every replacement starts with the character [x], a prefix of the
    output free of [x] is a prefix of the input. *)
Lemma replaceAll_prefix (m : str -> option (str * nat)) (x : ascii)
    (Q : str -> Prop) (w : str) :
  (forall c t, Q (c :: t) -> Q t) ->
  (forall s r n, Q s -> m s = Some (r, n) -> exists r', r = x :: r') ->
  Forall (fun c => c <> x) w ->
  forall s, Q s -> Js.startsWith w (Js.replaceAll m 0 s) = true ->
            Js.startsWith w s = true.
Proof.
  intros Htl Hrep Hw. induction Hw as [|a w Ha _ IH]; intros s Hq; [done|].
  destruct s as [|c t]; [done|]. simpl Js.replaceAll.
  destruct (m (c :: t)) as [[r n]|] eqn:Hm.
  - destruct (Hrep _ _ _ Hq Hm) as [r' ->]. simpl.
    rewrite andb_true_iff, eqc_true. intros [-> _]. done.
  - rewrite !startsWith_cons, !andb_true_iff. intros [Hc Hs].
    split; [done|]. eapply IH; eauto.
Qed.

(** ** Value normalizer *)

Lemma matchLit_some (pat rep s r : str) (n : nat) :
  Js.matchLit pat rep s = Some (r, n) ->
  r = rep /\ n = length pat /\ exists rest, s = pat ++ rest.
Proof.
  unfold Js.matchLit. destruct (Js.startsWith pat s) eqn:E; [|done].
  intros [= <- <-]. apply startsWith_true in E. done.
Qed.

Lemma matchLit_head (pat rep : str) (x c : ascii) (t : str) :
  c <> x -> Js.matchLit (x :: pat) rep (c :: t) = None.
Proof.
  intros Hc. unfold Js.matchLit. simpl.
  replace (Js.eqc x c) with false; [done|]. symmetry. by apply eqc_false.
Qed.

Lemma matchSp_some (s r : str) (n : nat) :
  matchSp s = Some (r, n) ->
  exists ds rest, s = lit "<sp:" ++ ds ++ ">" :: rest /\ ds <> []
    /\ Forall (fun c => Js.isDigit c = true) ds
    /\ r = repeat " " (Js.parseNat ds) /\ n = 4 + length ds + 1.
Proof.
  unfold matchSp. destruct (Js.startsWith (lit "<sp:") s) eqn:E; [|done].
  apply startsWith_true in E as [t ->].
  change (drop 4 (lit "<sp:" ++ t)) with t.
  pose proof (span_app Js.isDigit t) as Happ.
  pose proof (span_all Js.isDigit t) as Hall.
  destruct (Js.span Js.isDigit t) as [ds rest]. simpl in Happ, Hall.
  destruct ds as [|d ds]; [done|]. destruct rest as [|c rest]; [done|].
  destruct (Js.eqc c ">") eqn:Ec; [|done]. apply eqc_true in Ec as ->.
  intros [= <- <-]. exists (d :: ds), rest. by rewrite Happ.
Qed.

Lemma matchSp_head (c : ascii) (t : str) : c <> "<" -> matchSp (c :: t) = None.
Proof.
  intros Hc. unfold matchSp. simpl.
  replace (Js.eqc "<" c) with false; [done|]. symmetry. by apply eqc_false.
Qed.

Lemma drop_app_length' (a b : str) (n : nat) : n = length a -> drop n (a ++ b) = b.
Proof. intros ->. apply drop_app_length. Qed.

Lemma hasZeroSp_tail (c : ascii) (t : str) :
  hasZeroSp (c :: t) = false -> hasZeroSp t = false.
Proof.
  simpl. destruct (matchSp (c :: t)) as [[[|] ?]|]; done.
Qed.

Lemma hasZeroSp_drop (n : nat) (s : str) :
  hasZeroSp s = false -> hasZeroSp (drop n s) = false.
Proof.
  revert s. induction n as [|n IH]; intros [|c t] H; try done.
  simpl. apply IH. by eapply hasZeroSp_tail.
Qed.

Lemma hasZeroSp_match (s r : str) (n : nat) :
  hasZeroSp s = false -> matchSp s = Some (r, n) -> exists r', r = " " :: r'.
Proof.
  intros Hz Hm. destruct s as [|c t]; [done|].
  simpl in Hz. rewrite Hm in Hz. destruct r as [|x r]; [done|].
  apply matchSp_some in Hm as (ds & rest & _ & _ & _ & Hr & _).
  destruct (Js.parseNat ds); simplify_eq/=. eauto.
Qed.

(** The three passes of [processExpectedValue], one at a time. *)
Lemma pass_tab_prefix (w s : str) :
  Forall (fun c => c <> "009") w ->
  Js.startsWith w (Js.replaceAll matchTab 0 s) = true -> Js.startsWith w s = true.
Proof.
  intros Hw. apply (replaceAll_prefix matchTab "009" (fun _ => True) w); try done.
  intros s' r n _ Hm. apply matchLit_some in Hm as (-> & _). eauto.
Qed.

Lemma pass_sp_prefix (w s : str) :
  Forall (fun c => c <> " ") w -> hasZeroSp s = false ->
  Js.startsWith w (Js.replaceAll matchSp 0 s) = true -> Js.startsWith w s = true.
Proof.
  intros Hw. apply (replaceAll_prefix matchSp " " (fun s => hasZeroSp s = false) w);
    try done.
  - intros c t. apply hasZeroSp_tail.
  - intros s' r n. apply hasZeroSp_match.
Qed.

Lemma sp_over (a s : str) :
  Forall (fun c => c <> "<") a ->
  Js.replaceAll matchSp 0 (a ++ s) = a ++ Js.replaceAll matchSp 0 s.
Proof.
  intros Ha. apply replaceAll_inert. eapply Forall_impl; [apply Ha|].
  intros c Hc t. by apply matchSp_head.
Qed.

Lemma lit_over (pat rep a s : str) :
  Forall (fun c => c <> "<") a ->
  Js.replaceAll (Js.matchLit ("<" :: pat) rep) 0 (a ++ s)
  = a ++ Js.replaceAll (Js.matchLit ("<" :: pat) rep) 0 s.
Proof.
  intros Ha. apply replaceAll_inert. eapply Forall_impl; [apply Ha|].
  intros c Hc t. by apply matchLit_head.
Qed.

Lemma tab_over (a s : str) :
  Forall (fun c => c <> "<") a ->
  Js.replaceAll matchTab 0 (a ++ s) = a ++ Js.replaceAll matchTab 0 s.
Proof. apply (lit_over (lit "tab>")). Qed.

Lemma pipe_over (a s : str) :
  Forall (fun c => c <> "<") a ->
  Js.replaceAll matchPipe 0 (a ++ s) = a ++ Js.replaceAll matchPipe 0 s.
Proof. apply (lit_over (lit "pipe>")). Qed.

Lemma lit_hit (pat rep s : str) :
  pat <> [] ->
  Js.replaceAll (Js.matchLit pat rep) 0 (pat ++ s)
  = rep ++ Js.replaceAll (Js.matchLit pat rep) 0 s.
Proof.
  intros Hp.
  rewrite (replaceAll_match _ _ rep (length pat)).
  - by rewrite drop_app_length.
  - unfold Js.matchLit. by rewrite startsWith_app.
  - destruct pat; done.
  - destruct pat; [done | simpl; lia].
Qed.

Lemma tab_hit (s : str) :
  Js.replaceAll matchTab 0 ("<" :: "t" :: "a" :: "b" :: ">" :: s)
  = "009" :: Js.replaceAll matchTab 0 s.
Proof. exact (lit_hit (lit "<tab>") ["009"] s ltac:(done)). Qed.

Lemma pipe_hit (s : str) :
  Js.replaceAll matchPipe 0 ("<" :: "p" :: "i" :: "p" :: "e" :: ">" :: s)
  = "|" :: Js.replaceAll matchPipe 0 s.
Proof. exact (lit_hit (lit "<pipe>") ["|"] s ltac:(done)). Qed.

Lemma sp_over_tab (s : str) :
  Js.replaceAll matchSp 0 ("t" :: "a" :: "b" :: ">" :: s)
  = "t" :: "a" :: "b" :: ">" :: Js.replaceAll matchSp 0 s.
Proof. exact (sp_over (lit "tab>") s ltac:(chars_neq)). Qed.

Lemma sp_over_pipe (s : str) :
  Js.replaceAll matchSp 0 ("p" :: "i" :: "p" :: "e" :: ">" :: s)
  = "p" :: "i" :: "p" :: "e" :: ">" :: Js.replaceAll matchSp 0 s.
Proof. exact (sp_over (lit "pipe>") s ltac:(chars_neq)). Qed.

Lemma tab_over_pipe (s : str) :
  Js.replaceAll matchTab 0 ("p" :: "i" :: "p" :: "e" :: ">" :: s)
  = "p" :: "i" :: "p" :: "e" :: ">" :: Js.replaceAll matchTab 0 s.
Proof. exact (tab_over (lit "pipe>") s ltac:(chars_neq)). Qed.

Lemma pipe_over_tabchar (s : str) :
  Js.replaceAll matchPipe 0 ("009" :: s) = "009" :: Js.replaceAll matchPipe 0 s.
Proof. exact (pipe_over ["009"] s ltac:(chars_neq)). Qed.

Lemma spaces_not_lt (n : nat) : Forall (fun c : ascii => c <> "<") (repeat " " n).
Proof. induction n; simpl; constructor; done. Qed.

(** C8 (amended).  The value normalizer is a total function (a
    [Definition]) that applies three successive substitutions.  On every
    input that holds no [<sp:N>] token of count zero it computes the single
    left-to-right substitution [normalizeOnce]: every [<sp:N>] becomes N
    spaces, every [<tab>] a tab, every [<pipe>] a bar, nothing produced is
    scanned again, and anything else, such as [<sp:>], stays as it is. *)
Theorem normalizer_single_substitution (value : str) :
  hasZeroSp value = false ->
  processExpectedValue value = normalizeOnce value.
Proof.
  unfold processExpectedValue, normalizeOnce.
  remember (length value) as n eqn:Hn. revert value Hn.
  induction n as [n IH] using lt_wf_ind. intros s Hn Hz.
  destruct s as [|c t]; [done|].
  destruct (matchSp (c :: t)) as [[r k]|] eqn:Hsp.
  - destruct (matchSp_some _ _ _ Hsp) as (ds & rest & Hs & _ & _ & Hr & Hk).
    assert (Hdrop : drop k (c :: t) = rest).
    { replace (c :: t) with ((lit "<sp:" ++ ds ++ [">"]) ++ rest)
        by (by rewrite Hs, <- !app_assoc).
      apply drop_app_length'. rewrite !length_app. simpl. lia. }
    rewrite (replaceAll_match matchSp _ r k Hsp) by (done || lia).
    rewrite (replaceAll_match matchToken _ r k);
      [| unfold matchToken; by rewrite Hsp | done | lia].
    rewrite Hdrop, Hr.
    rewrite tab_over, pipe_over by apply spaces_not_lt. f_equal.
    apply (IH (length rest)); [|done|].
    + subst n. rewrite Hs, !length_app. simpl. lia.
    + rewrite <- Hdrop. by apply hasZeroSp_drop.
  - pose proof (hasZeroSp_tail _ _ Hz) as Hzt.
    destruct (matchTab (c :: t)) as [[r k]|] eqn:Htab.
    + apply matchLit_some in Htab as (-> & -> & rest & Hs).
      assert (Htok : matchToken (c :: t) = Some (["009"], 5)).
      { unfold matchToken. rewrite Hsp, Hs. unfold matchTab, Js.matchLit.
        by rewrite startsWith_app. }
      rewrite (replaceAll_match matchToken _ _ _ Htok) by (done || lia).
      rewrite (replaceAll_pass matchSp _ _ Hsp).
      injection Hs as -> ->.
      rewrite sp_over_tab, tab_hit, pipe_over_tabchar.
      change (drop 5 ("<" :: lit "tab>" ++ rest)) with rest. f_equal.
      apply (IH (length rest)); [subst n; simpl; lia | done |].
      by apply (hasZeroSp_drop 4) in Hzt.
    + destruct (matchPipe (c :: t)) as [[r k]|] eqn:Hpipe.
      * apply matchLit_some in Hpipe as (-> & -> & rest & Hs).
        assert (Htok : matchToken (c :: t) = Some (["|"], 6)).
        { unfold matchToken. rewrite Hsp, Htab, Hs. unfold matchPipe, Js.matchLit.
          by rewrite startsWith_app. }
        rewrite (replaceAll_match matchToken _ _ _ Htok) by (done || lia).
        rewrite (replaceAll_pass matchSp _ _ Hsp).
        injection Hs as -> ->.
        rewrite sp_over_pipe, (replaceAll_pass matchTab) by done.
        rewrite tab_over_pipe, pipe_hit.
        change (drop 6 ("<" :: lit "pipe>" ++ rest)) with rest. f_equal.
        apply (IH (length rest)); [subst n; simpl; lia | done |].
        by apply (hasZeroSp_drop 5) in Hzt.
      * assert (Htok : matchToken (c :: t) = None).
        { unfold matchToken. by rewrite Hsp, Htab, Hpipe. }
        rewrite (replaceAll_pass matchToken _ _ Htok).
        rewrite (replaceAll_pass matchSp _ _ Hsp).
        assert (Htab' : matchTab (c :: Js.replaceAll matchSp 0 t) = None).
        { unfold matchTab, Js.matchLit in *.
          destruct (Js.startsWith _ (c :: Js.replaceAll _ _ _)) eqn:E; [|done].
          change (lit "<tab>") with ("<" :: lit "tab>") in *.
          rewrite startsWith_cons in *. apply andb_true_iff in E as [Ec E].
          apply pass_sp_prefix in E; [|chars_neq|done]. by rewrite Ec, E in Htab. }
        rewrite (replaceAll_pass matchTab _ _ Htab').
        assert (Hpipe' : matchPipe
                  (c :: Js.replaceAll matchTab 0 (Js.replaceAll matchSp 0 t)) = None).
        { unfold matchPipe, Js.matchLit in *.
          destruct (Js.startsWith _ (c :: Js.replaceAll _ _ _)) eqn:E; [|done].
          change (lit "<pipe>") with ("<" :: lit "pipe>") in *.
          rewrite startsWith_cons in *. apply andb_true_iff in E as [Ec E].
          apply pass_tab_prefix in E; [|chars_neq].
          apply pass_sp_prefix in E; [|chars_neq|done]. by rewrite Ec, E in Hpipe. }
        rewrite (replaceAll_pass matchPipe _ _ Hpipe'). f_equal.
        apply (IH (length t)); [subst n; simpl; lia | done | done].
Qed.

(** The single substitution, equation by equation: text that holds no
    [<] is kept, each token is replaced where it stands, and the scan goes
    on behind it. *)
Lemma normalizeOnce_equations (a s ds : str) :
  (Forall (fun c => c <> "<") a -> normalizeOnce (a ++ s) = a ++ normalizeOnce s)
  /\ normalizeOnce (lit "<tab>" ++ s) = "009" :: normalizeOnce s
  /\ normalizeOnce (lit "<pipe>" ++ s) = "|" :: normalizeOnce s
  /\ (ds <> [] -> Forall (fun c => Js.isDigit c = true) ds ->
      normalizeOnce (lit "<sp:" ++ ds ++ ">" :: s)
      = repeat " " (Js.parseNat ds) ++ normalizeOnce s).
Proof.
  unfold normalizeOnce. split; [|split; [|split]].
  - intros Ha. apply replaceAll_inert. eapply Forall_impl; [apply Ha|].
    intros c Hc t. unfold matchToken.
    rewrite matchSp_head by done. unfold matchTab, matchPipe.
    change (lit "<tab>") with ("<" :: lit "tab>").
    change (lit "<pipe>") with ("<" :: lit "pipe>").
    by rewrite !matchLit_head.
  - by rewrite (replaceAll_match matchToken _ ["009"] 5)
      by (reflexivity || done || lia).
  - by rewrite (replaceAll_match matchToken _ ["|"] 6)
      by (reflexivity || done || lia).
  - intros Hne Hds.
    assert (Hm : matchSp (lit "<sp:" ++ ds ++ ">" :: s)
                 = Some (repeat " " (Js.parseNat ds), 4 + length ds + 1)).
    { unfold matchSp. rewrite startsWith_app.
      change (skipn 4 (lit "<sp:" ++ ds ++ ">" :: s)) with (ds ++ ">" :: s).
      rewrite span_app_stop by done. destruct ds; done. }
    rewrite (replaceAll_match matchToken _ _ _
               ltac:(unfold matchToken; rewrite Hm; reflexivity));
      [|done|lia].
    f_equal. f_equal.
    replace (lit "<sp:" ++ ds ++ ">" :: s) with ((lit "<sp:" ++ ds ++ [">"]) ++ s)
      by (by rewrite <- !app_assoc).
    apply drop_app_length'. rewrite !length_app. simpl. lia.
Qed.

Lemma normalizer_single_substitution_witness :
  processExpectedValue (lit "a<sp:3>b<tab>c<pipe>d<sp:>")
  = normalizeOnce (lit "a<sp:3>b<tab>c<pipe>d<sp:>").
Proof. apply normalizer_single_substitution. reflexivity. Defined.

(** C8 as stated fails: deleting a zero-count token joins the text around
    it, and the later passes replace a token that was not in the input. *)
Lemma normalizer_rescans_joined_text :
  Js.includes (lit "<tab>") (lit "<ta<sp:0>b>") = false
  /\ processExpectedValue (lit "<ta<sp:0>b>") = ["009"]
  /\ normalizeOnce (lit "<ta<sp:0>b>") = lit "<tab>"
  /\ processExpectedValue (lit "<ta<sp:0>b>") <> normalizeOnce (lit "<ta<sp:0>b>").
Proof. repeat split; try reflexivity. discriminate. Qed.

Example normalizer_example :
  processExpectedValue (lit "a<sp:3>b<tab>c<pipe>d<sp:>")
  = lit "a   b" ++ ["009"] ++ lit "c|d<sp:>".
Proof. reflexivity. Qed.

(** ** Block extent finder *)

Lemma scanBlock_spec (content after : list str) (j : nat) (acc : list str) :
  1 <= j ->
  Forall (fun l => isTerminator l = false) content ->
  (forall t rest, after = t :: rest -> isTerminator t = true) ->
  scanBlock (content ++ after) j acc (j - 1)
  = (acc ++ content, j - 1 + length content).
Proof.
  intros Hj Hc Ha. revert j acc Hj.
  induction Hc as [|l content Hl _ IH]; intros j acc Hj; simpl.
  - destruct after as [|t rest]; simpl.
    + by rewrite app_nil_r, Nat.add_0_r.
    + rewrite (Ha t rest eq_refl). by rewrite app_nil_r, Nat.add_0_r.
  - rewrite Hl. replace j with (S j - 1) at 2 by lia.
    rewrite IH by lia. rewrite <- app_assoc. simpl. f_equal. lia.
Qed.

Lemma isHeadline_star (line : str) :
  isHeadline line = true -> exists t, line = "*" :: t.
Proof.
  unfold isHeadline.
  pose proof (span_app (Js.eqc "*") line) as Happ.
  pose proof (span_all (Js.eqc "*") line) as Hall.
  destruct (Js.span (Js.eqc "*") line) as [stars rest]. simpl in *.
  destruct stars as [|s stars]; [done|]. intros _.
  apply Forall_cons in Hall as [Hs _]. apply eqc_true in Hs as <-.
  subst line. eauto.
Qed.

(** ** The loops run out of lines before they run out of fuel *)

Lemma bind_ok {A B : Type} (f : A -> result B) (a : A) : (Ok a ≫= f) = f a.
Proof. reflexivity. Qed.

Lemma skipBlankFrom_ge (rest : list str) (i : nat) : i <= skipBlankFrom rest i.
Proof.
  revert i. induction rest as [|l rest IH]; intros i; simpl; [lia|].
  destruct (Js.eqs (Js.trim l) []); [|lia]. specialize (IH (S i)). lia.
Qed.

Lemma skipBlank_ge (lines : list str) (i : nat) : i <= skipBlank lines i.
Proof. apply skipBlankFrom_ge. Qed.

Lemma scanBlock_ge (rest : list str) (j : nat) (acc : list str) :
  1 <= j -> j - 1 <= snd (scanBlock rest j acc (j - 1)).
Proof.
  revert j acc. induction rest as [|l rest IH]; intros j acc Hj; simpl; [lia|].
  destruct (isTerminator l); simpl; [lia|].
  specialize (IH (S j) (acc ++ [l])). replace (S j - 1) with j in IH by lia.
  lia.
Qed.

Lemma blockExtent_ge (lines : list str) (cur : nat) :
  cur <= snd (blockExtent lines cur).
Proof.
  unfold blockExtent. pose proof (scanBlock_ge (drop (cur + 1) lines) (cur + 1) []).
  replace (cur + 1 - 1) with cur in H by lia. lia.
Qed.

Lemma decodeBlock_fuel (l : str) (content : list str) :
  decodeBlock l content <> OutOfFuel.
Proof.
  unfold decodeBlock.
  destruct (isType _ "regex").
  { destruct (parseExpectedArgs l !! lit "name") as [[|c r]|]; done. }
  destruct (isType _ "scope").
  { unfold decodeScope. destruct (fold_left _ _ _) as [a b].
    destruct (_ && _); done. }
  destruct (isType _ "folding"); [done|].
  destruct (isType _ "symbols"); done.
Qed.

Lemma expStep_progress (lines : list str) (cur : nat) (l : str)
    (all : list Expectation) (next : nat) (all' : list Expectation) :
  expStep lines cur l all = Ok (next, all') -> cur < next.
Proof.
  unfold expStep. pose proof (blockExtent_ge lines cur) as Hge.
  destruct (blockExtent lines cur) as [content e]. simpl in Hge.
  destruct (decodeBlock l content); simpl; [|done..].
  intros [= <- <-]. pose proof (skipBlank_ge lines (e + 1)). lia.
Qed.

Lemma expLoop_fuel (lines : list str) (f1 f2 cur : nat) (all : list Expectation) :
  length lines - cur < f1 -> length lines - cur < f2 ->
  expLoop f1 lines cur all = expLoop f2 lines cur all.
Proof.
  revert f2 cur all. induction f1 as [|f1 IH]; intros [|f2] cur all H1 H2; try lia.
  simpl. destruct (lines !! cur) as [l|] eqn:Hl; [|done].
  destruct (isExpectedDirective l); [|done].
  destruct (expStep lines cur l all) as [[next all']| |] eqn:Hs; [|done..].
  rewrite !bind_ok. apply expStep_progress in Hs.
  apply lookup_lt_Some in Hl. apply IH; lia.
Qed.

Lemma expLoop_total (lines : list str) (fuel cur : nat) (all : list Expectation) :
  length lines - cur < fuel -> expLoop fuel lines cur all <> OutOfFuel.
Proof.
  revert cur all. induction fuel as [|fuel IH]; intros cur all Hf; [lia|].
  simpl. destruct (lines !! cur) as [l|] eqn:Hl; [|done].
  destruct (isExpectedDirective l); [|done].
  unfold expStep at 1. destruct (blockExtent lines cur) as [content e] eqn:Hb.
  destruct (decodeBlock l content) as [pushed| |] eqn:Hd; [|done|].
  - rewrite !bind_ok. apply IH.
    pose proof (blockExtent_ge lines cur) as Hge. rewrite Hb in Hge. simpl in Hge.
    pose proof (skipBlank_ge lines (e + 1)). apply lookup_lt_Some in Hl. lia.
  - by apply decodeBlock_fuel in Hd.
Qed.

Lemma expLoop_end (lines : list str) (fuel cur : nat) (all exps : list Expectation)
    (e : Z) :
  expLoop fuel lines cur all = Ok (exps, e) ->
  (Z.of_nat cur - 1 <= e)%Z
  /\ (forall l, lines !! cur = Some l -> isExpectedDirective l = true ->
                (Z.of_nat cur <= e)%Z).
Proof.
  revert cur all. induction fuel as [|fuel IH]; intros cur all; [done|].
  simpl. destruct (lines !! cur) as [l|] eqn:Hl.
  - destruct (isExpectedDirective l) eqn:Hdir.
    + destruct (expStep lines cur l all) as [[next all']| |] eqn:Hs; [|done..].
      rewrite bind_ok. intros Hloop. apply IH in Hloop as [Hle _].
      apply expStep_progress in Hs. split; [lia|]. intros; lia.
    + intros [= <- <-]. split; [lia|]. intros l' [= <-]. congruence.
  - intros [= <- <-]. split; [lia|]. done.
Qed.

Lemma parseExpectedBlock_total (lines : list str) (start : nat) :
  parseExpectedBlock lines start <> OutOfFuel.
Proof. apply expLoop_total. lia. Qed.

Lemma findEndFrom_ge (rest : list str) (j e : nat) :
  findEndFrom rest j = Some e -> j <= e.
Proof.
  revert j. induction rest as [|l rest IH]; intros j; simpl; [done|].
  destruct (isEndFixture l); [intros [= <-]; lia|].
  intros H. apply IH in H. lia.
Qed.

Lemma scanStep_progress (lines : list str) (i : nat) (line : str)
    (tests : list FixtureTestCase) (next : nat) (tests' : list FixtureTestCase) :
  scanStep lines i line tests = Ok (next, tests') -> i < next.
Proof.
  unfold scanStep.
  destruct (isNameDirective line); simpl; [|intros [= <- <-]; lia].
  destruct (lines !! (i + 1)) as [opening|]; [|intros [= <- <-]; lia].
  destruct (isBeginFixture opening); simpl; [|intros [= <- <-]; lia].
  destruct (findEnd lines (i + 1 + 1)) as [e|] eqn:He; [|intros [= <- <-]; lia].
  apply findEndFrom_ge in He.
  pose proof (skipBlank_ge lines (e + 1)) as Hla.
  destruct (lines !! skipBlank lines (e + 1)) as [la|] eqn:Hl;
    [|intros [= <- <-]; lia].
  destruct (isExpectedDirective la) eqn:Hdir; [|intros [= <- <-]; lia].
  destruct (parseExpectedBlock lines _) as [[exps endIndex]| |] eqn:Hp; [|done..].
  rewrite bind_ok. intros [= <- <-].
  apply expLoop_end in Hp as [_ Hp]. specialize (Hp la Hl Hdir). lia.
Qed.

Lemma scanStep_fuel (lines : list str) (i : nat) (line : str)
    (tests : list FixtureTestCase) :
  scanStep lines i line tests <> OutOfFuel.
Proof.
  unfold scanStep.
  destruct (isNameDirective line); simpl; [|done].
  destruct (lines !! (i + 1)) as [opening|]; [|done].
  destruct (isBeginFixture opening); simpl; [|done].
  destruct (findEnd lines (i + 1 + 1)) as [e|]; [|done].
  destruct (lines !! skipBlank lines (e + 1)) as [la|]; [|done].
  destruct (isExpectedDirective la); [|done].
  pose proof (parseExpectedBlock_total lines (skipBlank lines (e + 1))).
  destruct (parseExpectedBlock lines _) as [[exps endIndex]| |]; done.
Qed.

Lemma scanLoop_fuel (lines : list str) (f1 f2 i : nat) (tests : list FixtureTestCase) :
  length lines - i < f1 -> length lines - i < f2 ->
  scanLoop f1 lines i tests = scanLoop f2 lines i tests.
Proof.
  revert f2 i tests. induction f1 as [|f1 IH]; intros [|f2] i tests H1 H2; try lia.
  simpl. destruct (lines !! i) as [l|] eqn:Hl; [|done].
  destruct (scanStep lines i l tests) as [[next tests']| |] eqn:Hs; [|done..].
  rewrite !bind_ok. apply scanStep_progress in Hs.
  apply lookup_lt_Some in Hl. apply IH; lia.
Qed.

Lemma scanLoop_total (lines : list str) (fuel i : nat) (tests : list FixtureTestCase) :
  length lines - i < fuel -> scanLoop fuel lines i tests <> OutOfFuel.
Proof.
  revert i tests. induction fuel as [|fuel IH]; intros i tests Hf; [lia|].
  simpl. destruct (lines !! i) as [l|] eqn:Hl; [|done].
  destruct (scanStep lines i l tests) as [[next tests']| |] eqn:Hs.
  - rewrite bind_ok. apply scanStep_progress in Hs.
    apply lookup_lt_Some in Hl. apply IH. lia.
  - done.
  - by apply scanStep_fuel in Hs.
Qed.

(** The compiler always returns: with test cases or with a thrown error. *)
Lemma parseFixtureFile_total (content : str) :
  parseFixtureFile content <> OutOfFuel.
Proof. apply scanLoop_total. lia. Qed.

(** What the loops compute from a state they reach is what they compute
    from the start. *)
Lemma scan_reaches (lines : list str) (i : nat) (tests : list FixtureTestCase) :
  ScanReaches lines i tests ->
  forall fuel, length lines - i < fuel ->
    scanLoop (S (length lines)) lines 0 [] = scanLoop fuel lines i tests.
Proof.
  induction 1 as [|i line tests i' tests' _ IH Hl Hs]; intros fuel Hf.
  - apply scanLoop_fuel; lia.
  - rewrite (IH (S (fuel + length lines))) by lia. simpl.
    rewrite Hl, Hs, bind_ok. apply scanLoop_fuel; lia.
Qed.

Lemma exp_reaches (lines : list str) (start cur : nat) (all : list Expectation) :
  ExpReaches lines start cur all ->
  forall fuel, length lines - cur < fuel ->
    parseExpectedBlock lines start = expLoop fuel lines cur all.
Proof.
  unfold parseExpectedBlock.
  induction 1 as [|cur line all cur' all' _ IH Hl Hd Hs]; intros fuel Hf.
  - apply expLoop_fuel; lia.
  - rewrite (IH (S (fuel + length lines))) by lia. simpl.
    rewrite Hl, Hd, Hs, bind_ok. apply expLoop_fuel; lia.
Qed.

(** ** Expectation directives of an unknown type *)





(** ** Trimming and tab expansion *)

Lemma trimStart_spaces (a b : str) :
  Forall (fun c => Js.isSpace c = true) a ->
  Js.trimStart (a ++ b) = Js.trimStart b.
Proof.
  unfold Js.trimStart. induction 1 as [|c a Hc _ IH]; [done|].
  simpl. rewrite Hc. by destruct (Js.span Js.isSpace (a ++ b)).
Qed.

Lemma trimStart_stop (c : ascii) (t : str) :
  Js.isSpace c = false -> Js.trimStart (c :: t) = c :: t.
Proof. intros Hc. unfold Js.trimStart. by rewrite span_cons_false. Qed.

Lemma trimStart_snoc (a : str) (c : ascii) :
  Js.isSpace c = false -> Js.trimStart (a ++ [c]) = Js.trimStart a ++ [c].
Proof.
  intros Hc. unfold Js.trimStart. induction a as [|x a IH]; simpl.
  - by rewrite Hc.
  - destruct (Js.isSpace x); [|done].
    destruct (Js.span Js.isSpace (a ++ [c])), (Js.span Js.isSpace a). done.
Qed.

Lemma trimEnd_cons (c : ascii) (t : str) :
  Js.isSpace c = false -> Js.trimEnd (c :: t) = c :: Js.trimEnd t.
Proof.
  intros Hc. unfold Js.trimEnd. simpl.
  rewrite trimStart_snoc by done. by rewrite rev_app_distr.
Qed.

Lemma trimStart_decompose (s : str) :
  exists ws, Forall (fun c => Js.isSpace c = true) ws
    /\ s = ws ++ Js.trimStart s
    /\ (Js.trimStart s = [] \/
        exists c t, Js.trimStart s = c :: t /\ Js.isSpace c = false).
Proof.
  exists (fst (Js.span Js.isSpace s)). unfold Js.trimStart.
  split; [apply span_all|]. split; [by rewrite span_app|].
  destruct (snd (Js.span Js.isSpace s)) as [|c t] eqn:E; [by left|].
  right. exists c, t. split; [done|]. by eapply span_stop.
Qed.

Lemma trimEnd_decompose (s : str) :
  exists ws, Forall (fun c => Js.isSpace c = true) ws /\ s = Js.trimEnd s ++ ws.
Proof.
  destruct (trimStart_decompose (rev s)) as (ws & Hws & Hs & _).
  exists (rev ws). split; [by apply Forall_rev|].
  unfold Js.trimEnd. rewrite <- rev_app_distr, <- Hs. by rewrite rev_involutive.
Qed.

Lemma expandTabs_cons (c : ascii) (t : str) :
  expandTabs (c :: t)
  = (if Js.eqc "009" c then lit "    " else [c]) ++ expandTabs t.
Proof.
  unfold expandTabs. simpl. unfold Js.matchLit. simpl.
  destruct (Js.eqc "009" c); reflexivity.
Qed.

Lemma expandTabs_app (a b : str) :
  expandTabs (a ++ b) = expandTabs a ++ expandTabs b.
Proof.
  induction a as [|c a IH]; [done|].
  rewrite <- app_comm_cons, !expandTabs_cons, IH. by rewrite app_assoc.
Qed.

Lemma expandTabs_spaces (a : str) :
  Forall (fun c => Js.isSpace c = true) a ->
  Forall (fun c => Js.isSpace c = true) (expandTabs a).
Proof.
  induction 1 as [|c a Hc _ IH]; [constructor|].
  rewrite expandTabs_cons. apply Forall_app. split; [|done].
  destruct (Js.eqc "009" c); repeat constructor; done.
Qed.

Lemma expandTabs_stop (c : ascii) (t : str) :
  Js.isSpace c = false -> expandTabs (c :: t) = c :: expandTabs t.
Proof.
  intros Hc. rewrite expandTabs_cons.
  destruct (Js.eqc "009" c) eqn:E; [|done]. apply eqc_true in E as <-. done.
Qed.

(** Expanding tabs does not change whether a line is blank or a comment. *)
Lemma blank_expandTabs (l : str) :
  isBlankOrComment (expandTabs l) = isBlankOrComment l.
Proof.
  destruct (trimStart_decompose l) as (ws & Hws & Hl & Hrest).
  assert (Ht : Js.trimStart (expandTabs l)
               = Js.trimStart (expandTabs (Js.trimStart l))).
  { rewrite Hl at 1.
    by rewrite expandTabs_app, trimStart_spaces by by apply expandTabs_spaces. }
  unfold isBlankOrComment, Js.trim. rewrite Ht.
  destruct Hrest as [->|(c & t & -> & Hc)].
  - reflexivity.
  - rewrite expandTabs_stop, trimStart_stop, !trimEnd_cons by done. done.
Qed.

(** ** Scope blocks *)

Lemma scopeLoop_spec (content : list str) (acc : list Assertion)
    (b : Tree.builder Assertion) :
  fold_left scopeLoopBody content (acc, b)
  = (acc ++ map snd (omap decodeScopeLine content),
     fold_left (fun b it => Tree.insertNode (fst it) (snd it) b)
       (omap decodeScopeLine content) b).
Proof.
  revert acc b. induction content as [|l content IH]; intros acc b; simpl.
  - by rewrite app_nil_r.
  - unfold scopeLoopBody at 2. destruct (decodeScopeLine l) as [[d a]|]; simpl.
    + rewrite IH. by rewrite <- app_assoc.
    + apply IH.
Qed.

Lemma decodeScopeLine_blank (l : str) :
  isBlankOrComment l = true -> decodeScopeLine l = None.
Proof.
  intros H. unfold decodeScopeLine. by rewrite blank_expandTabs, H.
Qed.

Lemma omap_blank (content : list str) :
  Forall (fun l => isBlankOrComment l = true) content ->
  omap decodeScopeLine content = [].
Proof.
  induction 1 as [|l content Hl _ IH]; [done|].
  simpl. by rewrite decodeScopeLine_blank.
Qed.

Lemma meaningful_blank (content : list str) :
  Forall (fun l => isBlankOrComment l = true) content ->
  hasMeaningfulContent content = false.
Proof.
  induction 1 as [|l content Hl _ IH]; [done|].
  change (hasMeaningfulContent (l :: content)) with
    ((negb (Js.eqs (Js.trim l) []) && negb (Js.startsWith ["#"] (Js.trim l)))
     || hasMeaningfulContent content).
  rewrite IH, orb_false_r, <- negb_orb. unfold isBlankOrComment in Hl.
  by rewrite Hl.
Qed.

Lemma decodeScope_throws (content : list str) :
  hasMeaningfulContent content = true ->
  omap decodeScopeLine content = [] ->
  decodeScope content = Throw scopeError.
Proof.
  intros Hm He. unfold decodeScope. rewrite scopeLoop_spec, He, Hm. reflexivity.
Qed.

Lemma decodeScope_blank (content : list str) :
  Forall (fun l => isBlankOrComment l = true) content ->
  decodeScope content = Ok (ScopeExpectation [] []).
Proof.
  intros Hb. unfold decodeScope.
  rewrite scopeLoop_spec, omap_blank, meaningful_blank by done. reflexivity.
Qed.

Lemma exp_reaches_start (lines : list str) (start cur : nat)
    (all : list Expectation) (l : str) :
  ExpReaches lines start cur all ->
  lines !! cur = Some l -> isExpectedDirective l = true ->
  exists l0, lines !! start = Some l0 /\ isExpectedDirective l0 = true.
Proof.
  intros Hr. revert l. induction Hr as [|cur line all cur' all' _ IH Hl Hd _];
    intros l Hl' Hd'; eauto.
Qed.

Lemma decodeBlock_scope (expectedLine : str) (content : list str) :
  parseExpectedArgs expectedLine !! lit "type" = Some (lit "scope") ->
  decodeBlock expectedLine content = (decodeScope content ≫= fun e => Ok [e]).
Proof. intros Ht. unfold decodeBlock. rewrite Ht. reflexivity. Qed.

(** C5.  A scope block with a non-blank line that is no comment and with
    no assertion decoded makes the compiler throw, and the error ends the
    compilation of the file: no test case is returned.  A scope block of
    blank lines and comment lines only raises no error and gives a
    [ScopeExpectation] without assertions. *)
Theorem malformed_scope_block_aborts
    (content : str) (i : nat) (tests : list FixtureTestCase)
    (line opening : str) (e cur : nat) (all : list Expectation)
    (expectedLine : str) :
  let lines := Js.split "010" content in
  ScanReaches lines i tests ->
  lines !! i = Some line -> isNameDirective line = true ->
  lines !! (i + 1) = Some opening -> isBeginFixture opening = true ->
  findEnd lines (i + 2) = Some e ->
  ExpReaches lines (skipBlank lines (e + 1)) cur all ->
  lines !! cur = Some expectedLine -> isExpectedDirective expectedLine = true ->
  parseExpectedArgs expectedLine !! lit "type" = Some (lit "scope") ->
  let blockContentLines := fst (blockExtent lines cur) in
  (hasMeaningfulContent blockContentLines = true ->
   omap decodeScopeLine blockContentLines = [] ->
   parseFixtureFile content = Throw scopeError)
  /\ (Forall (fun l => isBlankOrComment l = true) blockContentLines ->
      expStep lines cur expectedLine all
      = Ok (skipBlank lines (snd (blockExtent lines cur) + 1),
            all ++ [ScopeExpectation [] []])).
Proof.
  intros lines Hscan Hi Hname Hopen Hbegin Hend Hexp Hcur Hdir Htype content'.
  split.
  - intros Hm Hz.
    assert (Hstep : expStep lines cur expectedLine all = Throw scopeError).
    { unfold expStep. subst content'.
      destruct (blockExtent lines cur) as [c be]. simpl in *.
      by rewrite decodeBlock_scope, decodeScope_throws. }
    destruct (exp_reaches_start _ _ _ _ _ Hexp Hcur Hdir) as (l0 & Hl0 & Hd0).
    unfold parseFixtureFile. fold lines.
    rewrite (scan_reaches lines i tests Hscan (S (length lines))) by lia.
    simpl. rewrite Hi. unfold scanStep.
    rewrite Hname, Hopen, Hbegin. simpl.
    replace (i + 1 + 1) with (i + 2) by lia. rewrite Hend, Hl0, Hd0.
    rewrite (exp_reaches lines _ cur all Hexp (S (length lines))) by lia.
    simpl. by rewrite Hcur, Hdir, Hstep.
  - intros Hb. unfold expStep. subst content'.
    destruct (blockExtent lines cur) as [c be]. simpl in *.
    by rewrite decodeBlock_scope, decodeScope_blank.
Qed.

Lemma malformed_scope_block_aborts_witness :
  parseFixtureFile
    (fileOf ["#+NAME: a"; "#+BEGIN_FIXTURE"; "x"; "#+END_FIXTURE";
             "#+EXPECTED: :type folding"; "[0-1]";
             "#+EXPECTED: :type scope"; "# note"; "junk"]%string)
  = Throw scopeError
  /\ expStep
       (Js.split "010"
          (fileOf ["#+NAME: a"; "#+BEGIN_FIXTURE"; "x"; "#+END_FIXTURE";
                   "#+EXPECTED: :type scope"; "# note"; ""]%string))
       4 (lit "#+EXPECTED: :type scope") []
     = Ok (7, [ScopeExpectation [] []]).
Proof.
  split.
  - refine (proj1 (malformed_scope_block_aborts _ 0 [] (lit "#+NAME: a")
                     (lit "#+BEGIN_FIXTURE") 3 6 [FoldingExpectation [(0, 1)%Z]]
                     (lit "#+EXPECTED: :type scope") _ _ _ _ _ _ _ _ _ _) _ _);
      try reflexivity.
    + constructor.
    + eapply exp_next; [apply exp_start | reflexivity..].
  - refine (proj2 (malformed_scope_block_aborts _ 0 [] (lit "#+NAME: a")
                     (lit "#+BEGIN_FIXTURE") 3 4 []
                     (lit "#+EXPECTED: :type scope") _ _ _ _ _ _ _ _ _ _) _);
      try reflexivity.
    + constructor.
    + constructor.
    + repeat constructor.
Defined.

(** ** Fixture containers *)

Lemma findEndFrom_none (rest : list str) (j : nat) :
  findEndFrom rest j = None <-> Forall (fun l => isEndFixture l = false) rest.
Proof.
  revert j. induction rest as [|l rest IH]; intros j; simpl.
  - split; [constructor | done].
  - destruct (isEndFixture l) eqn:E.
    + split; [done|]. intros H. apply Forall_cons in H as [H _]. congruence.
    + rewrite IH. split; [by constructor | by intros [_ H]%Forall_cons].
Qed.

Lemma findEnd_none_later (lines : list str) (a b : nat) :
  findEnd lines a = None -> a <= b -> findEnd lines b = None.
Proof.
  unfold findEnd. rewrite !findEndFrom_none. intros H Hab.
  replace b with (a + (b - a)) by lia. rewrite <- drop_drop. by apply Forall_drop.
Qed.

Lemma scanStep_unmatched (lines : list str) (a j : nat) (l : str)
    (tests : list FixtureTestCase) :
  findEnd lines a = None -> a <= j + 2 ->
  scanStep lines j l tests = Ok (S j, tests).
Proof.
  intros Hend Ha. unfold scanStep.
  destruct (isNameDirective l); simpl; [|done].
  destruct (lines !! (j + 1)) as [opening|]; [|done].
  destruct (isBeginFixture opening); simpl; [|done].
  by rewrite (findEnd_none_later lines a (j + 1 + 1)) by (done || lia).
Qed.

Lemma scanLoop_unmatched (lines : list str) (a : nat) (fuel j : nat)
    (tests : list FixtureTestCase) :
  findEnd lines a = None -> a <= j + 2 -> length lines - j < fuel ->
  scanLoop fuel lines j tests = Ok tests.
Proof.
  intros Hend. revert j. induction fuel as [|fuel IH]; intros j Ha Hf; [lia|].
  simpl. destruct (lines !! j) as [l|] eqn:Hl; [|done].
  rewrite (scanStep_unmatched lines a j l tests Hend Ha), bind_ok.
  apply lookup_lt_Some in Hl. apply IH; lia.
Qed.

(** C9.  A container whose [#+BEGIN_FIXTURE] is followed by no
    [#+END_FIXTURE] line makes the compiler neither throw nor emit a test
    case for it: the loop goes on at the next line with the test cases it
    had, and the compilation ends normally.  (With no [#+END_FIXTURE] line
    left in the file nothing after that container can be a complete
    container, so the test cases are those collected before it.) *)
Theorem unmatched_fixture_is_dropped
    (content : str) (i : nat) (tests : list FixtureTestCase)
    (line opening : str) :
  let lines := Js.split "010" content in
  ScanReaches lines i tests ->
  lines !! i = Some line -> isNameDirective line = true ->
  lines !! (i + 1) = Some opening -> isBeginFixture opening = true ->
  findEnd lines (i + 2) = None ->
  scanStep lines i line tests = Ok (i + 1, tests)
  /\ ScanReaches lines (i + 1) tests
  /\ parseFixtureFile content = Ok tests.
Proof.
  intros lines Hscan Hi Hname Hopen Hbegin Hend.
  assert (Hstep : scanStep lines i line tests = Ok (i + 1, tests)).
  { rewrite (scanStep_unmatched lines (i + 2) i line tests Hend) by lia.
    by rewrite Nat.add_1_r. }
  split; [done|]. split; [by eapply scan_next|].
  unfold parseFixtureFile. fold lines.
  rewrite (scan_reaches lines i tests Hscan (S (length lines))) by lia.
  apply (scanLoop_unmatched lines (i + 2)); [done | lia | lia].
Qed.

Lemma unmatched_fixture_is_dropped_witness :
  parseFixtureFile
    (fileOf ["#+NAME: a"; "#+BEGIN_FIXTURE"; "x"; "#+END_FIXTURE";
             "#+EXPECTED: :type folding"; "[0-1]";
             "#+NAME: b"; "#+BEGIN_FIXTURE"; "y"; "";
             "#+EXPECTED: :type folding"; "[2-3]"]%string)
  = Ok [{| tc_name := lit "a"; tc_input := lit "x";
           tc_expectations := [FoldingExpectation [(0, 1)%Z]] |}].
Proof.
  refine (proj2 (proj2 (unmatched_fixture_is_dropped _ 6 _ (lit "#+NAME: b")
                          (lit "#+BEGIN_FIXTURE") _ _ _ _ _ _)));
    try reflexivity.
  eapply scan_next; [apply scan_start | reflexivity | reflexivity].
Defined.

Lemma scanStep_extends (lines : list str) (i : nat) (line : str)
    (tests : list FixtureTestCase) (next : nat) (tests' : list FixtureTestCase) :
  scanStep lines i line tests = Ok (next, tests') ->
  exists more, tests' = tests ++ more.
Proof.
  unfold scanStep.
  assert (Hsame : forall n, Ok (n, tests) = Ok (next, tests') ->
                            exists more, tests' = tests ++ more).
  { intros n [= _ <-]. exists []. by rewrite app_nil_r. }
  destruct (isNameDirective line); simpl; [|apply Hsame].
  destruct (lines !! (i + 1)) as [opening|]; [|apply Hsame].
  destruct (isBeginFixture opening); simpl; [|apply Hsame].
  destruct (findEnd lines (i + 1 + 1)) as [e|]; [|apply Hsame].
  destruct (lines !! skipBlank lines (e + 1)) as [la|]; [|apply Hsame].
  destruct (isExpectedDirective la); [|apply Hsame].
  destruct (parseExpectedBlock lines _) as [[exps endIndex]| |]; [|done..].
  rewrite bind_ok. intros [= _ <-]. eauto.
Qed.

Lemma scanLoop_extends (lines : list str) (fuel i : nat)
    (tests out : list FixtureTestCase) :
  scanLoop fuel lines i tests = Ok out -> exists more, out = tests ++ more.
Proof.
  revert i tests. induction fuel as [|fuel IH]; intros i tests; [done|].
  simpl. destruct (lines !! i) as [l|].
  - destruct (scanStep lines i l tests) as [[next tests']| |] eqn:Hs; [|done..].
    rewrite bind_ok. intros Hloop. apply IH in Hloop as [m2 ->].
    apply scanStep_extends in Hs as [m1 ->]. exists (m1 ++ m2).
    by rewrite app_assoc.
  - intros [= <-]. exists []. by rewrite app_nil_r.
Qed.

(** C1 (amended).  A fixture container followed, after blank lines, by an
    [#+EXPECTED:] directive whose run decodes without error yields a test
    case with its name, its input and the decoded expectations, and that
    test case is in the compiler's output; a container without interior
    lines has the empty input.  A container that no [#+EXPECTED:]
    directive follows yields no test case: the scan goes on after the
    closing line with the test cases it had. *)
Theorem container_yields_test_case_iff_expected
    (content : str) (i : nat) (tests : list FixtureTestCase)
    (line opening : str) (e : nat) :
  let lines := Js.split "010" content in
  ScanReaches lines i tests ->
  lines !! i = Some line -> isNameDirective line = true ->
  lines !! (i + 1) = Some opening -> isBeginFixture opening = true ->
  findEnd lines (i + 2) = Some e ->
  let lookahead := skipBlank lines (e + 1) in
  let input := Js.join ["010"] (map stripComma (slice lines (i + 2) e)) in
  (e = i + 2 -> input = [])
  /\ ((forall la, lines !! lookahead = Some la ->
                  isExpectedDirective la = false) ->
      ScanReaches lines (e + 1) tests)
  /\ (forall la expectations endIndex,
        lines !! lookahead = Some la -> isExpectedDirective la = true ->
        parseExpectedBlock lines lookahead = Ok (expectations, endIndex) ->
        let tc := {| tc_name := testNameOf line; tc_input := input;
                     tc_expectations := expectations |} in
        ScanReaches lines (Z.to_nat (endIndex + 1)) (tests ++ [tc])
        /\ forall out, parseFixtureFile content = Ok out ->
                       exists more, out = tests ++ tc :: more).
Proof.
  intros lines Hscan Hi Hname Hopen Hbegin Hend lookahead input.
  assert (Hstep : scanStep lines i line tests =
    match lines !! lookahead with
    | Some la =>
        if isExpectedDirective la then
          '(expectations, endIndex) ← parseExpectedBlock lines lookahead;
          Ok (Z.to_nat (endIndex + 1),
              tests ++ [{| tc_name := testNameOf line; tc_input := input;
                           tc_expectations := expectations |}])
        else Ok (S e, tests)
    | None => Ok (S e, tests)
    end).
  { unfold scanStep. rewrite Hname, Hopen, Hbegin. simpl.
    replace (i + 1 + 1) with (i + 2) by lia. by rewrite Hend. }
  split; [|split].
  - intros ->. unfold input, slice. by rewrite Nat.sub_diag.
  - intros Hno. eapply scan_next; [exact Hscan | exact Hi |].
    rewrite Hstep, Nat.add_1_r. destruct (lines !! lookahead) as [la|]; [|done].
    by rewrite (Hno la).
  - intros la exps endIndex Hla Hdir Hparse tc.
    rewrite Hla, Hdir, Hparse, bind_ok in Hstep.
    assert (Hnext : ScanReaches lines (Z.to_nat (endIndex + 1)) (tests ++ [tc]))
      by (by eapply scan_next).
    split; [done|]. intros out Hout. unfold parseFixtureFile in Hout.
    fold lines in Hout.
    assert (Hfuel : exists fuel, scanLoop fuel lines (Z.to_nat (endIndex + 1))
                                   (tests ++ [tc]) = Ok out).
    { exists (S (length lines)). by rewrite <- (scan_reaches _ _ _ Hnext) by lia. }
    destruct Hfuel as [fuel Hloop].
    apply scanLoop_extends in Hloop as [more ->]. exists more.
    by rewrite <- app_assoc.
Qed.

Lemma container_yields_test_case_iff_expected_witness :
  ScanReaches
    (Js.split "010"
       (fileOf ["#+NAME: t"; "#+BEGIN_FIXTURE"; "#+END_FIXTURE"; "";
                "plain text"]%string)) 3 []
  /\ ScanReaches
       (Js.split "010"
          (fileOf ["#+NAME: t"; "#+BEGIN_FIXTURE"; "#+END_FIXTURE"; "";
                   "#+EXPECTED: :type folding"; "[1-2]"]%string))
       6 [{| tc_name := lit "t"; tc_input := [];
             tc_expectations := [FoldingExpectation [(1, 2)%Z]] |}].
Proof.
  split.
  - refine (proj1 (proj2 (container_yields_test_case_iff_expected
              (fileOf ["#+NAME: t"; "#+BEGIN_FIXTURE"; "#+END_FIXTURE"; "";
                       "plain text"]%string)
              0 [] (lit "#+NAME: t") (lit "#+BEGIN_FIXTURE") 2 _ _ _ _ _ _)) _);
      try reflexivity.
    + constructor.
    + intros la Hla. vm_compute in Hla. by injection Hla as <-.
  - refine (proj1 (proj2 (proj2 (container_yields_test_case_iff_expected
              (fileOf ["#+NAME: t"; "#+BEGIN_FIXTURE"; "#+END_FIXTURE"; "";
                       "#+EXPECTED: :type folding"; "[1-2]"]%string)
              0 [] (lit "#+NAME: t") (lit "#+BEGIN_FIXTURE") 2 _ _ _ _ _ _))
              (lit "#+EXPECTED: :type folding")
              [FoldingExpectation [(1, 2)%Z]] 5%Z _ _ _));
      try reflexivity.
    constructor.
Defined.

(** C1 as stated fails: a container that no [#+EXPECTED:] directive
    follows is not in the output. *)
Lemma container_without_expectations_yields_nothing :
  parseFixtureFile (fileOf ["#+NAME: t"; "#+BEGIN_FIXTURE"; "#+END_FIXTURE"]%string)
  = Ok [].
Proof. reflexivity. Qed.

(** ** Case of the directive keywords *)

(** C4.  The compiler's scan accepts the directive keywords in any case,
    but the block extent finder tests [#+NAME:], [#+BEGIN_FIXTURE] and
    [#+EXPECTED:] in upper case only: the same file compiles to two test
    cases when its second container is spelled in upper case and to one
    test case, which swallows the second container, when it is spelled in
    lower case. *)
Theorem lower_case_directive_does_not_end_block :
  isNameDirective (lit "#+name: b") = true
  /\ isTerminator (lit "#+name: b") = false
  /\ isTerminator (lit "#+NAME: b") = true
  /\ parseFixtureFile
       (fileOf ["#+NAME: a"; "#+BEGIN_FIXTURE"; "x"; "#+END_FIXTURE";
                "#+EXPECTED: :type folding"; "[0-1]";
                "#+NAME: b"; "#+BEGIN_FIXTURE"; "y"; "#+END_FIXTURE";
                "#+EXPECTED: :type folding"; "[2-3]"]%string)
     = Ok [{| tc_name := lit "a"; tc_input := lit "x";
              tc_expectations := [FoldingExpectation [(0, 1)%Z]] |};
           {| tc_name := lit "b"; tc_input := lit "y";
              tc_expectations := [FoldingExpectation [(2, 3)%Z]] |}]
  /\ parseFixtureFile
       (fileOf ["#+NAME: a"; "#+BEGIN_FIXTURE"; "x"; "#+END_FIXTURE";
                "#+EXPECTED: :type folding"; "[0-1]";
                "#+name: b"; "#+begin_fixture"; "y"; "#+end_fixture";
                "#+expected: :type folding"; "[2-3]"]%string)
     = Ok [{| tc_name := lit "a"; tc_input := lit "x";
              tc_expectations := [FoldingExpectation [(0, 1); (2, 3)]%Z] |}].
Proof. repeat split; vm_compute; reflexivity. Qed.

(** ** Regex capture tables *)

Lemma regexScan_spec (content : list str) (sm : bool) (rows : list str) :
  fold_left regexScanLine content (sm, rows)
  = (sm && negb (existsb isNoMatch content),
     rows ++ map Js.trim
               (List.filter (fun l => negb (isNoMatch l) && isTableRow l) content)).
Proof.
  revert sm rows. induction content as [|l content IH]; intros sm rows.
  - simpl. by rewrite andb_true_r, app_nil_r.
  - change (fold_left regexScanLine (l :: content) (sm, rows))
      with (fold_left regexScanLine content (regexScanLine (sm, rows) l)).
    unfold regexScanLine at 2. fold (isNoMatch l). fold (isTableRow l). simpl.
    destruct (isNoMatch l); simpl; [by rewrite IH, andb_false_r|].
    destruct (isTableRow l); simpl; rewrite IH; [by rewrite <- app_assoc|done].
Qed.

Lemma noMatch_not_row (l : str) : isNoMatch l = true -> isTableRow l = false.
Proof.
  unfold isNoMatch, isTableRow. destruct (Js.trim l) as [|c t]; [done|].
  simpl. rewrite andb_true_r. destruct (Js.eqc "|" c) eqn:E; [|done].
  apply eqc_true in E as <-. done.
Qed.

Lemma filter_rows (content : list str) :
  List.filter (fun l => negb (isNoMatch l) && isTableRow l) content
  = List.filter isTableRow content.
Proof.
  induction content as [|l content IH]; [done|]. simpl. rewrite IH.
  destruct (isNoMatch l) eqn:E; [|done]. by rewrite (noMatch_not_row l E).
Qed.

Lemma includes_head (x : ascii) (p s : str) :
  Js.includes (x :: p) s = true -> In x s.
Proof.
  induction s as [|c s IH]; [done|].
  simpl. rewrite orb_true_iff, andb_true_iff, eqc_true.
  intros [[-> _]|H]; [by left | right; by apply IH].
Qed.

Lemma decimal_digits (s : str) :
  isDecimalInteger s = true ->
  exists d t, s = d :: t /\ Forall (fun c => Js.isDigit c = true) (d :: t).
Proof.
  destruct s as [|d t]; [done|]. intros H. exists d, t. split; [done|].
  apply Forall_forall. intros c Hc. unfold isDecimalInteger in H.
  rewrite forallb_forall in H. apply H. by apply list_elem_of_In.
Qed.

Lemma parseInt_decimal (s : str) :
  isDecimalInteger s = true -> Js.parseInt s = Some (Js.parseZ s).
Proof.
  intros H. destruct (decimal_digits s H) as (d & t & -> & Hall).
  pose proof Hall as Hd. apply Forall_cons in Hd as [Hd _].
  unfold Js.parseInt.
  assert (Hsp : Js.isSpace d = false).
  { clear -Hd. unfold Js.isDigit, Js.isSpace in *.
    apply not_true_iff_false.
    rewrite ?orb_true_iff, ?andb_true_iff, ?Nat.leb_le, ?Nat.eqb_eq in *. lia. }
  rewrite trimStart_stop by done.
  assert (Hm : Js.eqc d "-" = false).
  { apply eqc_false. intros ->. by vm_compute in Hd. }
  assert (Hp : Js.eqc d "+" = false).
  { apply eqc_false. intros ->. by vm_compute in Hd. }
  rewrite Hm, Hp, span_all_nil by done. done.
Qed.

Lemma decimal_not_header (n : str) :
  isDecimalInteger n = true ->
  Js.eqs n (lit "Group #") = false /\ Js.includes (lit "---") n = false.
Proof.
  intros H. destruct (decimal_digits n H) as (d & t & -> & Hall). split.
  - apply Forall_cons in Hall as [Hd _]. simpl.
    destruct (Js.eqc d "G") eqn:E; [|done].
    apply eqc_true in E as ->. by vm_compute in Hd.
  - destruct (Js.includes (lit "---") (d :: t)) eqn:E; [|done].
    apply includes_head in E. rewrite Forall_forall in Hall.
    apply list_elem_of_In, Hall in E. by vm_compute in E.
Qed.

Example regex_scenario_A :
  decodeRegex (lit "headlineLevel1Regex")
    (map lit ["| Group # | Value |"; "|---|---|"; "| 1 | * |"; "| 5 | Hello |"]%string)
  = RegexExpectation (lit "headlineLevel1Regex") true
      (Some [{| index := Some 1%Z; value := lit "*" |};
             {| index := Some 5%Z; value := lit "Hello" |}]).
Proof. reflexivity. Qed.

(** C2 as stated fails: a row whose second cell is other text than a
    decimal integer still contributes an entry, with index [NaN]. *)
Lemma non_numeric_row_yields_capture :
  decodeRegex (lit "r") [lit "| abc | x |"]
  = RegexExpectation (lit "r") true
      (Some [{| index := None; value := lit "x" |}])
  /\ specCaptures [lit "| abc | x |"] = [].
Proof. split; reflexivity. Qed.

(** ** Scope assertion lines *)

Lemma trimStart_idem (s : str) : Js.trimStart (Js.trimStart s) = Js.trimStart s.
Proof.
  destruct (trimStart_decompose s) as (_ & _ & _ & [->|(c & t & -> & Hc)]).
  - done.
  - by apply trimStart_stop.
Qed.

Lemma trimEnd_idem (s : str) : Js.trimEnd (Js.trimEnd s) = Js.trimEnd s.
Proof. unfold Js.trimEnd. by rewrite rev_involutive, trimStart_idem. Qed.

Lemma trim_idem (s : str) : Js.trim (Js.trim s) = Js.trim s.
Proof.
  unfold Js.trim.
  destruct (trimStart_decompose s) as (_ & _ & _ & [->|(c & t & -> & Hc)]).
  - done.
  - rewrite trimEnd_cons, trimStart_stop, trimEnd_cons by done.
    by rewrite trimEnd_idem.
Qed.

Lemma sortScope_spec (tokens mc mnc : list str) :
  fold_left sortScope tokens (mc, mnc)
  = (mc ++ List.filter (fun s => negb (negated s)) tokens,
     mnc ++ map (drop 1) (List.filter negated tokens)).
Proof.
  revert mc mnc. induction tokens as [|t tokens IH]; intros mc mnc.
  - simpl. by rewrite !app_nil_r.
  - change (fold_left sortScope (t :: tokens) (mc, mnc))
      with (fold_left sortScope tokens (sortScope (mc, mnc) t)).
    unfold sortScope at 2. fold (negated t). simpl.
    destruct (negated t); simpl; rewrite IH; by rewrite <- app_assoc.
Qed.

Lemma sorted_nil (tokens : list str) :
  List.filter (fun s => negb (negated s)) tokens = [] ->
  map (drop 1) (List.filter negated tokens) = [] -> tokens = [].
Proof.
  destruct tokens as [|t tokens]; [done|]. simpl. by destruct (negated t).
Qed.

(** C7 (amended).  For every content line of a scope block that is
    neither blank nor a comment and that holds [=>] once its bullet is
    stripped (tabs being expanded first): the text left of the first [=>],
    trimmed, unquoted and normalized, is the assertion's text; the text
    right of it is interpolated and split at commas, and every token that
    is not empty once trimmed goes to [mustNotContain] without its [!] when
    it starts with [!], to [mustContain] otherwise, in order; a line
    without such a token yields no assertion.  The line
    [foo => scope.a, !scope.b] decodes to the text [foo], [scope.a] to be
    contained and [scope.b] not. *)
Theorem scope_line_decodes (raw : str) (idx : nat) :
  let normalized := expandTabs raw in
  let line := stripBullet normalized in
  isBlankOrComment normalized = false ->
  Js.indexOf (lit "=>") line = Some idx ->
  let tokens := rawScopes (interpolate (Js.trim (drop (idx + 2) line))) in
  decodeScopeLine raw
  = match tokens with
    | [] => None
    | _ =>
        Some (indentDepth normalized,
              {| text := processExpectedValue (unquote (Js.trim (take idx line)));
                 mustContain := List.filter (fun s => negb (negated s)) tokens;
                 mustNotContain := map (drop 1) (List.filter negated tokens) |})
    end
  /\ Forall (fun s => s <> []) tokens
  /\ decodeScopeLine (lit "foo => scope.a, !scope.b")
     = Some (0, {| text := lit "foo"; mustContain := [lit "scope.a"];
                   mustNotContain := [lit "scope.b"] |}).
Proof.
  intros normalized line Hb Hidx tokens. split; [|split].
  - unfold decodeScopeLine. fold normalized. fold line. rewrite Hb, Hidx.
    fold tokens. rewrite sortScope_spec, trim_idem. simpl.
    destruct tokens as [|t ts] eqn:Et; [done|]. rewrite <- Et.
    destruct (List.filter _ tokens) eqn:E1; [|done].
    destruct (map _ (List.filter negated tokens)) eqn:E2; [|done].
    rewrite (sorted_nil tokens E1 E2) in Et. done.
  - unfold tokens, rawScopes. apply Forall_forall. intros x Hx.
    by apply list_elem_of_filter in Hx as [? _].
  - reflexivity.
Qed.

Lemma scope_line_decodes_witness :
  decodeScopeLine (lit "  - 'x<sp:2>y' => a.b, ,!c , {{scopes.META_DOCUMENT}}")
  = Some (2, {| text := lit "x  y";
                mustContain := [lit "a.b"; lit "text.org"];
                mustNotContain := [lit "c"] |}).
Proof.
  refine (proj1 (scope_line_decodes
                   (lit "  - 'x<sp:2>y' => a.b, ,!c , {{scopes.META_DOCUMENT}}")
                   11 _ _)); reflexivity.
Defined.

(** C7 as stated fails: an empty token between two commas is dropped, it
    goes to neither list. *)
Lemma empty_scope_token_is_dropped :
  decodeScopeLine (lit "foo => a,,b")
  = Some (0, {| text := lit "foo"; mustContain := [lit "a"; lit "b"];
                mustNotContain := [] |})
  /\ specScopeLine (lit "foo => a,,b")
     = Some {| text := lit "foo"; mustContain := [lit "a"; []; lit "b"];
               mustNotContain := [] |}.
Proof. split; reflexivity. Qed.

(** ** Indentation trees *)

Lemma searchBack_some (ds : list nat) (d k j : nat) :
  searchBack ds d k = Some j <->
  j < k /\ (exists dj, ds !! j = Some dj /\ dj < d)
  /\ forall m dm, j < m < k -> ds !! m = Some dm -> d <= dm.
Proof.
  induction k as [|k IH]; simpl.
  - split; [done | lia].
  - destruct (ds !! k) as [dk|] eqn:Hk.
    + destruct (dk <? d) eqn:Hlt.
      * apply Nat.ltb_lt in Hlt. split.
        -- intros [= <-]. split; [lia|]. split; [eauto|]. lia.
        -- intros (Hj & (dj & Hdj & Hlt') & Hall).
           destruct (decide (j = k)) as [->|Hne]; [done|].
           specialize (Hall k dk ltac:(lia) Hk). lia.
      * apply Nat.ltb_ge in Hlt. rewrite IH. split.
        -- intros (Hj & Hd & Hall). split; [lia|]. split; [done|].
           intros m dm Hm Hdm. destruct (decide (m = k)) as [->|Hne].
           ++ congruence.
           ++ apply (Hall m); [lia | done].
        -- intros (Hj & (dj & Hdj & Hlt') & Hall).
           assert (j <> k) by (intros ->; simplify_eq; lia).
           split; [lia|]. split; [eauto|]. intros m dm Hm. apply Hall. lia.
    + rewrite IH. split.
      * intros (Hj & Hd & Hall). split; [lia|]. split; [done|].
        intros m dm Hm Hdm. destruct (decide (m = k)) as [->|Hne]; [congruence|].
        apply (Hall m); [lia | done].
      * intros (Hj & (dj & Hdj & Hlt') & Hall).
        assert (j <> k) by (intros ->; congruence).
        split; [lia|]. split; [eauto|]. intros m dm Hm. apply Hall. lia.
Qed.

Lemma searchBack_none (ds : list nat) (d k : nat) :
  searchBack ds d k = None <->
  forall m dm, m < k -> ds !! m = Some dm -> d <= dm.
Proof.
  induction k as [|k IH]; simpl.
  - split; [lia | done].
  - destruct (ds !! k) as [dk|] eqn:Hk.
    + destruct (dk <? d) eqn:Hlt.
      * apply Nat.ltb_lt in Hlt. split; [done|]. intros H.
        specialize (H k dk ltac:(lia) Hk). lia.
      * apply Nat.ltb_ge in Hlt. rewrite IH. split.
        -- intros Hall m dm Hm Hdm. destruct (decide (m = k)) as [->|Hne].
           ++ congruence.
           ++ apply (Hall m); [lia | done].
        -- intros Hall m dm Hm. apply Hall. lia.
    + rewrite IH. split.
      * intros Hall m dm Hm Hdm. destruct (decide (m = k)) as [->|Hne];
          [congruence|]. apply (Hall m); [lia | done].
      * intros Hall m dm Hm. apply Hall. lia.
Qed.

Lemma searchBack_app (ds extra : list nat) (d k : nat) :
  k <= length ds -> searchBack (ds ++ extra) d k = searchBack ds d k.
Proof.
  induction k as [|k IH]; intros Hk; simpl; [done|].
  rewrite lookup_app_l by lia. rewrite IH by lia. done.
Qed.

Lemma nearestShallower_snoc (ds : list nat) (d k : nat) :
  nearestShallower (ds ++ [d]) k
  = if decide (k = length ds) then searchBack ds d (length ds)
    else nearestShallower ds k.
Proof.
  unfold nearestShallower. destruct (decide (k = length ds)) as [->|Hne].
  - rewrite list_lookup_middle by done. by rewrite searchBack_app.
  - destruct (decide (k < length ds)) as [Hlt|Hge].
    + rewrite lookup_app_l by done. destruct (ds !! k); [|done].
      by rewrite searchBack_app by lia.
    + rewrite !(lookup_ge_None_2 _ k); [done | lia |].
      rewrite length_app. simpl. lia.
Qed.

Lemma nearestShallower_lt (ds : list nat) (k j : nat) :
  nearestShallower ds k = Some j -> j < k < length ds.
Proof.
  unfold nearestShallower. destruct (ds !! k) as [d|] eqn:Hk; [|done].
  intros H. apply searchBack_some in H as [Hj _].
  apply lookup_lt_Some in Hk. lia.
Qed.

Lemma searchBack_snoc (ds : list nat) (d d0 : nat) :
  searchBack (ds ++ [d]) d0 (S (length ds))
  = if d <? d0 then Some (length ds) else searchBack ds d0 (length ds).
Proof.
  simpl. rewrite list_lookup_middle by done.
  destruct (d <? d0); [done|]. by rewrite searchBack_app.
Qed.

Section TreeInvariant.
Context {A : Type}.
Implicit Types (b : Tree.builder A) (items : list (nat * A)).

Lemma popWhile_popWhile (d0 d : nat) (st : list (nat * nat)) :
  d0 <= d -> Tree.popWhile d0 (Tree.popWhile d st) = Tree.popWhile d0 st.
Proof.
  intros Hd. induction st as [|[x r] st IH]; simpl; [done|].
  destruct (d <=? x) eqn:E.
  - apply Nat.leb_le in E. rewrite IH.
    by replace (d0 <=? x) with true by (symmetry; apply Nat.leb_le; lia).
  - done.
Qed.

Lemma stack_step (ds : list nat) (stack : list (nat * nat)) (d n d0 : nat) :
  (forall d, snd <$> head (Tree.popWhile d stack) = searchBack ds d (length ds)) ->
  n = length ds ->
  snd <$> head (Tree.popWhile d0 ((d, n) :: Tree.popWhile d stack))
  = searchBack (ds ++ [d]) d0 (S (length ds)).
Proof.
  intros Hst ->. rewrite searchBack_snoc. simpl. destruct (d0 <=? d) eqn:E.
  - apply Nat.leb_le in E. rewrite popWhile_popWhile, Hst by done.
    by replace (d <? d0) with false by (symmetry; apply Nat.ltb_ge; lia).
  - apply Nat.leb_gt in E.
    by replace (d <? d0) with true by (symmetry; apply Nat.ltb_lt; lia).
Qed.

Lemma insertNode_stack b (d : nat) (a : A) :
  Tree.nodeStack (Tree.insertNode d a b)
  = (d, length (Tree.heap b)) :: Tree.popWhile d (Tree.nodeStack b).
Proof.
  unfold Tree.insertNode.
  by destruct (Tree.popWhile d (Tree.nodeStack b)) as [|[dp p] st].
Qed.

Lemma treeInv_empty : TreeInv (A:=A) [] Tree.empty.
Proof.
  split; simpl; try done.
  - intros j k. unfold kidsOf, nearestShallower. simpl.
    split; [by intros ?%elem_of_nil | done].
  - intros k. split; [by intros ?%elem_of_nil | lia].
Qed.

Lemma kidsOf_new_root b (c : Tree.cell A) (rs : list nat) (st : list (nat * nat))
    (j : nat) :
  Tree.kids c = [] ->
  kidsOf {| Tree.heap := Tree.heap b ++ [c]; Tree.roots := rs;
            Tree.nodeStack := st |} j = kidsOf b j.
Proof.
  intros Hc. unfold kidsOf. simpl.
  destruct (decide (j < length (Tree.heap b))) as [Hlt|Hge].
  - by rewrite lookup_app_l.
  - rewrite (lookup_ge_None_2 (Tree.heap b)) by lia.
    destruct (decide (j = length (Tree.heap b))) as [->|Hne].
    + by rewrite list_lookup_middle.
    + rewrite lookup_ge_None_2; [done|]. rewrite length_app. simpl. lia.
Qed.

Lemma kidsOf_new_child b (c : Tree.cell A) (rs : list nat) (st : list (nat * nat))
    (p n j : nat) :
  Tree.kids c = [] -> p < length (Tree.heap b) ->
  kidsOf {| Tree.heap := alter (Tree.pushKid n) p (Tree.heap b ++ [c]);
            Tree.roots := rs; Tree.nodeStack := st |} j
  = if decide (j = p) then kidsOf b p ++ [n] else kidsOf b j.
Proof.
  intros Hc Hp. unfold kidsOf at 1. simpl. destruct (decide (j = p)) as [->|Hne].
  - rewrite list_lookup_alter_eq, lookup_app_l by done. unfold kidsOf.
    destruct (lookup_lt_is_Some_2 _ _ Hp) as [cp ->]. done.
  - rewrite list_lookup_alter_ne by done.
    apply (kidsOf_new_root b c rs st j Hc).
Qed.

Lemma treeInv_insert items b (d : nat) (a : A) :
  TreeInv items b -> TreeInv (items ++ [(d, a)]) (Tree.insertNode d a b).
Proof.
  intros [Hn Hst Hch Hrt].
  assert (Hlen : length (map fst items) = length items) by apply length_map.
  assert (Hns : forall k,
    nearestShallower (map fst (items ++ [(d, a)])) k
    = if decide (k = length items) then searchBack (map fst items) d (length items)
      else nearestShallower (map fst items) k).
  { intros k. rewrite map_app. simpl. rewrite nearestShallower_snoc.
    by rewrite Hlen. }
  assert (Hlast : forall j, nearestShallower (map fst items) (length items) <> Some j).
  { intros j H. apply nearestShallower_lt in H. lia. }
  assert (Hstack : forall d0,
    snd <$> head (Tree.popWhile d0 (Tree.nodeStack (Tree.insertNode d a b)))
    = searchBack (map fst (items ++ [(d, a)])) d0 (length (items ++ [(d, a)]))).
  { intros d0. rewrite insertNode_stack, map_app, length_app. simpl.
    replace (length items + 1) with (S (length (map fst items))) by lia.
    apply stack_step; [|lia]. intros d1. by rewrite Hlen. }
  specialize (Hst d) as Htop. revert Hstack. unfold Tree.insertNode.
  rewrite Hn.
  destruct (Tree.popWhile d (Tree.nodeStack b)) as [|[dp p] st] eqn:Hpop;
    simpl in Htop; intros Hstack.
  - (* the new node is a root *)
    split; simpl.
    + rewrite !length_app, Hn. done.
    + apply Hstack.
    + intros j k. rewrite kidsOf_new_root by done. rewrite Hch, Hns.
      destruct (decide (k = length items)) as [->|Hne]; [|done].
      rewrite <- Htop. split; [|done]. intros H. by apply Hlast in H.
    + intros k. rewrite elem_of_app, Hrt, Hns, length_app. simpl.
      rewrite list_elem_of_singleton.
      destruct (decide (k = length items)) as [->|Hne].
      * rewrite <- Htop. split; [intros _; split; [lia|done] | by right].
      * split; [intros [[? ?]|?]; [split; [lia|done] | done]
               | intros [? ?]; left; split; [lia|done]].
  - (* the new node is a child of the top of the stack *)
    assert (Hp : p < length (Tree.heap b)).
    { symmetry in Htop. apply searchBack_some in Htop. lia. }
    split; simpl.
    + rewrite length_alter, !length_app, Hn. done.
    + apply Hstack.
    + intros j k. rewrite kidsOf_new_child by done. rewrite Hns.
      destruct (decide (j = p)) as [->|Hjp].
      * rewrite elem_of_app, Hch, list_elem_of_singleton.
        destruct (decide (k = length items)) as [->|Hne].
        -- rewrite <- Htop. split; [done | by right].
        -- split; [intros [?|?]; done | by left].
      * rewrite Hch. destruct (decide (k = length items)) as [->|Hne]; [|done].
        rewrite <- Htop. split; [intros H; by apply Hlast in H | by intros [= ->]].
    + intros k. rewrite Hrt, Hns, length_app. simpl.
      destruct (decide (k = length items)) as [->|Hne].
      * rewrite <- Htop. split; [lia | by intros [_ ?]].
      * split; intros [? ?]; split; (lia || done).
Qed.

Lemma build_snoc items (d : nat) (a : A) :
  Tree.build (items ++ [(d, a)]) = Tree.insertNode d a (Tree.build items).
Proof. unfold Tree.build. by rewrite fold_left_app. Qed.

Lemma treeInv_build items : TreeInv items (Tree.build items).
Proof.
  induction items as [|[d a] items IH] using rev_ind.
  - apply treeInv_empty.
  - rewrite build_snoc. by apply treeInv_insert.
Qed.

End TreeInvariant.

Lemma nearestShallower_some (ds : list nat) (k j : nat) :
  nearestShallower ds k = Some j <->
  exists dj dk, ds !! j = Some dj /\ ds !! k = Some dk /\ j < k /\ dj < dk
    /\ forall m dm, j < m < k -> ds !! m = Some dm -> dk <= dm.
Proof.
  unfold nearestShallower. destruct (ds !! k) as [dk|] eqn:Hk.
  - rewrite searchBack_some. split.
    + intros (Hj & (dj & Hdj & Hlt) & Hall). exists dj, dk. done.
    + intros (dj & dk' & Hdj & [= <-] & Hj & Hlt & Hall). eauto.
  - split; [done|]. by intros (dj & dk & _ & ? & _).
Qed.

Lemma searchBack_skip (ds : list nat) (d j k : nat) :
  j <= k ->
  (forall m dm, j <= m < k -> ds !! m = Some dm -> d <= dm) ->
  searchBack ds d k = searchBack ds d j.
Proof.
  intros Hjk. induction k as [|k IH]; intros Hall.
  - by replace j with 0 by lia.
  - destruct (decide (j = S k)) as [->|Hne]; [done|]. simpl.
    destruct (ds !! k) as [dk|] eqn:Hk.
    + specialize (Hall k dk ltac:(lia) Hk) as Hdk.
      replace (dk <? d) with false by (symmetry; apply Nat.ltb_ge; lia).
      apply IH; [lia|]. intros m dm Hm. apply Hall. lia.
    + apply IH; [lia|]. intros m dm Hm. apply Hall. lia.
Qed.

Lemma searchBackEq_some (ds : list nat) (d k j : nat) :
  searchBackEq ds d k = Some j -> j < k /\ ds !! j = Some d.
Proof.
  induction k as [|k IH]; simpl; [done|].
  destruct (ds !! k) as [dk|] eqn:Hk.
  - destruct (dk =? d) eqn:E.
    + apply Nat.eqb_eq in E as ->. intros [= <-]. split; [lia | done].
    + intros H. apply IH in H. split; [lia | tauto].
  - intros H. apply IH in H. split; [lia | tauto].
Qed.

Lemma sibling_of_equal (ds : list nat) (j k : nat) :
  nearestEqual ds k = Some j ->
  (forall m dm dk, j < m < k -> ds !! m = Some dm -> ds !! k = Some dk ->
                   dk <= dm) ->
  nearestShallower ds j = nearestShallower ds k.
Proof.
  unfold nearestEqual, nearestShallower.
  destruct (ds !! k) as [d|] eqn:Hk; [|done].
  intros H Hall. apply searchBackEq_some in H as [Hjk Hj]. rewrite Hj.
  symmetry. apply searchBack_skip; [lia|].
  intros m dm Hm Hdm. destruct (decide (m = j)) as [->|Hne].
  - simplify_eq. lia.
  - apply (Hall m dm d); [lia | done | done].
Qed.

Lemma descendant_run {A : Type} (items : list (nat * A)) (b : Tree.builder A) :
  TreeInv items b ->
  forall j k, Descendant b j k <-> deeperRun (map fst items) j k.
Proof.
  intros [_ _ Hch _]. set (ds := map fst items) in *. intros j k. split.
  - induction 1 as [j k Hk|j p k _ IH Hk].
    + apply Hch, nearestShallower_some in Hk
        as (dj & dk & Hdj & Hdk & Hjk & Hlt & Hall).
      split; [apply lookup_lt_Some in Hdk; lia|].
      intros m dj' dm Hm Hdj' Hdm. simplify_eq.
      destruct (decide (m = k)) as [->|Hne]; [simplify_eq; lia|].
      specialize (Hall m dm ltac:(lia) Hdm). lia.
    + apply Hch, nearestShallower_some in Hk
        as (dp & dk & Hdp & Hdk & Hpk & Hlt & Hall).
      destruct IH as [Hjp IH].
      split; [apply lookup_lt_Some in Hdk; lia|].
      intros m dj dm Hm Hdj Hdm.
      specialize (IH p dj dp ltac:(lia) Hdj Hdp) as Hjp'.
      destruct (decide (m <= p)) as [Hle|Hgt]; [apply (IH m dj dm); (lia || done)|].
      destruct (decide (m = k)) as [->|Hne]; [simplify_eq; lia|].
      specialize (Hall m dm ltac:(lia) Hdm). lia.
  - revert j. induction k as [k IH] using lt_wf_ind. intros j [Hjk Hrun].
    destruct (lookup_lt_is_Some_2 ds k ltac:(lia)) as [dk Hdk].
    destruct (lookup_lt_is_Some_2 ds j ltac:(lia)) as [dj Hdj].
    specialize (Hrun k dj dk ltac:(lia) Hdj Hdk) as Hlt.
    destruct (nearestShallower ds k) as [p|] eqn:Hns.
    + pose proof Hns as Hk. apply Hch in Hk.
      apply nearestShallower_some in Hns
        as (dp & dk' & Hdp & Hdk' & Hpk & Hlt' & Hall). simplify_eq.
      assert (Hjp : j <= p).
      { destruct (decide (j <= p)); [done|].
        specialize (Hall j dj ltac:(lia) Hdj). lia. }
      destruct (decide (j = p)) as [->|Hne]; [by apply desc_child|].
      apply desc_below with p; [|done]. apply IH; [lia|].
      split; [apply lookup_lt_Some in Hdp; lia|].
      intros m dj' dm Hm. apply Hrun. lia.
    + unfold nearestShallower in Hns. rewrite Hdk in Hns.
      rewrite searchBack_none in Hns. specialize (Hns j dj ltac:(lia) Hdj). lia.
Qed.

Lemma indentationTree_build {A : Type} (items : list (nat * A)) :
  IndentationTree (Tree.build items) (map fst items).
Proof.
  pose proof (treeInv_build items) as Hinv.
  pose proof Hinv as [Hn Hst Hch Hrt]. split.
  - by rewrite Hn, length_map.
  - apply Hch.
  - intros k. by rewrite Hrt, length_map.
  - apply sibling_of_equal.
  - by apply descendant_run.
Qed.

Lemma scopeTree_build (content : list str) :
  scopeTree content = Tree.build (omap decodeScopeLine content).
Proof. unfold scopeTree. by rewrite scopeLoop_spec. Qed.

Lemma symbolLoop_spec (content : list str) (b : Tree.builder Symbol) :
  fold_left symbolLoopBody content b
  = fold_left (fun b it => Tree.insertNode (fst it) (snd it) b)
      (omap decodeSymbolLine content) b.
Proof.
  revert b. induction content as [|l content IH]; intros b; simpl; [done|].
  unfold symbolLoopBody at 2. destruct (decodeSymbolLine l) as [[d a]|]; simpl;
    apply IH.
Qed.

Lemma symbolTree_build (content : list str) :
  symbolTree content = Tree.build (omap decodeSymbolLine content).
Proof. apply symbolLoop_spec. Qed.

(** C6 (amended).  In the tree of a scope block and in the tree of a
    symbols block, with the qualifying lines numbered in order: node [k] is
    a child of the nearest preceding line that is shallower than line [k],
    and of no other node; it is a root exactly when no preceding line is
    shallower.  It has the parent of the nearest preceding line of equal
    depth when no line between the two is shallower.  The descendants of a
    node, not its children alone, are the lines that follow it as long as
    they are deeper than it, up to the next line that is not. *)
Theorem indentation_tree_shape (content : list str) :
  IndentationTree (scopeTree content) (scopeDepths content)
  /\ IndentationTree (symbolTree content) (symbolDepths content)
  /\ (forall assertions tree,
        decodeScope content = Ok (ScopeExpectation assertions tree) ->
        tree = Tree.forest mkScopeNode (scopeTree content))
  /\ decodeSymbols content
     = SymbolsExpectation (Tree.forest mkSymbolNode (symbolTree content))
  /\ (forall ds k j,
        nearestShallower ds k = Some j <->
        exists dj dk, ds !! j = Some dj /\ ds !! k = Some dk /\ j < k /\ dj < dk
          /\ forall m dm, j < m < k -> ds !! m = Some dm -> dk <= dm).
Proof.
  split; [|split; [|split; [|split]]].
  - rewrite scopeTree_build. apply indentationTree_build.
  - rewrite symbolTree_build. apply indentationTree_build.
  - intros assertions tree. unfold decodeScope, scopeTree.
    destruct (fold_left scopeLoopBody content ([], Tree.empty)) as [a b].
    destruct (_ && _); [done|]. by intros [= _ <-].
  - reflexivity.
  - apply nearestShallower_some.
Qed.

Example symbols_scenario_D :
  decodeSymbols (map lit ["- Level 1 (0:0-3:0)"; "  - Level 2 (1:0-2:0)"]%string)
  = SymbolsExpectation
      [mkSymbolNode {| name := lit "Level 1"; startLine := 0; startChar := 0;
                       endLine := 3; endChar := 0 |}
         [mkSymbolNode {| name := lit "Level 2"; startLine := 1; startChar := 0;
                          endLine := 2; endChar := 0 |} []]].
Proof. reflexivity. Qed.

(** C6 as stated fails.  With depths 0, 2, 1, 2 the nearest line before
    the last one that has its depth is line 1, a child of line 0, while
    the last line is a child of line 2: they are not siblings.  And the
    children of line 0 are lines 1 and 2 only, although line 3 too follows
    it and is deeper. *)
Lemma deeper_line_is_not_sibling_of_equal_depth :
  let content := map lit ["a => s"; "  b => s"; " c => s"; "  d => s"]%string in
  let node t kids :=
    mkScopeNode {| text := lit t; mustContain := [lit "s"];
                   mustNotContain := [] |} kids in
  scopeDepths content = [0; 2; 1; 2]
  /\ nearestEqual (scopeDepths content) 3 = Some 1
  /\ parentOf (scopeTree content) 3 = Some 2
  /\ parentOf (scopeTree content) 1 = Some 0
  /\ kidsOf (scopeTree content) 0 = [1; 2]
  /\ forall assertions tree,
       decodeScope content = Ok (ScopeExpectation assertions tree) ->
       tree = [node "a" [node "b" []; node "c" [node "d" []]]]%string.
Proof.
  repeat split; try (vm_compute; reflexivity).
  intros assertions tree H. vm_compute in H. by injection H as _ <-.
Qed.

(** ** The words of the claims and the tests of the program *)

Ltac each_char c :=
  destruct c as [[|] [|] [|] [|] [|] [|] [|] [|]]; vm_compute; try done.

Lemma eqc_refl' (a : ascii) : Js.eqc a a = true.
Proof. by apply eqc_true. Qed.

Lemma split_cons (c x : ascii) (s : str) :
  Js.split c (x :: s)
  = if Js.eqc x c then [] :: Js.split c s
    else match Js.split c s with
         | h :: r => (x :: h) :: r
         | [] => [[x]]
         end.
Proof. reflexivity. Qed.

Lemma split_not_nil (c : ascii) (s : str) : Js.split c s <> [].
Proof.
  induction s as [|x s IH]; [done|]. rewrite split_cons.
  destruct (Js.eqc x c); [done|]. by destruct (Js.split c s).
Qed.

Lemma join_cons (sep l : str) (ls : list str) :
  ls <> [] -> Js.join sep (l :: ls) = l ++ sep ++ Js.join sep ls.
Proof. by destruct ls. Qed.

Lemma White_isSpace (c : ascii) : White c <-> Js.isSpace c = true.
Proof.
  unfold White, Js.isSpace, Js.code. simpl In.
  rewrite !orb_true_iff, !andb_true_iff, !Nat.leb_le, !Nat.eqb_eq. lia.
Qed.

Lemma not_White_isSpace (c : ascii) : ~ White c <-> Js.isSpace c = false.
Proof. rewrite White_isSpace. by destruct (Js.isSpace c). Qed.

Lemma Digit_isDigit (c : ascii) : Digit c <-> Js.isDigit c = true.
Proof.
  unfold Digit, Js.isDigit, Js.code.
  rewrite andb_true_iff, !Nat.leb_le. done.
Qed.

Lemma Forall_White (a : str) :
  Forall White a <-> Forall (fun c => Js.isSpace c = true) a.
Proof. apply Forall_iff. intros c. apply White_isSpace. Qed.

Lemma trimStart_white (a : str) :
  Forall (fun c => Js.isSpace c = true) a -> Js.trimStart a = [].
Proof.
  intros Ha. rewrite <- (app_nil_r a). by rewrite trimStart_spaces.
Qed.

Lemma trimEnd_spaces (s b : str) :
  Forall (fun c => Js.isSpace c = true) b ->
  Js.trimEnd (s ++ b) = Js.trimEnd s.
Proof.
  intros Hb. unfold Js.trimEnd. rewrite rev_app_distr.
  rewrite trimStart_spaces; [done|]. by apply Forall_rev.
Qed.

Lemma trimEnd_stop (t : str) (c : ascii) :
  Js.isSpace c = false -> Js.trimEnd (t ++ [c]) = t ++ [c].
Proof.
  intros Hc. unfold Js.trimEnd. rewrite rev_app_distr. simpl.
  rewrite trimStart_stop by done. simpl. by rewrite rev_involutive.
Qed.

Lemma snoc_cases (s : str) : s = [] \/ exists t c, s = t ++ [c].
Proof.
  destruct (rev s) as [|c r] eqn:E.
  - left. by rewrite <- (rev_involutive s), E.
  - right. exists (rev r), c. by rewrite <- (rev_involutive s), E.
Qed.

(** The trimmed line is the line of the claims without its white space. *)
Lemma Trimmed_trim (l core : str) : Trimmed l core <-> core = Js.trim l.
Proof.
  split.
  - intros (a & b & -> & Ha & Hb & Hhd & Hlast).
    apply Forall_White in Ha, Hb. unfold Js.trim.
    rewrite trimStart_spaces by done.
    destruct core as [|c t].
    + simpl. rewrite (trimStart_white b Hb). done.
    + assert (Hc : Js.isSpace c = false)
        by (by apply not_White_isSpace, (Hhd c t)).
      rewrite <- app_comm_cons, trimStart_stop by done.
      rewrite app_comm_cons, trimEnd_spaces by done.
      destruct (snoc_cases (c :: t)) as [|(t' & c' & E)]; [done|].
      rewrite E. symmetry. apply trimEnd_stop.
      by apply not_White_isSpace, (Hlast t' c').
  - intros ->. unfold Js.trim.
    destruct (trimStart_decompose l) as (a & Ha & Hl & Hhd).
    destruct (trimEnd_decompose (Js.trimStart l)) as (b & Hb & Hs).
    exists a, b. split; [by rewrite <- Hs|].
    split; [by apply Forall_White|]. split; [by apply Forall_White|]. split.
    + intros c t E. apply not_White_isSpace.
      destruct Hhd as [Hnil|(c' & t' & Hct & Hc')].
      * rewrite Hnil in E. done.
      * rewrite Hct, trimEnd_cons in E by done. by injection E as <- _.
    + intros t c E. apply not_White_isSpace.
      unfold Js.trimEnd in E.
      destruct (trimStart_decompose (rev (Js.trimStart l)))
        as (_ & _ & _ & [Hnil|(c' & t' & Hct & Hc')]).
      * rewrite Hnil in E. by destruct t.
      * rewrite Hct in E. simpl in E.
        apply app_inj_tail in E as [_ ->]. done.
Qed.

Lemma includes_eq (p s : str) :
  Js.includes p s
  = Js.startsWith p s || match s with
                         | [] => false
                         | _ :: s' => Js.includes p s'
                         end.
Proof. by destruct s. Qed.

Lemma Holds_includes (p s : str) : Holds p s <-> Js.includes p s = true.
Proof.
  split.
  - intros (a & b & ->). induction a as [|x a IH].
    + cbn [app]. by rewrite includes_eq, startsWith_app.
    + rewrite includes_eq. cbn [app]. by rewrite IH, orb_true_r.
  - induction s as [|x s IH]; simpl.
    + rewrite orb_false_r. intros [r Hr]%startsWith_true. by exists [], r.
    + intros [[r Hr]%startsWith_true|H]%orb_true_iff.
      * by exists [], r.
      * destruct (IH H) as (a & b & ->). by exists (x :: a), b.
Qed.

Lemma span_stars (k : nat) (c : ascii) (rest : str) :
  Js.eqc "*" c = false ->
  Js.span (Js.eqc "*") (repeat "*"%char k ++ c :: rest)
  = (repeat "*"%char k, c :: rest).
Proof.
  intros Hc. induction k as [|k IH]; simpl; [by rewrite Hc|].
  by rewrite IH.
Qed.

Lemma all_stars (l : str) :
  Forall (fun c => Js.eqc "*" c = true) l -> l = repeat "*"%char (length l).
Proof.
  induction 1 as [|x l Hx Hl IH]; [done|].
  apply eqc_true in Hx as <-. simpl. by rewrite <- IH.
Qed.

Lemma isHeadline_shaped (s : str) : isHeadline s = true <-> HeadlineShaped s.
Proof.
  split.
  - unfold isHeadline. pose proof (span_app (Js.eqc "*") s) as Happ.
    pose proof (span_all (Js.eqc "*") s) as Hall.
    destruct (Js.span (Js.eqc "*") s) as [stars rest]. simpl in *.
    destruct stars as [|x stars]; [done|]. destruct rest as [|c t]; [done|].
    intros Hc. exists (length (x :: stars)), c, t.
    split; [simpl; lia|]. split; [|by apply White_isSpace].
    by rewrite <- (all_stars _ Hall).
  - intros (k & c & t & Hk & -> & Hc). apply White_isSpace in Hc.
    unfold isHeadline. rewrite span_stars.
    + destruct k; [lia|]. done.
    + apply eqc_false. intros <-. by vm_compute in Hc.
Qed.

Lemma isTerminator_EndsBlock (l : str) : isTerminator l = true <-> EndsBlock l.
Proof.
  unfold isTerminator, EndsBlock, blockKeywords.
  rewrite !orb_true_iff, andb_true_iff, negb_true_iff, !startsWith_true,
    isHeadline_shaped, <- not_true_iff_false, <- Holds_includes.
  split.
  - intros H. exists (Js.trim l). split; [by apply Trimmed_trim|].
    destruct H as [[[H|H]|H]|H]; [left; eexists; split; [|exact H]..|by right].
    + by left.
    + right. by left.
    + right. right. by left.
  - intros (core & ->%Trimmed_trim & [(k & Hk & H)|H]); [|by right].
    left. simpl in Hk. destruct Hk as [<-|[<-|[<-|[]]]]; auto.
Qed.

Lemma SameLetter_refl (x : ascii) : SameLetter x x.
Proof. by left. Qed.

Lemma Spells_refl (k : str) : Spells k k.
Proof. induction k; constructor; [apply SameLetter_refl | done]. Qed.

Lemma EndsBlock_AnyCase (l : str) : EndsBlock l -> EndsBlockAnyCase l.
Proof.
  intros (core & Hcore & [(k & Hk & H)|H]); exists core; (split; [done|]).
  - left. exists k, k. split; [done|]. split; [apply Spells_refl | done].
  - by right.
Qed.

Lemma ascii_code_inj (x y : ascii) : nat_of_ascii x = nat_of_ascii y -> x = y.
Proof.
  intros H. rewrite <- (ascii_nat_embedding x), <- (ascii_nat_embedding y).
  by rewrite H.
Qed.

Lemma code_lowerChar (c : ascii) :
  nat_of_ascii (Js.lowerChar c)
  = let n := nat_of_ascii c in
    if ((65 <=? n) && (n <=? 90)) || ((192 <=? n) && (n <=? 214))
       || ((216 <=? n) && (n <=? 222))
    then n + 32 else n.
Proof.
  unfold Js.lowerChar, Js.code. cbv zeta.
  destruct (_ || _) eqn:E; [|done].
  apply nat_ascii_embedding.
  rewrite !orb_true_iff, !andb_true_iff, !Nat.leb_le in E. lia.
Qed.

(** For a character of a keyword, the other spelling is the one that
    folds to the same lower-case character. *)
Lemma SameLetter_lower (x y : ascii) :
  nat_of_ascii x < 128 ->
  SameLetter x y <-> Js.lowerChar x = Js.lowerChar y.
Proof.
  intros Hx. pose proof (nat_ascii_bounded y) as Hy.
  split.
  - intros H. apply ascii_code_inj. rewrite !code_lowerChar. cbv zeta.
    destruct H as [->|H]; [done|].
    repeat match goal with
           | |- context [if ?b then _ else _] => destruct b eqn:?
           end;
      rewrite ?orb_true_iff, ?orb_false_iff, ?andb_true_iff, ?andb_false_iff,
        ?Nat.leb_le, ?Nat.leb_gt in *; lia.
  - intros H. apply (f_equal nat_of_ascii) in H.
    rewrite !code_lowerChar in H. cbv zeta in H. unfold SameLetter.
    destruct (decide (nat_of_ascii x = nat_of_ascii y)) as [E|E];
      [left; by apply ascii_code_inj|]. right.
    repeat match type of H with
           | context [if ?b then _ else _] => destruct b eqn:?
           end;
      rewrite ?orb_true_iff, ?orb_false_iff, ?andb_true_iff, ?andb_false_iff,
        ?Nat.leb_le, ?Nat.leb_gt in *; lia.
Qed.

Lemma Spells_lower (k q : str) :
  Forall (fun c => nat_of_ascii c < 128) k ->
  Spells k q <-> Js.toLowerCase k = Js.toLowerCase q.
Proof.
  intros Hk. revert q. induction Hk as [|x k Hx Hk IH]; intros q.
  - split; [by inversion 1|]. destruct q; [constructor | done].
  - destruct q as [|y q]; [split; [by inversion 1 | done]|].
    simpl. split.
    + inversion 1 as [|? ? ? ? Hxy Hkq]; subst.
      apply (SameLetter_lower x y Hx) in Hxy. apply IH in Hkq. congruence.
    + intros [= Hxy Hkq]. constructor; [by apply SameLetter_lower | by apply IH].
Qed.

Lemma toLowerCase_app (a b : str) :
  Js.toLowerCase (a ++ b) = Js.toLowerCase a ++ Js.toLowerCase b.
Proof. apply map_app. Qed.

(** A keyword in any spelling at the head of a line is what the tests of
    the directives find after folding the case of the line. *)
Lemma anyCase_startsWith (k core : str) :
  Forall (fun c => nat_of_ascii c < 128) k ->
  (exists q, Spells k q /\ BeginsWith q core)
  <-> Js.startsWith (Js.toLowerCase k) (Js.toLowerCase core) = true.
Proof.
  intros Hk. rewrite startsWith_true. split.
  - intros (q & Hq & t & ->). apply (Spells_lower k q Hk) in Hq.
    exists (Js.toLowerCase t). by rewrite toLowerCase_app, Hq.
  - intros [r Hr]. exists (take (length k) core). split.
    + apply Spells_lower; [done|]. unfold Js.toLowerCase in *.
      change (map Js.lowerChar ?x) with (Js.lowerChar <$> x) in *.
      rewrite fmap_take, Hr.
      rewrite take_app_length'; [done|]. by rewrite length_fmap.
    + exists (drop (length k) core). by rewrite take_drop.
Qed.

Lemma isTerminatorAnyCase_EndsBlock (l : str) :
  isTerminatorAnyCase l = true <-> EndsBlockAnyCase l.
Proof.
  assert (H1 : Forall (fun c => nat_of_ascii c < 128) (lit "#+NAME:"))
    by (repeat constructor; vm_compute; lia).
  assert (H2 : Forall (fun c => nat_of_ascii c < 128) (lit "#+BEGIN_FIXTURE"))
    by (repeat constructor; vm_compute; lia).
  assert (H3 : Forall (fun c => nat_of_ascii c < 128) (lit "#+EXPECTED:"))
    by (repeat constructor; vm_compute; lia).
  unfold isTerminatorAnyCase, EndsBlockAnyCase, blockKeywords.
  rewrite !orb_true_iff, andb_true_iff, negb_true_iff,
    isHeadline_shaped, <- not_true_iff_false, <- Holds_includes.
  change (lit "#+name:") with (Js.toLowerCase (lit "#+NAME:")).
  change (lit "#+begin_fixture") with (Js.toLowerCase (lit "#+BEGIN_FIXTURE")).
  change (lit "#+expected:") with (Js.toLowerCase (lit "#+EXPECTED:")).
  rewrite <- !anyCase_startsWith by done.
  split.
  - intros H. exists (Js.trim l). split; [by apply Trimmed_trim|].
    destruct H as [[[(q & H)|(q & H)]|(q & H)]|H]; [left..|by right].
    + exists (lit "#+NAME:"), q. split; [by left | done].
    + exists (lit "#+BEGIN_FIXTURE"), q. split; [right; by left | done].
    + exists (lit "#+EXPECTED:"), q. split; [right; right; by left | done].
  - intros (core & ->%Trimmed_trim & [(k & q & Hk & H)|H]); [|by right].
    left. simpl in Hk. destruct Hk as [<-|[<-|[<-|[]]]]; eauto.
Qed.

Lemma not_EndsBlockAnyCase (l : str) :
  isTerminatorAnyCase l = false -> ~ EndsBlockAnyCase l.
Proof.
  intros H He. apply isTerminatorAnyCase_EndsBlock in He. congruence.
Qed.

(** ** Where the content of a block ends *)

Lemma headline_with_arrow (l core : str) :
  Trimmed l core -> HeadlineShaped core -> Holds (lit "=>") core ->
  ~ EndsBlockAnyCase l.
Proof.
  intros Hcore (n & c & t & Hn & Hs & _) Harrow (core' & Hcore' & H).
  apply Trimmed_trim in Hcore, Hcore'. rewrite <- Hcore in Hcore'.
  subst core'.
  destruct H as [(k & q & Hk & Hq & r & Hr)|[_ H]]; [|done].
  destruct n as [|n]; [lia|]. rewrite Hs in Hr. simpl in Hk, Hr.
  destruct Hk as [<-|[<-|[<-|[]]]];
    inversion Hq as [|? y ? q' Hxy _]; subst; injection Hr as Hy _;
    subst y; destruct Hxy as [?|[?|?]]; try done; vm_compute in *; lia.
Qed.

(** C3 (amended).  The content of an expectation block runs from the line
    after the directive up to, and not including, the first line that,
    without the white space around it, begins with [#+NAME:],
    [#+BEGIN_FIXTURE] or [#+EXPECTED:] or is headline-shaped (one or more
    stars, then a white space character) and holds no [=>]; with no such
    line it runs to the last line of the file.  A line that is
    headline-shaped once trimmed and holds [=>] never ends the block.
    Nothing is said of a block in which a keyword stands in another
    spelling of upper and lower case. *)
Theorem block_extent_up_to_terminator
    (lines : list str) (currentIndex : nat) (content after : list str) :
  drop (currentIndex + 1) lines = content ++ after ->
  Forall (fun l => ~ EndsBlockAnyCase l) content ->
  (forall t rest, after = t :: rest -> EndsBlock t) ->
  blockExtent lines currentIndex = (content, currentIndex + length content)
  /\ (after = [] -> currentIndex < length lines ->
      currentIndex + length content = length lines - 1)
  /\ (forall l core, Trimmed l core -> HeadlineShaped core ->
        Holds (lit "=>") core ->
        ~ EndsBlockAnyCase l /\ isTerminator l = false).
Proof.
  intros Hd Hc Ha.
  assert (Hno : forall l, ~ EndsBlockAnyCase l -> isTerminator l = false).
  { intros l Hl. apply not_true_iff_false. intros Ht. apply Hl.
    by apply EndsBlock_AnyCase, isTerminator_EndsBlock. }
  split; [|split].
  - unfold blockExtent. rewrite Hd.
    replace currentIndex with (currentIndex + 1 - 1) at 2 by lia.
    rewrite scanBlock_spec; [simpl; f_equal; lia|lia| |].
    + eapply Forall_impl; [exact Hc|]. exact Hno.
    + intros t rest E. by apply isTerminator_EndsBlock, (Ha t rest).
  - intros -> Hlt. rewrite app_nil_r in Hd.
    rewrite <- Hd, length_drop. lia.
  - intros l core Hcore Hh Harrow.
    pose proof (headline_with_arrow l core Hcore Hh Harrow) as Hn.
    split; [done | by apply Hno].
Qed.

Lemma block_extent_up_to_terminator_witness :
  blockExtent
    (map lit ["#+EXPECTED: :type scope"; "* Title => a.b"; "  x => y ";
              "  * Next"; "z"]%string) 0
  = (map lit ["* Title => a.b"; "  x => y "]%string, 2).
Proof.
  refine (proj1 (block_extent_up_to_terminator _ 0 _
                   (map lit ["  * Next"; "z"]%string) _ _ _)).
  - reflexivity.
  - repeat constructor; apply not_EndsBlockAnyCase; vm_compute; reflexivity.
  - intros t rest [= <- <-]. apply isTerminator_EndsBlock.
    vm_compute. reflexivity.
Defined.

(** C3 as stated fails: the shape of a headline is looked for in the
    trimmed line.  A line of one star and a space is headline-shaped and
    holds no [=>], yet the block runs on through it; an indented star is
    no directive and not headline-shaped, yet the block ends before it. *)
Lemma headline_shape_is_tested_after_trimming :
  (EndsBlockAsClaimed (lit "* ")
   /\ blockExtent (map lit ["#+EXPECTED: :type scope"; "a => b"; "* ";
                            "c => d"]%string) 0
      = (map lit ["a => b"; "* "; "c => d"]%string, 3))
  /\ (~ EndsBlockAsClaimed (lit " * c")
      /\ blockExtent (map lit ["#+EXPECTED: :type scope"; "a => b"; " * c";
                               "d => e"]%string) 0
         = (map lit ["a => b"]%string, 1)).
Proof.
  split; split; try reflexivity.
  - right. split.
    + exists 1, " "%char, []. split; [lia|]. split; [done|].
      unfold White. simpl. tauto.
    + intros H%Holds_includes. by vm_compute in H.
  - intros [(core & k & q & Hcore & Hk & Hq & Hb)|[(n & c & t & Hn & Hs & _) _]].
    + apply Trimmed_trim in Hcore. subst core.
      destruct Hb as [r Hr]. vm_compute in Hr.
      simpl in Hk. destruct Hk as [<-|[<-|[<-|[]]]];
        inversion Hq as [|? y ? q' Hxy _]; subst; injection Hr as Hy _;
        subst y; destruct Hxy as [?|[?|?]]; try done; vm_compute in *; lia.
    + destruct n as [|n]; [lia|]. done.
Qed.

(** ** The cells of a row *)

Lemma barred_join (cells : list str) : barred cells = Js.join ["|"] cells.
Proof.
  induction cells as [|c [|c' rest] IH]; [done..|].
  change (barred (c :: c' :: rest)) with (c ++ "|" :: barred (c' :: rest)).
  by rewrite IH.
Qed.

Lemma join_split_at (c : ascii) (s : str) :
  Js.join [c] (Js.split c s) = s.
Proof.
  induction s as [|x s IH]; [done|]. rewrite split_cons.
  destruct (Js.eqc x c) eqn:E.
  - apply eqc_true in E as ->.
    rewrite join_cons by apply split_not_nil. simpl. by rewrite IH.
  - pose proof (split_not_nil c s) as Hne.
    destruct (Js.split c s) as [|h r]; [done|].
    destruct r as [|h' r]; simpl in *; by rewrite <- IH.
Qed.

Lemma split_without (c : ascii) (s : str) :
  Forall (fun l => ~ In c l) (Js.split c s).
Proof.
  induction s as [|x s IH]; [constructor; [intros []|constructor]|].
  rewrite split_cons.
  destruct (Js.eqc x c) eqn:E; [constructor; [intros []|done]|].
  destruct (Js.split c s) as [|h r]; [repeat constructor|].
  - intros [->|[]]. by rewrite eqc_refl' in E.
  - apply Forall_cons in IH as [Hh Hr]. constructor; [|done].
    intros [->|H]; [by rewrite eqc_refl' in E | done].
Qed.

Lemma split_join_at (c : ascii) (ls : list str) :
  ls <> [] -> Forall (fun l => ~ In c l) ls ->
  Js.split c (Js.join [c] ls) = ls.
Proof.
  intros Hne Hall. induction Hall as [|l ls Hl Hls IH]; [done|].
  destruct ls as [|l' ls].
  - simpl. clear IH Hne. induction l as [|x l IHl]; [done|].
    rewrite split_cons.
    replace (Js.eqc x c) with false
      by (symmetry; apply eqc_false; intros ->; apply Hl; by left).
    rewrite IHl; [done|]. intros H. apply Hl. by right.
  - rewrite join_cons by done. specialize (IH ltac:(done)).
    clear Hne. induction l as [|x l IHl].
    + cbn [app]. rewrite split_cons, eqc_refl'. by rewrite IH.
    + rewrite <- app_comm_cons, split_cons.
      replace (Js.eqc x c) with false
        by (symmetry; apply eqc_false; intros ->; apply Hl; by left).
      rewrite IHl; [done|]. intros H. apply Hl. by right.
Qed.

(** Splitting on the bar gives the cells between the bars. *)
Lemma SplitsInto_split (row : str) (cells : list str) :
  SplitsInto row cells <-> Js.split "|" row = cells.
Proof.
  unfold SplitsInto. rewrite barred_join. split.
  - intros (Hne & Hall & ->). by apply split_join_at.
  - intros <-. split; [apply split_not_nil|].
    split; [apply split_without|]. by rewrite join_split_at.
Qed.

(** ** The index of a capture *)

Lemma parseZ_snoc (ds : str) (d : ascii) :
  Js.parseZ (ds ++ [d])
  = (10 * Js.parseZ ds + Z.of_nat (nat_of_ascii d - 48))%Z.
Proof. unfold Js.parseZ. by rewrite fold_left_app. Qed.

Lemma parseZ_decimal (ds : str) : Js.parseZ ds = decimal ds.
Proof.
  unfold decimal. rewrite <- (rev_involutive ds) at 1.
  induction (rev ds) as [|d r IH]; [done|].
  simpl. rewrite parseZ_snoc, IH. lia.
Qed.

Lemma span_run (f : ascii -> bool) (a rest : str) :
  Forall (fun x => f x = true) a ->
  (forall c t, rest = c :: t -> f c = false) ->
  Js.span f (a ++ rest) = (a, rest).
Proof.
  intros Ha Hr. destruct rest as [|c t].
  - rewrite app_nil_r. by apply span_all_nil.
  - apply span_app_stop; [done|]. by apply (Hr c t).
Qed.

Lemma digit_facts (d : ascii) :
  Js.isDigit d = true ->
  Js.isSpace d = false /\ Js.eqc d "-" = false /\ Js.eqc d "+" = false.
Proof.
  intros Hd. split; [|split].
  - unfold Js.isDigit, Js.isSpace in *. apply not_true_iff_false.
    rewrite ?orb_true_iff, ?andb_true_iff, ?Nat.leb_le, ?Nat.eqb_eq in *. lia.
  - apply eqc_false. intros ->. by vm_compute in Hd.
  - apply eqc_false. intros ->. by vm_compute in Hd.
Qed.

Lemma parseInt_digits (neg : bool) (ds rest : str) :
  ds <> [] -> Forall Digit ds -> (forall c t, rest = c :: t -> ~ Digit c) ->
  match fst (Js.span Js.isDigit (ds ++ rest)) with
  | [] => None
  | run => Some (if neg then Z.opp (Js.parseZ run) else Js.parseZ run)
  end = Some (if neg then Z.opp (decimal ds) else decimal ds).
Proof.
  intros Hne Hds Hrest. rewrite span_run.
  - simpl. destruct ds; [done|]. by rewrite parseZ_decimal.
  - eapply Forall_impl; [exact Hds|]. intros c. apply Digit_isDigit.
  - intros c t E. apply not_true_iff_false. rewrite <- Digit_isDigit.
    by apply (Hrest c t).
Qed.

Lemma parseInt_no_digit (rest : str) :
  (forall c t, rest = c :: t -> ~ Digit c) ->
  fst (Js.span Js.isDigit rest) = [].
Proof.
  intros Hrest. destruct rest as [|c t]; [done|].
  rewrite span_cons_false; [done|].
  apply not_true_iff_false. rewrite <- Digit_isDigit. by apply (Hrest c t).
Qed.

(** [parseInt] on a trimmed cell reads the index the claim describes. *)
Lemma parseInt_reads (n : str) :
  (forall c t, n = c :: t -> ~ White c) -> IndexReads n (Js.parseInt n).
Proof.
  intros Hhd. split.
  - intros sign ds rest -> Hsign Hne Hds Hrest _.
    destruct ds as [|d ds']; [done|].
    pose proof Hds as Hd. apply Forall_cons in Hd as [Hd _].
    apply Digit_isDigit, digit_facts in Hd as (Hsp & Hm & Hp).
    unfold Js.parseInt.
    destruct Hsign as [->|[->| ->]]; cbn [app].
    + rewrite trimStart_stop by done. rewrite Hm, Hp.
      apply (parseInt_digits false (d :: ds') rest); done.
    + rewrite trimStart_stop by done. rewrite eqc_refl'.
      apply (parseInt_digits true (d :: ds') rest); done.
    + rewrite trimStart_stop by done.
      change (Js.eqc "+" "-") with false. rewrite eqc_refl'.
      apply (parseInt_digits false (d :: ds') rest); done.
  - intros sign rest -> Hsign Hrest. unfold Js.parseInt.
    destruct Hsign as [->|[->| ->]]; cbn [app] in *.
    + destruct rest as [|c t]; [done|].
      rewrite trimStart_stop
        by (by apply not_White_isSpace, (Hhd c t)).
      destruct (Hrest c t eq_refl) as [Hd [Hm Hp]]; [done|].
      apply eqc_false in Hm, Hp. rewrite Hm, Hp.
      rewrite parseInt_no_digit; [done|].
      intros c' t' [= <- <-]. done.
    + rewrite trimStart_stop by done. rewrite eqc_refl'.
      rewrite parseInt_no_digit; [done|].
      intros c t E. by apply (Hrest c t).
    + rewrite trimStart_stop by done.
      change (Js.eqc "+" "-") with false. rewrite eqc_refl'.
      rewrite parseInt_no_digit; [done|].
      intros c t E. by apply (Hrest c t).
Qed.

(** ** The rows of a capture table *)

Lemma isNoMatch_line (l : str) : isNoMatch l = true <-> NoMatchLine l.
Proof.
  assert (Hk : Forall (fun c => nat_of_ascii c < 128) (lit "no-match"))
    by (repeat constructor; vm_compute; lia).
  unfold isNoMatch, NoMatchLine. rewrite eqs_true. split.
  - intros H. exists (Js.trim l). split; [by apply Trimmed_trim|].
    apply Spells_lower; [done|]. by rewrite H.
  - intros (core & ->%Trimmed_trim & Hs).
    apply Spells_lower in Hs; [|done]. by rewrite <- Hs.
Qed.

Lemma isTableRow_bar (l : str) :
  isTableRow l = true <-> BeginsWith ["|"] (Js.trim l).
Proof. unfold isTableRow. apply startsWith_true. Qed.

Lemma trim_head (x : str) (c : ascii) (t : str) :
  Js.trim x = c :: t -> ~ White c.
Proof.
  intros E. destruct (proj2 (Trimmed_trim x (Js.trim x)) eq_refl)
    as (_ & _ & _ & _ & _ & Hhd & _). by apply (Hhd c t).
Qed.

Lemma captureOfRow_entry (l : str) (c : Capture) :
  isTableRow l = true -> captureOfRow (Js.trim l) = Some c -> EntryOf l c.
Proof.
  intros Hrow. unfold captureOfRow.
  destruct (Js.split "|" (Js.trim l)) as [|c0 [|x1 [|x2 more]]] eqn:E;
    try done.
  cbn [map]. destruct (Js.eqs (Js.trim x1) (lit "Group #")) eqn:Eg; [done|].
  destruct (Js.includes (lit "---") (Js.trim x1)) eqn:Ei; [done|].
  cbn [negb andb]. intros [= <-].
  exists (Js.trim l), c0, x1, x2, more, (Js.trim x1), (Js.trim x2).
  split; [by apply Trimmed_trim|]. split; [by apply isTableRow_bar|].
  split; [by apply SplitsInto_split|].
  split; [by apply Trimmed_trim|]. split; [by apply Trimmed_trim|].
  split; [intros H; apply eqs_true in H; congruence|].
  split; [intros H%Holds_includes; congruence|].
  split; [|done]. cbn [index]. apply parseInt_reads.
  intros ch t. apply trim_head.
Qed.

Lemma captureOfRow_no_entry (l : str) :
  isTableRow l = false \/ captureOfRow (Js.trim l) = None ->
  forall c, ~ EntryOf l c.
Proof.
  intros H c (row & c0 & x1 & x2 & more & n & cell & Hrow & Hbar & Hcells
              & Hn & Hcell & Hg & Hd & _).
  apply Trimmed_trim in Hrow, Hn, Hcell. subst row n cell.
  apply isTableRow_bar in Hbar. apply SplitsInto_split in Hcells.
  destruct H as [H|H]; [congruence|].
  unfold captureOfRow in H. rewrite Hcells in H. cbn [map] in H.
  destruct (Js.eqs (Js.trim x1) (lit "Group #")) eqn:Eg;
    [by apply eqs_true in Eg|].
  destruct (Js.includes (lit "---") (Js.trim x1)) eqn:Ei;
    [by apply Holds_includes in Ei|].
  done.
Qed.

Lemma captures_of_rows (content : list str) :
  CapturesOf content
    (omap captureOfRow (map Js.trim (List.filter isTableRow content))).
Proof.
  induction content as [|l content IH]; [constructor|].
  cbn [List.filter]. destruct (isTableRow l) eqn:Erow.
  - cbn [map]. change (omap captureOfRow (Js.trim l :: ?r))
      with (match captureOfRow (Js.trim l) with
            | Some c => c :: omap captureOfRow r
            | None => omap captureOfRow r
            end).
    destruct (captureOfRow (Js.trim l)) as [c|] eqn:Ec.
    + apply captures_take; [by apply captureOfRow_entry | done].
    + apply captures_skip; [apply captureOfRow_no_entry; by right | done].
  - apply captures_skip; [apply captureOfRow_no_entry; by left | done].
Qed.

Lemma existsb_noMatch (content : list str) :
  existsb isNoMatch content = true <-> Exists NoMatchLine content.
Proof.
  rewrite existsb_exists, Exists_exists. split.
  - intros (l & Hl & H). exists l. split; [by apply list_elem_of_In|].
    by apply isNoMatch_line.
  - intros (l & Hl & H). exists l. split; [by apply list_elem_of_In|].
    by apply isNoMatch_line.
Qed.

(** C2 (amended).  A block with a [no-match] line has no captures.  In a
    block without one, the captures are, in line order and with
    duplicates kept, one entry for every content line that, trimmed,
    begins with the bar and splits on the bar into three cells at least,
    the second of which, trimmed, is neither [Group #] nor holds [---];
    the other lines give nothing.  The value of an entry is the third
    cell, trimmed and normalized.  Its index is read from the second
    cell: the integer that an optional sign and the digits after it
    spell (up to fifteen digits), whatever follows the digits, and [NaN]
    when no digit stands there. *)
Theorem regex_captures_by_row (regexName : str) (content : list str) :
  (Exists NoMatchLine content ->
   decodeRegex regexName content = RegexExpectation regexName false None)
  /\ (Forall (fun l => ~ NoMatchLine l) content ->
      exists captures,
        decodeRegex regexName content
        = RegexExpectation regexName true (Some captures)
        /\ CapturesOf content captures).
Proof.
  assert (Hd : decodeRegex regexName content
               = RegexExpectation regexName (negb (existsb isNoMatch content))
                   (if negb (existsb isNoMatch content)
                    then Some (omap captureOfRow
                                 (map Js.trim (List.filter isTableRow content)))
                    else None)).
  { unfold decodeRegex. rewrite regexScan_spec, filter_rows. reflexivity. }
  split.
  - intros H%existsb_noMatch. by rewrite Hd, H.
  - intros H. eexists. split; [|apply captures_of_rows].
    rewrite Hd. destruct (existsb isNoMatch content) eqn:E; [|done].
    apply existsb_noMatch, Exists_exists in E as (l & Hl & Hno).
    rewrite Forall_forall in H. by destruct (H l Hl).
Qed.

(** The index of a signed cell, of a cell with text after its digits and
    of a cell without digits. *)
Example regex_signed_cells :
  decodeRegex (lit "r")
    (map lit ["| -3 | a |"; "| +5 | b |"; "| 7x | c |"; "| -x | d |";
              "|  | e |"; "| 1 |"; "| Group # | Value |"; "no-match?"]%string)
  = RegexExpectation (lit "r") true
      (Some [{| index := Some (-3)%Z; value := lit "a" |};
             {| index := Some 5%Z; value := lit "b" |};
             {| index := Some 7%Z; value := lit "c" |};
             {| index := None; value := lit "d" |};
             {| index := None; value := lit "e" |};
             {| index := Some 1%Z; value := [] |}]).
Proof. reflexivity. Qed.

(** ** The scenarios of the design document *)

Example regex_scenario_B :
  decodeRegex (lit "r") [lit "no-match"] = RegexExpectation (lit "r") false None.
Proof. reflexivity. Qed.

Example folding_scenario_C :
  decodeFolding [lit "Folds: [0-3], [5-5]"]
  = FoldingExpectation [(0, 3); (5, 5)]%Z.
Proof. reflexivity. Qed.

Example escaped_line_scenario_E :
  parseFixtureFile
    (fileOf ["#+NAME: t"; "#+BEGIN_FIXTURE"; ",#+NAME: not a directive";
             "#+END_FIXTURE"; "#+EXPECTED: :type folding"]%string)
  = Ok [{| tc_name := lit "t"; tc_input := lit "#+NAME: not a directive";
           tc_expectations := [FoldingExpectation []] |}].
Proof. reflexivity. Qed.

Example args_reader :
  parseExpectedArgs (lit "#+EXPECTED: :Type regex :name headlineLevel1Regex") !! lit "type"
  = Some (lit "regex")
  /\ parseExpectedArgs (lit "#+EXPECTED: :type  :name x") !! lit "type" = Some [].
Proof. split; reflexivity. Qed.

(** * Further properties of the code *)

(** ** Errors end the compilation *)

(** An error thrown while a block is decoded leaves [parseExpectedBlock]
    and [parseFixtureFile] uncaught, whatever was collected before. *)
Lemma reached_throw_aborts
    (content : str) (i : nat) (tests : list FixtureTestCase)
    (line opening : str) (e cur : nat) (all : list Expectation)
    (expectedLine message : str) :
  let lines := Js.split "010" content in
  ScanReaches lines i tests ->
  lines !! i = Some line -> isNameDirective line = true ->
  lines !! (i + 1) = Some opening -> isBeginFixture opening = true ->
  findEnd lines (i + 2) = Some e ->
  ExpReaches lines (skipBlank lines (e + 1)) cur all ->
  lines !! cur = Some expectedLine -> isExpectedDirective expectedLine = true ->
  expStep lines cur expectedLine all = Throw message ->
  parseFixtureFile content = Throw message.
Proof.
  intros lines Hscan Hi Hname Hopen Hbegin Hend Hexp Hcur Hdir Hstep.
  destruct (exp_reaches_start _ _ _ _ _ Hexp Hcur Hdir) as (l0 & Hl0 & Hd0).
  unfold parseFixtureFile. fold lines.
  rewrite (scan_reaches lines i tests Hscan (S (length lines))) by lia.
  simpl. rewrite Hi. unfold scanStep.
  rewrite Hname, Hopen, Hbegin. simpl.
  replace (i + 1 + 1) with (i + 2) by lia. rewrite Hend, Hl0, Hd0.
  rewrite (exp_reaches lines _ cur all Hexp (S (length lines))) by lia.
  simpl. by rewrite Hcur, Hdir, Hstep.
Qed.

(** X1.  A regex directive without a [:name] argument, or with an empty
    one, makes the compiler throw the missing-name error, which quotes the
    directive line, and the whole compilation ends with that error; with a
    name the directive appends one regex expectation and raises nothing. *)
Theorem regex_without_name_aborts
    (content : str) (i : nat) (tests : list FixtureTestCase)
    (line opening : str) (e cur : nat) (all : list Expectation)
    (expectedLine : str) :
  let lines := Js.split "010" content in
  ScanReaches lines i tests ->
  lines !! i = Some line -> isNameDirective line = true ->
  lines !! (i + 1) = Some opening -> isBeginFixture opening = true ->
  findEnd lines (i + 2) = Some e ->
  ExpReaches lines (skipBlank lines (e + 1)) cur all ->
  lines !! cur = Some expectedLine -> isExpectedDirective expectedLine = true ->
  parseExpectedArgs expectedLine !! lit "type" = Some (lit "regex") ->
  (parseExpectedArgs expectedLine !! lit "name" = None
   \/ parseExpectedArgs expectedLine !! lit "name" = Some [] ->
   parseFixtureFile content = Throw (missingName expectedLine))
  /\ (forall regexName,
        parseExpectedArgs expectedLine !! lit "name" = Some regexName ->
        regexName <> [] ->
        expStep lines cur expectedLine all
        = Ok (skipBlank lines (snd (blockExtent lines cur) + 1),
              all ++ [decodeRegex regexName (fst (blockExtent lines cur))])).
Proof.
  intros lines Hscan Hi Hname Hopen Hbegin Hend Hexp Hcur Hdir Htype. split.
  - intros Hno.
    apply (reached_throw_aborts content i tests line opening e cur all expectedLine);
      try done.
    unfold expStep. destruct (blockExtent _ cur) as [c be].
    unfold decodeBlock. rewrite Htype.
    destruct Hno as [Hno|Hno]; rewrite Hno; reflexivity.
  - intros regexName Hn Hne. unfold expStep.
    destruct (blockExtent _ cur) as [c be].
    unfold decodeBlock. rewrite Htype, Hn.
    destruct regexName; done.
Qed.

Lemma regex_without_name_aborts_witness :
  parseFixtureFile
    (fileOf ["#+NAME: a"; "#+BEGIN_FIXTURE"; "x"; "#+END_FIXTURE";
             "#+EXPECTED: :type regex"; "| 1 | x |"]%string)
  = Throw (missingName (lit "#+EXPECTED: :type regex")).
Proof.
  refine (proj1 (regex_without_name_aborts _ 0 [] (lit "#+NAME: a")
                   (lit "#+BEGIN_FIXTURE") 3 4 []
                   (lit "#+EXPECTED: :type regex") _ _ _ _ _ _ _ _ _ _) _);
    try reflexivity.
  - constructor.
  - constructor.
  - by left.
Defined.

(** ** The directive argument reader *)

Lemma lowerChar_idem (c : ascii) : Js.lowerChar (Js.lowerChar c) = Js.lowerChar c.
Proof. each_char c. Qed.

Lemma lowerChar_word (c : ascii) :
  Js.isWord c = true -> Js.isWord (Js.lowerChar c) = true.
Proof. each_char c. Qed.

Lemma toLowerCase_idem (s : str) : Js.toLowerCase (Js.toLowerCase s) = Js.toLowerCase s.
Proof.
  unfold Js.toLowerCase. induction s as [|c s IH]; [done|].
  simpl. by rewrite lowerChar_idem, IH.
Qed.

Lemma span_snd_In (f : ascii -> bool) (s : str) (c : ascii) :
  In c (snd (Js.span f s)) -> In c s.
Proof.
  induction s as [|x s IH]; simpl; [done|].
  destruct (f x); [|done]. destruct (Js.span f s); simpl in *. tauto.
Qed.

Lemma span_fst_In (f : ascii -> bool) (s : str) (c : ascii) :
  In c (fst (Js.span f s)) -> In c s.
Proof.
  induction s as [|x s IH]; simpl; [done|].
  destruct (f x); [|done]. destruct (Js.span f s); simpl in *. tauto.
Qed.

Lemma trim_In (s : str) (c : ascii) : In c (Js.trim s) -> In c s.
Proof.
  unfold Js.trim, Js.trimEnd, Js.trimStart. intros H.
  apply in_rev, span_snd_In, in_rev, span_snd_In in H. done.
Qed.

Lemma last_In (l : str) (d : ascii) : l <> [] -> In (List.last l d) l.
Proof.
  induction l as [|x l IH]; [done|]. intros _.
  destruct l as [|y l]; [by left|]. right. by apply IH.
Qed.

Lemma matchArg_some (s key val : str) (n : nat) :
  matchArg s = Some (key, val, n) ->
  key <> [] /\ Forall (fun c => Js.isWord c = true) key /\ ~ In ":" val.
Proof.
  unfold matchArg. destruct s as [|c t]; [done|].
  destruct (Js.eqc c ":"); [|done].
  pose proof (span_all Js.isWord t) as Hkey.
  destruct (Js.span Js.isWord t) as [k t1]. simpl in Hkey.
  pose proof (span_all Js.isSpace t1) as Hsp.
  destruct (Js.span Js.isSpace t1) as [sp t2]. simpl in Hsp.
  pose proof (span_all (fun x => negb (Js.eqc x ":")) t2) as Hval.
  destruct (Js.span (fun x => negb (Js.eqc x ":")) t2) as [v t3]. simpl in Hval.
  destruct k as [|k0 k]; [done|]. destruct sp as [|s0 sp]; [done|].
  destruct v as [|v0 v].
  - destruct sp as [|s1 sp]; [done|]. intros [= <- <- <-].
    split; [done|]. split; [done|]. intros [H|[]].
    assert (Hl : Js.isSpace (List.last (s0 :: s1 :: sp) " ") = true).
    { rewrite Forall_forall in Hsp. apply Hsp, list_elem_of_In, last_In. done. }
    simpl in H, Hl. rewrite H in Hl. by vm_compute in Hl.
  - destruct sp; intros [= <- <- <-]; (split; [done|]); (split; [done|]);
      intros H; rewrite Forall_forall in Hval;
      apply list_elem_of_In, Hval in H; done.
Qed.

Arguments matchArg : simpl never.
Arguments matchRange : simpl never.

Lemma parseArgsLoop_inv (P : str -> str -> Prop) (skip : nat) (s : str)
    (args : gmap str str) :
  (forall key val n t, matchArg t = Some (key, val, n) ->
                       P (Js.toLowerCase key) (Js.trim val)) ->
  (forall k v, args !! k = Some v -> P k v) ->
  forall k v, parseArgsLoop skip s args !! k = Some v -> P k v.
Proof.
  intros Hm. revert skip args. induction s as [|c s IH]; intros skip args Ha; simpl.
  - done.
  - destruct skip as [|skip]; [|by apply IH].
    destruct (matchArg (c :: s)) as [[[key val] n]|] eqn:E; [|by apply IH].
    apply IH. intros k v. rewrite lookup_insert.
    destruct (decide (Js.toLowerCase key = k)) as [<-|Hne].
    + intros [= <-]. by eapply Hm.
    + apply Ha.
Qed.

Lemma parseArgsLoop_no_colon (skip : nat) (s : str) (args : gmap str str) :
  ~ In ":" s -> parseArgsLoop skip s args = args.
Proof.
  revert skip. induction s as [|c s IH]; intros skip Hs; simpl; [done|].
  assert (Hc : Js.eqc c ":" = false).
  { apply eqc_false. intros ->. apply Hs. by left. }
  assert (Hs' : ~ In ":" s) by (intros H; apply Hs; by right).
  destruct skip; [|by apply IH].
  replace (matchArg (c :: s)) with (@None (str * str * nat))
    by (unfold matchArg; by rewrite Hc).
  by apply IH.
Qed.

(** X2.  In the mapping read from a directive line every key is a
    non-empty word in lower case and every value is trimmed and holds no
    colon; a line without a colon gives the empty mapping. *)
Theorem args_are_normalized (line : str) :
  (~ In ":" line -> parseExpectedArgs line = ∅)
  /\ forall key val,
       parseExpectedArgs line !! key = Some val ->
       key <> [] /\ Forall (fun c => Js.isWord c = true) key
       /\ Js.toLowerCase key = key
       /\ Js.trim val = val /\ ~ In ":" val.
Proof.
  split; [apply parseArgsLoop_no_colon|].
  apply (parseArgsLoop_inv
           (fun key val => key <> [] /\ Forall (fun c => Js.isWord c = true) key
                           /\ Js.toLowerCase key = key
                           /\ Js.trim val = val /\ ~ In ":" val)).
  - intros key val n t Hm. apply matchArg_some in Hm as (Hk & Hw & Hv).
    split; [by destruct key|]. split.
    { unfold Js.toLowerCase. apply Forall_fmap. eapply Forall_impl; [apply Hw|].
      intros c. apply lowerChar_word. }
    split; [apply toLowerCase_idem|]. split; [apply trim_idem|].
    intros H. by apply trim_In in H.
  - intros k v. by rewrite lookup_empty.
Qed.

(** ** Where a block and a run of directives end *)

Lemma scanBlock_next (rest : list str) (j : nat) (acc : list str) (t : str) :
  1 <= j ->
  rest !! (snd (scanBlock rest j acc (j - 1)) + 1 - j) = Some t ->
  isTerminator t = true.
Proof.
  revert j acc. induction rest as [|l rest IH]; intros j acc Hj; simpl; [done|].
  destruct (isTerminator l) eqn:E; simpl.
  - replace (j - 1 + 1 - j) with 0 by lia. by intros [= <-].
  - pose proof (scanBlock_ge rest (S j) (acc ++ [l]) ltac:(lia)) as Hge.
    specialize (IH (S j) (acc ++ [l]) ltac:(lia)).
    replace (S j - 1) with j in * by lia.
    set (e := snd (scanBlock rest (S j) (acc ++ [l]) j)) in *.
    replace (e + 1 - j) with (S (e + 1 - S j)) by lia. apply IH.
Qed.

Lemma terminator_not_blank (t : str) :
  isTerminator t = true -> Js.eqs (Js.trim t) [] = false.
Proof.
  unfold isTerminator. destruct (Js.trim t) as [|c r]; [|done].
  vm_compute. done.
Qed.

Lemma toLowerCase_prefix (p s : str) :
  Js.startsWith p s = true ->
  Js.startsWith (Js.toLowerCase p) (Js.toLowerCase s) = true.
Proof.
  intros [r ->]%startsWith_true. unfold Js.toLowerCase.
  rewrite map_app. apply startsWith_app.
Qed.

(** The upper-case tests of the block extent finder imply the tests of
    the scanner, which fold the case. *)
Lemma terminator_is_directive (t : str) :
  isTerminator t = true ->
  isNameDirective t = true \/ isBeginFixture t = true
  \/ isExpectedDirective t = true
  \/ (isHeadline (Js.trim t) = true /\ Js.includes (lit "=>") (Js.trim t) = false).
Proof.
  unfold isTerminator, isNameDirective, isBeginFixture, isExpectedDirective.
  rewrite !orb_true_iff, andb_true_iff, negb_true_iff.
  intros [[[H|H]|H]|H]; [| | |tauto];
    apply toLowerCase_prefix in H; tauto.
Qed.

Lemma blockExtent_next (lines : list str) (cur : nat) (t : str) :
  lines !! (snd (blockExtent lines cur) + 1) = Some t -> isTerminator t = true.
Proof.
  intros Ht. pose proof (blockExtent_ge lines cur) as Hge.
  unfold blockExtent in *.
  eapply (scanBlock_next (drop (cur + 1) lines) (cur + 1) []); [lia|].
  replace (cur + 1 - 1) with cur by lia.
  rewrite lookup_drop. rewrite <- Ht. f_equal. lia.
Qed.

Lemma skipBlank_block_end (lines : list str) (cur : nat) :
  skipBlank lines (snd (blockExtent lines cur) + 1)
  = snd (blockExtent lines cur) + 1.
Proof.
  set (be := snd (blockExtent lines cur)).
  unfold skipBlank. destruct (drop (be + 1) lines) as [|t rest] eqn:E; [done|].
  assert (Ht : lines !! (be + 1) = Some t).
  { rewrite <- (Nat.add_0_r (be + 1)), <- lookup_drop, E. done. }
  simpl. by rewrite (terminator_not_blank t (blockExtent_next lines cur t Ht)).
Qed.

Lemma scanBlock_le (rest : list str) (j : nat) (acc : list str) :
  1 <= j -> snd (scanBlock rest j acc (j - 1)) <= j - 1 + length rest.
Proof.
  revert j acc. induction rest as [|l rest IH]; intros j acc Hj; simpl; [lia|].
  destruct (isTerminator l); simpl; [lia|].
  specialize (IH (S j) (acc ++ [l]) ltac:(lia)).
  replace (S j - 1) with j in IH by lia. lia.
Qed.

Lemma blockExtent_lt (lines : list str) (cur : nat) :
  cur < length lines -> snd (blockExtent lines cur) < length lines.
Proof.
  intros Hlt. unfold blockExtent.
  pose proof (scanBlock_le (drop (cur + 1) lines) (cur + 1) [] ltac:(lia)) as Hc.
  replace (cur + 1 - 1) with cur in Hc by lia.
  rewrite length_drop in Hc. lia.
Qed.

(** X3.  The line after the last line of a block, when there is one, is a
    terminator, hence not blank: the loop that skips blank lines behind a
    block never moves, and the next directive of a run has to stand right
    at the end of the block.  The block never ends before its directive
    nor behind the last line of the file. *)
Theorem block_end_is_terminator (lines : list str) (currentIndex : nat) :
  let blockEndIndex := snd (blockExtent lines currentIndex) in
  skipBlank lines (blockEndIndex + 1) = blockEndIndex + 1
  /\ (forall t, lines !! (blockEndIndex + 1) = Some t -> isTerminator t = true)
  /\ currentIndex <= blockEndIndex
  /\ (currentIndex < length lines -> blockEndIndex < length lines).
Proof.
  intros be. split; [apply skipBlank_block_end|].
  split; [apply blockExtent_next|].
  split; [apply blockExtent_ge | apply blockExtent_lt].
Qed.

Lemma expLoop_exit (lines : list str) (fuel cur : nat)
    (all exps : list Expectation) (e : Z) :
  (forall t, lines !! cur = Some t ->
             isExpectedDirective t = true \/ isTerminator t = true) ->
  expLoop fuel lines cur all = Ok (exps, e) ->
  forall t, lines !! Z.to_nat (e + 1) = Some t ->
            isExpectedDirective t = false /\ isTerminator t = true.
Proof.
  revert cur all. induction fuel as [|fuel IH]; intros cur all Hcur; [done|].
  simpl. destruct (lines !! cur) as [l|] eqn:Hl.
  - destruct (isExpectedDirective l) eqn:Hdir.
    + destruct (expStep lines cur l all) as [[next all']| |] eqn:Hs; [|done..].
      rewrite bind_ok. apply IH. intros t Ht. right.
      unfold expStep in Hs. pose proof (skipBlank_block_end lines cur) as Hskip.
      pose proof (blockExtent_next lines cur) as Hterm.
      destruct (blockExtent lines cur) as [c be]. simpl in *.
      destruct (decodeBlock l c); simpl in Hs; [|done..].
      injection Hs as <- <-. rewrite Hskip in Ht. by apply Hterm.
    + intros [= <- <-] t.
      replace (Z.to_nat (Z.of_nat cur - 1 + 1)) with cur by lia.
      rewrite Hl. intros [= <-]. split; [done|].
      destruct (Hcur l eq_refl); congruence.
  - intros [= <- <-] t.
    replace (Z.to_nat (Z.of_nat cur - 1 + 1)) with cur by lia. by rewrite Hl.
Qed.

(** X4.  A run of expectation directives ends at the end of the file or
    at a line that begins, once trimmed, with [#+NAME:] or
    [#+BEGIN_FIXTURE] or that is a headline without [=>]: the index
    returned is the one just before that line, so the compiler's scan
    resumes on it. *)
Theorem run_ends_at_boundary
    (lines : list str) (startIndex : nat) (first : str)
    (expectations : list Expectation) (endIndex : Z) :
  lines !! startIndex = Some first -> isExpectedDirective first = true ->
  parseExpectedBlock lines startIndex = Ok (expectations, endIndex) ->
  (Z.of_nat startIndex <= endIndex < Z.of_nat (length lines))%Z
  /\ forall t, lines !! Z.to_nat (endIndex + 1) = Some t ->
       isExpectedDirective t = false
       /\ (Js.startsWith (lit "#+NAME:") (Js.trim t) = true
           \/ Js.startsWith (lit "#+BEGIN_FIXTURE") (Js.trim t) = true
           \/ (isHeadline (Js.trim t) = true
               /\ Js.includes (lit "=>") (Js.trim t) = false)).
Proof.
  intros Hfirst Hdir Hparse. unfold parseExpectedBlock in Hparse.
  pose proof (expLoop_end _ _ _ _ _ _ Hparse) as [_ Hlow].
  specialize (Hlow first Hfirst Hdir).
  assert (Hexit : forall t, lines !! Z.to_nat (endIndex + 1) = Some t ->
            isExpectedDirective t = false /\ isTerminator t = true).
  { eapply expLoop_exit; [|exact Hparse].
    intros t Ht. left. congruence. }
  split.
  - split; [done|].
    assert (Hup : forall fuel cur all exps e,
              cur <= length lines ->
              expLoop fuel lines cur all = Ok (exps, e) ->
              (e < Z.of_nat (length lines))%Z).
    { clear. induction fuel as [|fuel IH]; intros cur all exps e Hc; [done|].
      simpl. destruct (lines !! cur) as [l|] eqn:Hl.
      - destruct (isExpectedDirective l).
        + destruct (expStep lines cur l all) as [[next all']| |] eqn:Hs; [|done..].
          rewrite bind_ok. apply IH. unfold expStep in Hs.
          pose proof (skipBlank_block_end lines cur) as Hskip.
          pose proof (blockExtent_lt lines cur) as Hlt.
          destruct (blockExtent lines cur) as [c be]. simpl in *.
          destruct (decodeBlock l c); simpl in Hs; [|done..].
          injection Hs as <- <-. rewrite Hskip.
          apply lookup_lt_Some in Hl. specialize (Hlt Hl). lia.
        + intros [= <- <-]. apply lookup_lt_Some in Hl. lia.
      - intros [= <- <-]. lia. }
    eapply Hup; [|exact Hparse]. apply lookup_lt_Some in Hfirst. lia.
  - intros t Ht. destruct (Hexit t Ht) as [Hno Hterm]. split; [done|].
    unfold isTerminator in Hterm. revert Hterm.
    rewrite !orb_true_iff, andb_true_iff, negb_true_iff.
    intros [[[H|H]|H]|H]; [by left | by right; left | | by right; right].
    apply toLowerCase_prefix in H. unfold isExpectedDirective in Hno.
    change (Js.toLowerCase (lit "#+EXPECTED:")) with (lit "#+expected:") in H.
    congruence.
Qed.

Lemma run_ends_at_boundary_witness :
  (0 <= 1 < 3)%Z
  /\ forall t,
       map lit ["#+EXPECTED: :type folding"; "[0-1]"; "#+NAME: b"]%string
         !! Z.to_nat (1 + 1) = Some t ->
       isExpectedDirective t = false
       /\ (Js.startsWith (lit "#+NAME:") (Js.trim t) = true
           \/ Js.startsWith (lit "#+BEGIN_FIXTURE") (Js.trim t) = true
           \/ (isHeadline (Js.trim t) = true
               /\ Js.includes (lit "=>") (Js.trim t) = false)).
Proof.
  apply (run_ends_at_boundary
           (map lit ["#+EXPECTED: :type folding"; "[0-1]"; "#+NAME: b"]%string)
           0 (lit "#+EXPECTED: :type folding") [FoldingExpectation [(0, 1)%Z]] 1);
    reflexivity.
Defined.

(** ** Folding ranges *)

Lemma span_app_stopchar (f : ascii -> bool) (a : str) (c : ascii) (b : str) :
  f c = false ->
  Js.span f (a ++ c :: b) = (fst (Js.span f a), snd (Js.span f a) ++ c :: b).
Proof.
  intros Hc. induction a as [|x a IH]; simpl.
  - by rewrite Hc.
  - destruct (f x); [|done]. rewrite IH. by destruct (Js.span f a).
Qed.

Lemma space_not_range (c : ascii) :
  Js.isSpace c = true ->
  Js.isDigit c = false /\ Js.eqc c "[" = false /\ Js.eqc c "-" = false
  /\ Js.eqc c "]" = false.
Proof. each_char c. Qed.

Lemma matchRange_app_space (a : str) (c : ascii) (b : str) :
  Js.isSpace c = true -> matchRange (a ++ c :: b) = matchRange a.
Proof.
  intros Hc. destruct (space_not_range c Hc) as (Hd & Hb & Hm & He).
  unfold matchRange. destruct a as [|x a]; simpl; [by rewrite Hb|].
  destruct (Js.eqc x "["); [|done].
  rewrite span_app_stopchar by done.
  destruct (Js.span Js.isDigit a) as [d1 t1]. simpl.
  destruct d1 as [|d d1]; [done|].
  destruct t1 as [|c1 t2]; simpl; [by rewrite Hm|].
  destruct (Js.eqc c1 "-"); [|done].
  rewrite span_app_stopchar by done.
  destruct (Js.span Js.isDigit t2) as [d2 t3]. simpl.
  destruct d2 as [|d' d2]; [done|].
  destruct t3 as [|c2 t4]; simpl; [by rewrite He|]. done.
Qed.

Lemma matchRange_space_head (c : ascii) (b : str) :
  Js.isSpace c = true -> matchRange (c :: b) = None.
Proof. intros Hc. exact (matchRange_app_space [] c b Hc). Qed.

Lemma matchRange_len (s : str) (r : Z * Z) (n : nat) :
  matchRange s = Some (r, n) ->
  1 <= n <= length s /\ (0 <= fst r)%Z /\ (0 <= snd r)%Z.
Proof.
  assert (Hz : forall ds, (0 <= Js.parseZ ds)%Z).
  { intros ds. unfold Js.parseZ.
    assert (H : forall acc, (0 <= acc)%Z ->
      (0 <= fold_left (fun acc c => 10 * acc + Z.of_nat (Js.digitVal c))%Z ds acc)%Z).
    { induction ds as [|d ds IH]; intros acc Ha; simpl; [done|]. apply IH. lia. }
    by apply H. }
  unfold matchRange. destruct s as [|x a]; [done|].
  destruct (Js.eqc x "["); [|done].
  pose proof (span_app Js.isDigit a) as H1.
  destruct (Js.span Js.isDigit a) as [d1 t1]. simpl in H1.
  destruct d1 as [|d d1]; [done|]. destruct t1 as [|c1 t2]; [done|].
  destruct (Js.eqc c1 "-"); [|done].
  pose proof (span_app Js.isDigit t2) as H2.
  destruct (Js.span Js.isDigit t2) as [d2 t3]. simpl in H2.
  destruct d2 as [|d' d2]; [done|]. destruct t3 as [|c2 t4]; [done|].
  destruct (Js.eqc c2 "]"); [|done]. intros [= <- <-].
  split; [|split; apply Hz].
  subst a t2. simpl. rewrite !length_app. simpl. rewrite !length_app. simpl. lia.
Qed.

Lemma foldingLoop_space (a : str) (c : ascii) (b : str) (k : nat)
    (acc : list (Z * Z)) :
  Js.isSpace c = true -> k <= length a ->
  foldingLoop k (a ++ c :: b) acc = foldingLoop 0 b (foldingLoop k a acc).
Proof.
  intros Hc. revert k acc. induction a as [|x a IH]; intros k acc Hk.
  - replace k with 0 by (simpl in Hk; lia). simpl.
    by rewrite (matchRange_space_head c b Hc).
  - simpl in Hk. destruct k as [|k]; simpl.
    + pose proof (matchRange_app_space (x :: a) c b Hc) as Hx.
      simpl in Hx. rewrite Hx.
      destruct (matchRange (x :: a)) as [[r n]|] eqn:E.
      * apply matchRange_len in E. simpl in E. apply IH. lia.
      * apply IH. lia.
    + apply IH. lia.
Qed.

Lemma foldingLoop_spaces (ws s : str) (acc : list (Z * Z)) :
  Forall (fun c => Js.isSpace c = true) ws ->
  foldingLoop 0 (ws ++ s) acc = foldingLoop 0 s acc.
Proof.
  induction 1 as [|c ws Hc _ IH]; [done|].
  rewrite <- app_comm_cons.
  change (foldingLoop 0 (c :: ws ++ s) acc)
    with (match matchRange (c :: ws ++ s) with
          | Some (r, n) => foldingLoop (pred n) (ws ++ s) (acc ++ [r])
          | None => foldingLoop 0 (ws ++ s) acc
          end).
  by rewrite (matchRange_space_head c (ws ++ s) Hc).
Qed.

Lemma foldingLoop_acc (s : str) (k : nat) (acc : list (Z * Z)) :
  foldingLoop k s acc = acc ++ foldingLoop k s [].
Proof.
  revert k acc. induction s as [|c s IH]; intros k acc; simpl.
  - by rewrite app_nil_r.
  - destruct k; [|apply IH].
    destruct (matchRange (c :: s)) as [[r n]|]; [|apply IH].
    rewrite (IH _ (acc ++ [r])), (IH _ ([] ++ [r])). by rewrite <- app_assoc.
Qed.

Lemma rangesOf_trim (s : str) : rangesOf (Js.trim s) = rangesOf s.
Proof.
  unfold rangesOf, Js.trim.
  destruct (trimStart_decompose s) as (ws & Hws & Hs & _).
  rewrite Hs at 2. rewrite foldingLoop_spaces by done.
  destruct (trimEnd_decompose (Js.trimStart s)) as (we & Hwe & He).
  rewrite He at 2. destruct Hwe as [|c we Hc Hwe]; [by rewrite app_nil_r|].
  rewrite foldingLoop_space by (done || lia).
  rewrite <- (app_nil_r we), foldingLoop_spaces by done. done.
Qed.

Lemma rangesOf_join (content : list str) :
  rangesOf (Js.join [" "] content) = flat_map rangesOf content.
Proof.
  unfold rangesOf. induction content as [|l content IH]; [done|].
  destruct content as [|l' content]; [simpl; by rewrite app_nil_r|].
  change (Js.join [" "] (l :: l' :: content))
    with (l ++ " " :: Js.join [" "] (l' :: content)).
  rewrite foldingLoop_space by (done || lia).
  rewrite foldingLoop_acc, IH. done.
Qed.

(** X5.  The ranges of a folding block are the ranges written on its
    lines, line after line and from left to right on each: a range is
    never read across the end of a line, and white space around the block
    changes nothing.  The two ends of every range are non-negative. *)
Theorem folding_ranges_line_by_line (blockContentLines : list str) :
  decodeFolding blockContentLines
  = FoldingExpectation (flat_map rangesOf blockContentLines)
  /\ Forall (fun r => (0 <= fst r)%Z /\ (0 <= snd r)%Z)
       (flat_map rangesOf blockContentLines).
Proof.
  split.
  - unfold decodeFolding. fold (rangesOf (Js.trim (Js.join [" "] blockContentLines))).
    by rewrite rangesOf_trim, rangesOf_join.
  - apply Forall_flat_map, Forall_forall. intros l _. unfold rangesOf.
    assert (H : forall s k acc,
      Forall (fun r => (0 <= fst r)%Z /\ (0 <= snd r)%Z) acc ->
      Forall (fun r => (0 <= fst r)%Z /\ (0 <= snd r)%Z) (foldingLoop k s acc)).
    { induction s as [|c s IH]; intros k acc Ha; simpl; [done|].
      destruct k; [|by apply IH].
      destruct (matchRange (c :: s)) as [[r n]|] eqn:E; [|by apply IH].
      apply IH. apply Forall_app. split; [done|].
      apply matchRange_len in E. repeat constructor; tauto. }
    by apply H.
Qed.

(** ** The comma escape of fixture lines *)

Lemma trim_after_spaces (ws : str) (c : ascii) (l : str) :
  Forall (fun x => Js.isSpace x = true) ws -> Js.isSpace c = false ->
  Js.trim (ws ++ c :: l) = c :: Js.trimEnd l.
Proof.
  intros Hws Hc. unfold Js.trim.
  by rewrite trimStart_spaces, trimStart_stop, trimEnd_cons.
Qed.

(** X6.  A fixture line that starts, after white space, with a comma is
    never taken for a directive, whatever follows the comma, and it enters
    the input without that one comma; a line that does not start with a
    comma enters the input as it is. *)
Theorem comma_escape (ws l : str) :
  Forall (fun c => Js.isSpace c = true) ws ->
  (Forall (fun c => Js.isDot c = true) l -> stripComma (ws ++ "," :: l) = ws ++ l)
  /\ isNameDirective (ws ++ "," :: l) = false
  /\ isBeginFixture (ws ++ "," :: l) = false
  /\ isEndFixture (ws ++ "," :: l) = false
  /\ isExpectedDirective (ws ++ "," :: l) = false
  /\ (forall c, Js.isSpace c = false -> c <> "," ->
                stripComma (ws ++ c :: l) = ws ++ c :: l)
  /\ stripComma ws = ws.
Proof.
  intros Hws.
  assert (Hcomma : Js.isSpace "," = false) by done.
  split; [|split; [|split; [|split; [|split; [|split]]]]].
  - intros Hl. unfold stripComma. rewrite span_app_stop by done.
    by rewrite eqc_refl', span_all_nil.
  - unfold isNameDirective. by rewrite trim_after_spaces.
  - unfold isBeginFixture. by rewrite trim_after_spaces.
  - unfold isEndFixture. by rewrite trim_after_spaces.
  - unfold isExpectedDirective. by rewrite trim_after_spaces.
  - intros c Hc Hne. unfold stripComma. rewrite span_app_stop by done.
    replace (Js.eqc c ",") with false; [done|]. symmetry. by apply eqc_false.
  - unfold stripComma. by rewrite span_all_nil.
Qed.

Lemma comma_escape_witness :
  stripComma (lit "  ,#+END_FIXTURE") = lit "  #+END_FIXTURE"
  /\ isEndFixture (lit "  ,#+END_FIXTURE") = false.
Proof.
  split.
  - refine (proj1 (comma_escape (lit "  ") (lit "#+END_FIXTURE") _) _);
      repeat constructor.
  - refine (proj1 (proj2 (proj2 (proj2
              (comma_escape (lit "  ") (lit "#+END_FIXTURE") _)))));
      repeat constructor.
Defined.

(** X7.  In an escaped line the text from the first carriage return on is
    lost: the dot of the pattern stops there.  An escaped line of a file
    with CRLF line ends enters the input without its carriage return,
    while a line that is not escaped keeps it. *)
Theorem comma_escape_drops_carriage_return (ws a b : str) :
  Forall (fun c => Js.isSpace c = true) ws ->
  Forall (fun c => Js.isDot c = true) a ->
  stripComma (ws ++ "," :: a ++ "013" :: b) = ws ++ a
  /\ (forall c, Js.isSpace c = false -> c <> "," ->
        stripComma (c :: a ++ ["013"]) = c :: a ++ ["013"]).
Proof.
  intros Hws Ha. split.
  - unfold stripComma. rewrite span_app_stop by done.
    by rewrite eqc_refl', span_app_stop.
  - intros c Hc Hne. unfold stripComma. rewrite span_cons_false by done.
    replace (Js.eqc c ",") with false; [done|]. symmetry. by apply eqc_false.
Qed.

Lemma comma_escape_drops_carriage_return_witness :
  stripComma (lit ",* Heading" ++ ["013"]) = lit "* Heading".
Proof.
  refine (proj1 (comma_escape_drops_carriage_return [] (lit "* Heading") [] _ _));
    repeat constructor.
Defined.

(** ** Lines and text *)

Lemma join_split (content : str) :
  Js.join ["010"] (Js.split "010" content) = content.
Proof.
  induction content as [|x s IH]; [done|]. rewrite split_cons.
  destruct (Js.eqc x "010") eqn:E.
  - apply eqc_true in E as ->.
    rewrite join_cons by apply split_not_nil. simpl. by rewrite IH.
  - pose proof (split_not_nil "010" s) as Hne.
    destruct (Js.split "010" s) as [|h r]; [done|].
    destruct r as [|h' r]; simpl in *; by rewrite <- IH.
Qed.

Lemma split_no_lf (content : str) :
  Forall (fun l => ~ In "010" l) (Js.split "010" content).
Proof.
  induction content as [|x s IH]; [constructor; [intros []|constructor]|].
  rewrite split_cons.
  destruct (Js.eqc x "010") eqn:E; [constructor; [intros []|done]|].
  destruct (Js.split "010" s) as [|h r]; [repeat constructor|].
  - intros [->|[]]. by rewrite eqc_refl' in E.
  - apply Forall_cons in IH as [Hh Hr]. constructor; [|done].
    intros [->|H]; [by rewrite eqc_refl' in E | done].
Qed.

Lemma split_join (ls : list str) :
  ls <> [] -> Forall (fun l => ~ In "010" l) ls ->
  Js.split "010" (Js.join ["010"] ls) = ls.
Proof.
  intros Hne Hall. induction Hall as [|l ls Hl Hls IH]; [done|].
  destruct ls as [|l' ls].
  - simpl. clear IH Hne. induction l as [|x l IHl]; [done|].
    rewrite split_cons.
    replace (Js.eqc x "010") with false
      by (symmetry; apply eqc_false; intros ->; apply Hl; by left).
    rewrite IHl; [done|]. intros H. apply Hl. by right.
  - rewrite join_cons by done. specialize (IH ltac:(done)).
    clear Hne. induction l as [|x l IHl].
    + cbn [app]. rewrite split_cons, eqc_refl'. by rewrite IH.
    + rewrite <- app_comm_cons, split_cons.
      replace (Js.eqc x "010") with false
        by (symmetry; apply eqc_false; intros ->; apply Hl; by left).
      rewrite IHl; [done|]. intros H. apply Hl. by right.
Qed.

(** X8.  Splitting a text at the line feeds and joining the lines with a
    line feed are inverse to each other: the lines the compiler scans hold
    no line feed and give back the content, and an input joined from
    lines without line feed splits into those lines.  The exception is the
    empty list of lines, whose join is the join of one empty line. *)
Theorem split_join_round_trip (content : str) (fixtureLines : list str) :
  Js.join ["010"] (Js.split "010" content) = content
  /\ Forall (fun l => ~ In "010" l) (Js.split "010" content)
  /\ (fixtureLines <> [] -> Forall (fun l => ~ In "010" l) fixtureLines ->
      Js.split "010" (Js.join ["010"] fixtureLines) = fixtureLines)
  /\ Js.join ["010"] [] = Js.join ["010"] [[]].
Proof.
  split; [apply join_split|]. split; [apply split_no_lf|].
  split; [apply split_join | done].
Qed.

Lemma split_join_round_trip_witness :
  Js.split "010" (Js.join ["010"] (map lit ["a"; ""; "b"]%string))
  = map lit ["a"; ""; "b"]%string.
Proof.
  refine (proj1 (proj2 (proj2 (split_join_round_trip [] _))) _ _).
  - done.
  - repeat constructor; vm_compute; intuition discriminate.
Defined.

(** ** The names of the test cases *)

Lemma scanStep_name (lines : list str) (i : nat) (line : str)
    (tests : list FixtureTestCase) (next : nat) (tests' : list FixtureTestCase) :
  scanStep lines i line tests = Ok (next, tests') ->
  tests' = tests
  \/ (isNameDirective line = true
      /\ exists tc, tests' = tests ++ [tc] /\ tc_name tc = testNameOf line).
Proof.
  unfold scanStep.
  destruct (isNameDirective line); simpl; [|intros [= _ <-]; by left].
  destruct (lines !! (i + 1)) as [opening|]; [|intros [= _ <-]; by left].
  destruct (isBeginFixture opening); simpl; [|intros [= _ <-]; by left].
  destruct (findEnd lines (i + 1 + 1)) as [e|]; [|intros [= _ <-]; by left].
  destruct (lines !! skipBlank lines (e + 1)) as [la|]; [|intros [= _ <-]; by left].
  destruct (isExpectedDirective la); [|intros [= _ <-]; by left].
  destruct (parseExpectedBlock lines _) as [[exps endIndex]| |]; [|done..].
  rewrite bind_ok. intros [= _ <-]. right. split; [done|]. eauto.
Qed.

Lemma namesOf_take (lines : list str) (i next : nat) (line : str) :
  lines !! i = Some line -> i < next ->
  exists rest,
    namesOf (take next lines)
    = namesOf (take i lines)
      ++ (if isNameDirective line then [testNameOf line] else []) ++ rest.
Proof.
  intros Hl Hn. unfold namesOf.
  replace next with (i + S (next - i - 1)) by lia.
  rewrite <- take_take_drop, List.filter_app, map_app.
  rewrite (drop_S _ _ _ Hl). cbn [take List.filter].
  exists (map testNameOf
            (List.filter isNameDirective (take (next - i - 1) (drop (S i) lines)))).
  f_equal. by destruct (isNameDirective line).
Qed.

Lemma scanLoop_names (lines : list str) (fuel i : nat)
    (tests out : list FixtureTestCase) :
  scanLoop fuel lines i tests = Ok out ->
  map tc_name tests `sublist_of` namesOf (take i lines) ->
  map tc_name out `sublist_of` namesOf lines.
Proof.
  revert i tests. induction fuel as [|fuel IH]; intros i tests; [done|].
  simpl. destruct (lines !! i) as [line|] eqn:Hl.
  - destruct (scanStep lines i line tests) as [[next tests']| |] eqn:Hs; [|done..].
    rewrite bind_ok. intros Hloop Hsub. apply (IH next tests' Hloop).
    pose proof (scanStep_progress _ _ _ _ _ _ Hs) as Hlt.
    destruct (namesOf_take lines i next line Hl Hlt) as [rest ->].
    apply scanStep_name in Hs as [->|(Hname & tc & -> & Htc)].
    + by apply sublist_inserts_r.
    + rewrite Hname, map_app, app_assoc. apply sublist_inserts_r.
      apply sublist_app; [done|]. simpl. by rewrite Htc.
  - intros [= <-]. apply lookup_ge_None_1 in Hl. by rewrite take_ge.
Qed.

(** X9.  The names of the test cases a file compiles to are names given
    by its name directives, in the order of the file and each directive
    used at most once: no test case is made up or emitted twice, and there
    are never more test cases than name directives. *)
Theorem test_names_come_from_directives
    (content : str) (out : list FixtureTestCase) :
  parseFixtureFile content = Ok out ->
  map tc_name out `sublist_of` namesOf (Js.split "010" content)
  /\ length out <= length (List.filter isNameDirective (Js.split "010" content)).
Proof.
  intros Hout. unfold parseFixtureFile in Hout.
  assert (Hsub : map tc_name out `sublist_of` namesOf (Js.split "010" content)).
  { eapply scanLoop_names; [exact Hout|]. apply sublist_nil_l. }
  split; [done|]. apply sublist_length in Hsub.
  unfold namesOf in Hsub. by rewrite !length_map in Hsub.
Qed.

Lemma test_names_come_from_directives_witness :
  map tc_name
    [{| tc_name := lit "b"; tc_input := lit "y";
        tc_expectations := [FoldingExpectation [(2, 3)%Z]] |}]
  `sublist_of`
  namesOf (Js.split "010"
             (fileOf ["#+NAME: a"; "#+BEGIN_FIXTURE"; "x"; "#+END_FIXTURE"; "";
                      "#+NAME: b"; "#+BEGIN_FIXTURE"; "y"; "#+END_FIXTURE";
                      "#+EXPECTED: :type folding"; "[2-3]"]%string)).
Proof.
  refine (proj1 (test_names_come_from_directives
                   (fileOf ["#+NAME: a"; "#+BEGIN_FIXTURE"; "x"; "#+END_FIXTURE"; "";
                            "#+NAME: b"; "#+BEGIN_FIXTURE"; "y"; "#+END_FIXTURE";
                            "#+EXPECTED: :type folding"; "[2-3]"]%string) _ _)).
  reflexivity.
Defined.

(** ** The value normalizer on plain text *)

Lemma matchSp_hit (ds s : str) :
  ds <> [] -> Forall (fun c => Js.isDigit c = true) ds ->
  matchSp (lit "<sp:" ++ ds ++ ">" :: s)
  = Some (repeat " " (Js.parseNat ds), 4 + length ds + 1).
Proof.
  intros Hne Hds. unfold matchSp. rewrite startsWith_app.
  change (skipn 4 (lit "<sp:" ++ ds ++ ">" :: s)) with (ds ++ ">" :: s).
  rewrite span_app_stop by done. destruct ds; done.
Qed.

Lemma sp_hit (ds s : str) :
  ds <> [] -> Forall (fun c => Js.isDigit c = true) ds ->
  Js.replaceAll matchSp 0 (lit "<sp:" ++ ds ++ ">" :: s)
  = repeat " " (Js.parseNat ds) ++ Js.replaceAll matchSp 0 s.
Proof.
  intros Hne Hds.
  rewrite (replaceAll_match matchSp _ _ _ (matchSp_hit ds s Hne Hds)) by (done || lia).
  f_equal. f_equal.
  replace (lit "<sp:" ++ ds ++ ">" :: s) with ((lit "<sp:" ++ ds ++ [">"]) ++ s)
    by (by rewrite <- !app_assoc).
  apply drop_app_length'. rewrite !length_app. simpl. lia.
Qed.

Lemma plain_sp (a : str) :
  Forall (fun c => c <> "<") a -> Js.replaceAll matchSp 0 a = a.
Proof. intros Ha. rewrite <- (app_nil_r a) at 1. by rewrite sp_over, app_nil_r. Qed.

Lemma plain_tab (a : str) :
  Forall (fun c => c <> "<") a -> Js.replaceAll matchTab 0 a = a.
Proof. intros Ha. rewrite <- (app_nil_r a) at 1. by rewrite tab_over, app_nil_r. Qed.

Lemma plain_pipe (a : str) :
  Forall (fun c => c <> "<") a -> Js.replaceAll matchPipe 0 a = a.
Proof. intros Ha. rewrite <- (app_nil_r a) at 1. by rewrite pipe_over, app_nil_r. Qed.

(** X10.  The normalizer leaves text without [<] as it is, and a token
    that stands between two such texts is replaced by its characters and
    nothing else changes: [<sp:N>] by N spaces (none for N = 0), [<tab>]
    by a tab, [<pipe>] by a bar. *)
Theorem normalizer_on_plain_text (a b : str) :
  Forall (fun c => c <> "<") a -> Forall (fun c => c <> "<") b ->
  processExpectedValue a = a
  /\ processExpectedValue (a ++ lit "<tab>" ++ b) = a ++ "009" :: b
  /\ processExpectedValue (a ++ lit "<pipe>" ++ b) = a ++ "|" :: b
  /\ forall ds, ds <> [] -> Forall (fun c => Js.isDigit c = true) ds ->
       processExpectedValue (a ++ lit "<sp:" ++ ds ++ ">" :: b)
       = a ++ repeat " " (Js.parseNat ds) ++ b.
Proof.
  intros Ha Hb. unfold processExpectedValue. split; [|split; [|split]].
  - by rewrite plain_sp, plain_tab, plain_pipe.
  - rewrite sp_over by done. cbn [lit list_ascii_of_string app].
    rewrite (replaceAll_pass matchSp) by done.
    rewrite sp_over_tab, plain_sp by done.
    rewrite tab_over, tab_hit, plain_tab by done.
    rewrite pipe_over, pipe_over_tabchar, plain_pipe by done. done.
  - rewrite sp_over by done. cbn [lit list_ascii_of_string app].
    rewrite (replaceAll_pass matchSp) by done.
    rewrite sp_over_pipe, plain_sp by done.
    rewrite tab_over, (replaceAll_pass matchTab) by done.
    rewrite tab_over_pipe, plain_tab by done.
    rewrite pipe_over, pipe_hit, plain_pipe by done. done.
  - intros ds Hne Hds. rewrite sp_over, sp_hit, plain_sp by done.
    assert (Hall : Forall (fun c : ascii => c <> "<")
                     (a ++ repeat " " (Js.parseNat ds) ++ b)).
    { apply Forall_app. split; [done|]. apply Forall_app. split; [|done].
      apply spaces_not_lt. }
    by rewrite plain_tab, plain_pipe.
Qed.

Lemma normalizer_on_plain_text_witness :
  processExpectedValue (lit "a b" ++ lit "<sp:" ++ lit "03" ++ ">" :: lit "c")
  = lit "a b" ++ repeat " " (Js.parseNat (lit "03")) ++ lit "c".
Proof.
  refine (proj2 (proj2 (proj2 (normalizer_on_plain_text (lit "a b") (lit "c") _ _)))
            (lit "03") _ _); try done; repeat constructor; done.
Defined.

(** ** Symbol lines *)

Lemma expandTabs_plain (s : str) :
  Forall (fun c => c <> "009") s -> expandTabs s = s.
Proof.
  induction 1 as [|c s Hc _ IH]; [done|]. rewrite expandTabs_cons, IH.
  replace (Js.eqc "009" c) with false; [done|].
  symmetry. apply eqc_false. congruence.
Qed.

Lemma digitsThen_hit (stop : ascii) (ds rest : str) :
  ds <> [] -> Forall (fun c => Js.isDigit c = true) ds ->
  Js.isDigit stop = false ->
  digitsThen stop (ds ++ stop :: rest) = Some (Js.parseZ ds, rest).
Proof.
  intros Hne Hds Hstop. unfold digitsThen. rewrite span_app_stop by done.
  destruct ds; [done|]. by rewrite eqc_refl'.
Qed.

Lemma span_one_space (c c' : ascii) (t : str) :
  Js.isSpace c = true -> Js.isSpace c' = false ->
  Js.span Js.isSpace (c :: c' :: t) = ([c], c' :: t).
Proof.
  intros Hc Hc'. apply (span_app_stop Js.isSpace [c] c' t); [|done].
  by repeat constructor.
Qed.

Lemma symTail_hit (d1 d2 d3 d4 rest : str) :
  d1 <> [] -> d2 <> [] -> d3 <> [] -> d4 <> [] ->
  Forall (fun c => Js.isDigit c = true) d1 ->
  Forall (fun c => Js.isDigit c = true) d2 ->
  Forall (fun c => Js.isDigit c = true) d3 ->
  Forall (fun c => Js.isDigit c = true) d4 ->
  symTail (" " :: "(" :: d1 ++ ":" :: d2 ++ "-" :: d3 ++ ":" :: d4 ++ ")" :: rest)
  = Some (Js.parseZ d1, Js.parseZ d2, Js.parseZ d3, Js.parseZ d4).
Proof.
  intros. unfold symTail.
  rewrite span_one_space by done.
  rewrite eqc_refl'. by rewrite !digitsThen_hit.
Qed.

Lemma symTail_miss (c : ascii) (s : str) :
  Js.isSpace c = false -> symTail (c :: s) = None.
Proof. intros Hc. unfold symTail. by rewrite span_cons_false. Qed.

Lemma symTail_miss_spaces (ws : str) (c : ascii) (s : str) :
  Forall (fun x => Js.isSpace x = true) ws -> Js.isSpace c = false -> c <> "(" ->
  symTail (ws ++ c :: s) = None.
Proof.
  intros Hws Hc Hp. unfold symTail. rewrite span_app_stop by done.
  destruct ws; [done|].
  replace (Js.eqc c "(") with false; [done|]. symmetry. by apply eqc_false.
Qed.

Lemma last_app_cons (p : str) (c : ascii) (q : str) (d : ascii) :
  List.last (p ++ c :: q) d = List.last (c :: q) d.
Proof.
  induction p as [|x p IH]; [done|].
  rewrite <- app_comm_cons, <- IH.
  destruct (p ++ c :: q) eqn:E; [by destruct p|]. reflexivity.
Qed.

Lemma last_spaces (q : str) (c : ascii) :
  Forall (fun x => Js.isSpace x = true) (c :: q) ->
  Js.isSpace (List.last (c :: q) " ") = true.
Proof.
  intros H. rewrite Forall_forall in H. apply H, list_elem_of_In, last_In. done.
Qed.

(** Inside a name that holds no parenthesis and does not end with white
    space the tail of the pattern matches nowhere. *)
Lemma symTail_inside (q : str) (tail : str) :
  q <> [] -> Forall (fun c => c <> "(") q ->
  Js.isSpace (List.last q " ") = false ->
  symTail (q ++ tail) = None.
Proof.
  intros Hne Hp Hlast.
  destruct (trimStart_decompose q) as (ws & Hws & Hq & [Hr|(c & t & Hr & Hc)]).
  - rewrite Hr, app_nil_r in Hq. subst ws. destruct q as [|c q]; [done|].
    by rewrite last_spaces in Hlast.
  - rewrite Hq, Hr, <- app_assoc, <- app_comm_cons.
    apply symTail_miss_spaces; [done..|].
    rewrite Forall_forall in Hp. apply Hp. rewrite Hq, Hr.
    apply elem_of_app. right. by left.
Qed.

Lemma lazyName_hit (nm acc tail : str) (r : Z * Z * Z * Z) :
  nm <> [] -> Forall (fun c => Js.isDot c = true) nm ->
  Forall (fun c => c <> "(") nm ->
  Js.isSpace (List.last nm " ") = false ->
  symTail tail = Some r ->
  lazyName (nm ++ tail) acc = Some (acc ++ nm, r).
Proof.
  intros Hne Hdot Hp Hlast Htail. revert acc.
  induction nm as [|c nm IH]; intros acc; [done|].
  apply Forall_cons in Hdot as [Hc Hdot]. apply Forall_cons in Hp as [_ Hp].
  simpl. rewrite Hc. destruct nm as [|c' nm].
  - simpl. by rewrite Htail.
  - rewrite symTail_inside; [|done|done|].
    + rewrite IH; [by rewrite <- app_assoc|done..|].
      by rewrite (last_app_cons [c] c' nm) in Hlast.
    + by rewrite (last_app_cons [c] c' nm) in Hlast.
Qed.

(** X11.  A symbol line written as indentation, dash, space, name, space
    and the four numbers in parentheses decodes to that name and those
    numbers at the depth of its indentation, whatever follows the closing
    parenthesis, provided the name holds no opening parenthesis, no tab
    and no line terminator and neither starts nor ends with white
    space. *)
Theorem symbol_line_round_trip (indent nm d1 d2 d3 d4 rest : str) :
  Forall (fun c => c = " ") indent ->
  nm <> [] ->
  Forall (fun c => Js.isDot c = true /\ c <> "(" /\ c <> "009") nm ->
  Js.isSpace (hd " " nm) = false -> Js.isSpace (List.last nm " ") = false ->
  d1 <> [] -> d2 <> [] -> d3 <> [] -> d4 <> [] ->
  Forall (fun c => Js.isDigit c = true) (d1 ++ d2 ++ d3 ++ d4) ->
  decodeSymbolLine
    (indent ++ lit "- " ++ nm ++ lit " (" ++ d1 ++ ":" :: d2 ++ "-" :: d3
       ++ ":" :: d4 ++ ")" :: rest)
  = Some (length indent,
          {| name := nm; startLine := Js.parseZ d1; startChar := Js.parseZ d2;
             endLine := Js.parseZ d3; endChar := Js.parseZ d4 |}).
Proof.
  intros Hind Hne Hnm Hhd Hlast H1 H2 H3 H4 Hds.
  apply Forall_app in Hds as [Hd1 Hds]. apply Forall_app in Hds as [Hd2 Hds].
  apply Forall_app in Hds as [Hd3 Hd4].
  assert (Hdot : Forall (fun c => Js.isDot c = true) nm)
    by (eapply Forall_impl; [apply Hnm|]; simpl; tauto).
  assert (Hpar : Forall (fun c : ascii => c <> "(") nm)
    by (eapply Forall_impl; [apply Hnm|]; simpl; tauto).
  assert (Htab : Forall (fun c : ascii => c <> "009") nm)
    by (eapply Forall_impl; [apply Hnm|]; simpl; tauto).
  assert (Hsp : Forall (fun c => Js.isSpace c = true) indent)
    by (eapply Forall_impl; [apply Hind|]; by intros c ->).
  assert (Hdig : forall d, Forall (fun c => Js.isDigit c = true) d ->
                           Forall (fun c : ascii => c <> "009") d).
  { intros d Hd. eapply Forall_impl; [apply Hd|]. by intros c Hc ->. }
  set (tail := " " :: "(" :: d1 ++ ":" :: d2 ++ "-" :: d3 ++ ":" :: d4
                 ++ ")" :: expandTabs rest).
  assert (Hline : expandTabs
            (indent ++ lit "- " ++ nm ++ lit " (" ++ d1 ++ ":" :: d2 ++ "-" :: d3
               ++ ":" :: d4 ++ ")" :: rest)
          = indent ++ "-" :: " " :: nm ++ tail).
  { replace (indent ++ lit "- " ++ nm ++ lit " (" ++ d1 ++ ":" :: d2 ++ "-" :: d3
               ++ ":" :: d4 ++ ")" :: rest)
      with ((indent ++ lit "- " ++ nm ++ lit " (" ++ d1 ++ ":" :: d2 ++ "-" :: d3
               ++ ":" :: d4 ++ [")"]) ++ rest)
      by (repeat (rewrite <- ?app_assoc, <- ?app_comm_cons); done).
    rewrite expandTabs_app, expandTabs_plain.
    - unfold tail. repeat (rewrite <- ?app_assoc, <- ?app_comm_cons). done.
    - repeat first [apply Forall_app; split | apply Forall_cons; split
                   | apply Forall_nil];
        try done; try (by apply Hdig).
      eapply Forall_impl; [apply Hind|]. by intros c ->. }
  assert (Htrim : Js.trim nm = nm).
  { destruct nm as [|c nm]; [done|]. simpl in Hhd. unfold Js.trim.
    rewrite trimStart_stop by done. unfold Js.trimEnd.
    destruct (rev (c :: nm)) as [|x r] eqn:E.
    { apply (f_equal (@length ascii)) in E. rewrite length_rev in E. done. }
    assert (Hx : x = List.last (c :: nm) " ").
    { rewrite <- (rev_involutive (c :: nm)), E. simpl rev.
      by rewrite last_last. }
    rewrite trimStart_stop by (by rewrite Hx). by rewrite <- E, rev_involutive. }
  unfold decodeSymbolLine. rewrite Hline.
  unfold isBlankOrComment. rewrite (trim_after_spaces indent "-") by done.
  cbn [Js.eqs Js.startsWith orb].
  change (Js.eqc "#" "-") with false. cbn [andb].
  unfold indentDepth. rewrite (span_app_stop Js.isSpace indent "-") by done.
  unfold matchSymbol. rewrite trimStart_spaces, trimStart_stop by done.
  rewrite eqc_refl'.
  destruct nm as [|c nm]; [done|]. simpl in Hhd.
  rewrite <- app_comm_cons, span_one_space by done.
  cbn [fst length afterDash drop].
  change (c :: nm ++ tail) with ((c :: nm) ++ tail).
  rewrite (lazyName_hit (c :: nm) [] tail
             (Js.parseZ d1, Js.parseZ d2, Js.parseZ d3, Js.parseZ d4));
    try done; [|by apply symTail_hit].
  cbn [app]. by rewrite Htrim.
Qed.

Lemma symbol_line_round_trip_witness :
  decodeSymbolLine (lit "  - Level 2 (1:0-2:0)")
  = Some (2, {| name := lit "Level 2"; startLine := 1; startChar := 0;
                endLine := 2; endChar := 0 |}).
Proof.
  refine (symbol_line_round_trip (lit "  ") (lit "Level 2")
            (lit "1") (lit "0") (lit "2") (lit "0") [] _ _ _ _ _ _ _ _ _ _);
    try done; repeat constructor; done.
Defined.

(** ** The syntax tree *)

(** Induction over a node with the property known of its children. *)
Lemma SyntaxNode_ind' (P : Syntax.SyntaxNode -> Prop) :
  (forall n, Forall P (Syntax.kidsOf n) -> P n) -> forall n, P n.
Proof.
  intros step. fix IH 1. intros n. apply step.
  destruct n as [t x sp ep cs]. unfold Syntax.kidsOf. simpl.
  induction cs as [|[[f c]|] cs IHcs]; simpl.
  - constructor.
  - constructor; [apply IH | apply IHcs].
  - apply IHcs.
Qed.

Lemma preorder_eq (n : Syntax.SyntaxNode) :
  Syntax.preorder n
  = n :: flat_map (fun child => match child with
                                | Some (_, c) => Syntax.preorder c
                                | None => []
                                end) (Syntax.children n).
Proof. by destruct n. Qed.

(** ** The folds of a syntax tree *)

Lemma folding_traverse_eq (n : Syntax.SyntaxNode)
      (folds : list Folding.SimpleFoldingRange) :
  Folding.traverse n folds
  = fold_left (fun folds child => match child with
                                  | Some (_, c) => Folding.traverse c folds
                                  | None => folds
                                  end) (Syntax.children n)
      (match Folding.pushed n with
       | Some f => folds ++ [f]
       | None => folds
       end).
Proof. by destruct n. Qed.

(** The array of the closure only grows, by the push of each node in
    document order. *)
Lemma folding_traverse_acc (n : Syntax.SyntaxNode) :
  forall folds,
    Folding.traverse n folds
    = folds ++ omap Folding.pushed (Syntax.preorder n).
Proof.
  induction n as [n IH] using SyntaxNode_ind'. intros folds.
  rewrite folding_traverse_eq, preorder_eq.
  change (omap Folding.pushed (n :: ?l))
    with (match Folding.pushed n with
          | Some y => y :: omap Folding.pushed l
          | None => omap Folding.pushed l
          end).
  set (start := match Folding.pushed n with
                | Some f => folds ++ [f]
                | None => folds
                end).
  assert (Hstart : forall l,
             folds ++ match Folding.pushed n with
                      | Some y => y :: l
                      | None => l
                      end = start ++ l).
  { intros l. unfold start. destruct (Folding.pushed n); [|done].
    by rewrite <- app_assoc. }
  rewrite Hstart. clear Hstart. unfold Syntax.kidsOf in IH.
  generalize start. clear start.
  induction (Syntax.children n) as [|[[f c]|] cs IHcs]; intros start; simpl.
  - by rewrite app_nil_r.
  - simpl in IH. apply Forall_cons in IH as [Hc Hcs].
    rewrite IHcs by done. rewrite Hc, omap_app. by rewrite <- app_assoc.
  - simpl in IH. by apply IHcs.
Qed.

Lemma pushed_proper (n : Syntax.SyntaxNode) (fr : Folding.SimpleFoldingRange) :
  Folding.pushed n = Some fr ->
  (Folding.startLine fr <= Folding.endLine fr)%Z /\ Folding.kind fr = None
  /\ (Js.eqs (Syntax.type n) (lit "section") = true ->
      (Folding.startLine fr < Folding.endLine fr)%Z).
Proof.
  unfold Folding.pushed.
  destruct (Js.eqs (Syntax.type n) (lit "section")).
  - destruct (Syntax.childForFieldName n (lit "headline")) as [h|]; [|done].
    destruct (Z.gtb_spec (Syntax.row (Syntax.endPosition n) - 1)
                (Syntax.row (Syntax.startPosition h))); [|done].
    intros [= <-]. simpl. split; [lia|]. split; [done|]. lia.
  - destruct (_ || _); [|done].
    destruct (Z.gtb_spec (Syntax.row (Syntax.endPosition n))
                (Syntax.row (Syntax.startPosition n))); [|done].
    intros [= <-]. simpl. split; [lia|]. by split.
Qed.

(** X12.  The folds of a tree are the folds of its nodes in document
    order, a node before its children, at most one for a node.  No fold
    ends before it starts, and the fold of a section covers two lines at
    least.  The server gives the same lines with the kind [region]. *)
Theorem folds_in_document_order (tree : Syntax.Tree) :
  Folding.getTreeSitterFolds tree
  = omap Folding.pushed (Syntax.preorder (Syntax.rootNode tree))
  /\ Forall (fun fr => (Folding.startLine fr <= Folding.endLine fr)%Z
                       /\ Folding.kind fr = None)
       (Folding.getTreeSitterFolds tree)
  /\ (forall n fr, n ∈ Syntax.preorder (Syntax.rootNode tree) ->
        Js.eqs (Syntax.type n) (lit "section") = true ->
        Folding.pushed n = Some fr ->
        (Folding.startLine fr < Folding.endLine fr)%Z)
  /\ Forall2 (fun fr fr' =>
                Folding.startLine fr' = Folding.startLine fr
                /\ Folding.endLine fr' = Folding.endLine fr
                /\ Folding.kind fr' = Some (lit "region"))
       (Folding.getTreeSitterFolds tree) (Folding.provideFoldingRanges tree).
Proof.
  assert (Heq : Folding.getTreeSitterFolds tree
                = omap Folding.pushed (Syntax.preorder (Syntax.rootNode tree))).
  { unfold Folding.getTreeSitterFolds. by rewrite folding_traverse_acc. }
  split; [done|]. split; [|split].
  - rewrite Heq. apply Forall_forall. intros fr Hin.
    apply list_elem_of_omap in Hin as (n & _ & Hn).
    destruct (pushed_proper n fr Hn) as (? & ? & _). by split.
  - intros n fr _ Hsec Hn. by apply (pushed_proper n fr Hn).
  - unfold Folding.provideFoldingRanges. clear Heq.
    induction (Folding.getTreeSitterFolds tree) as [|fr l IH]; simpl;
      constructor; done.
Qed.

(** ** The outline of a syntax tree *)

Lemma symbols_traverse_eq (n : Syntax.SyntaxNode) :
  Symbols.traverse n
  = if Js.eqs (Syntax.type n) (lit "section") then
      match Syntax.childForFieldName n (lit "headline") with
      | None => None
      | Some headlineNode =>
          Some (Symbols.mkSymbol (Symbols.titleOf headlineNode)
                  Symbols.KindString
                  (Symbols.rangeOf n) (Symbols.rangeOf headlineNode)
                  (omap (fun child =>
                           match child with
                           | Some (_, c) =>
                               if Js.eqs (Syntax.type c) (lit "section")
                               then Symbols.traverse c else None
                           | None => None
                           end) (Syntax.children n)))
      end
    else None.
Proof. by destruct n. Qed.

Lemma findSections_eq (n : Syntax.SyntaxNode)
      (symbols : list Symbols.DocumentSymbol) :
  Symbols.findSections n symbols
  = if Js.eqs (Syntax.type n) (lit "section") then
      match Symbols.traverse n with
      | Some symbol => symbols ++ [symbol]
      | None => symbols
      end
    else
      fold_left (fun symbols child =>
                   match child with
                   | Some (_, c) => Symbols.findSections c symbols
                   | None => symbols
                   end) (Syntax.children n) symbols.
Proof. by destruct n. Qed.

Lemma entries_eq (s : Symbols.DocumentSymbol) :
  Symbols.entries s
  = match s with
    | Symbols.mkSymbol name _ range selectionRange children =>
        (name, range, selectionRange) :: flat_map Symbols.entries children
    end.
Proof. by destruct s. Qed.

(** The symbol of a section lists the section and sections below it, in
    document order. *)
Lemma symbols_traverse_entries (n : Syntax.SyntaxNode) :
  forall s, Symbols.traverse n = Some s ->
    Symbols.entries s
      `sublist_of` omap Symbols.entryOf (Syntax.preorder n).
Proof.
  induction n as [n IH] using SyntaxNode_ind'. intros s.
  rewrite symbols_traverse_eq, preorder_eq.
  change (omap Symbols.entryOf (n :: ?l))
    with (match Symbols.entryOf n with
          | Some y => y :: omap Symbols.entryOf l
          | None => omap Symbols.entryOf l
          end).
  unfold Symbols.entryOf at 1.
  destruct (Js.eqs (Syntax.type n) (lit "section")); [|done].
  destruct (Syntax.childForFieldName n (lit "headline")) as [h|]; [|done].
  intros [= <-]. rewrite entries_eq. apply sublist_skip.
  unfold Syntax.kidsOf in IH.
  induction (Syntax.children n) as [|[[f c]|] cs IHcs]; simpl.
  - constructor.
  - simpl in IH. apply Forall_cons in IH as [Hc Hcs].
    rewrite omap_app.
    destruct (Js.eqs (Syntax.type c) _);
      [|by apply sublist_inserts_l, IHcs].
    destruct (Symbols.traverse c) as [s'|] eqn:Es;
      [|by apply sublist_inserts_l, IHcs].
    simpl. apply sublist_app; [by apply Hc | by apply IHcs].
  - simpl in IH. by apply IHcs.
Qed.

Lemma findSections_entries (n : Syntax.SyntaxNode) :
  forall symbols, exists found,
    Symbols.findSections n symbols = symbols ++ found
    /\ flat_map Symbols.entries found
         `sublist_of` omap Symbols.entryOf (Syntax.preorder n).
Proof.
  induction n as [n IH] using SyntaxNode_ind'. intros symbols.
  rewrite findSections_eq.
  destruct (Js.eqs (Syntax.type n) (lit "section")) eqn:Esec.
  - destruct (Symbols.traverse n) as [s|] eqn:Es.
    + exists [s]. split; [done|]. simpl. rewrite app_nil_r.
      by apply symbols_traverse_entries.
    + exists []. split; [by rewrite app_nil_r|]. apply sublist_nil_l.
  - rewrite preorder_eq.
    change (omap Symbols.entryOf (n :: ?l))
      with (match Symbols.entryOf n with
            | Some y => y :: omap Symbols.entryOf l
            | None => omap Symbols.entryOf l
            end).
    unfold Symbols.entryOf at 1. rewrite Esec.
    unfold Syntax.kidsOf in IH. revert symbols.
    induction (Syntax.children n) as [|[[f c]|] cs IHcs]; intros symbols;
      simpl.
    + exists []. split; [by rewrite app_nil_r|]. constructor.
    + simpl in IH. apply Forall_cons in IH as [Hc Hcs].
      destruct (Hc symbols) as (fc & -> & Hsub).
      destruct (IHcs Hcs (symbols ++ fc)) as (fr & -> & Hsubr).
      exists (fc ++ fr). split; [by rewrite app_assoc|].
      rewrite flat_map_app, omap_app. by apply sublist_app.
    + simpl in IH. by apply IHcs.
Qed.

(** X13.  The outline, read at every level with a symbol before its
    children, lists section nodes that have a headline: in document
    order, each section once at most, with the title of the headline and
    the ranges of the section and of the headline.  A section without
    headline gives no symbol, and neither do the sections below it. *)
Theorem outline_lists_sections (tree : Syntax.Tree) :
  flat_map Symbols.entries (Symbols.provideDocumentSymbols tree)
    `sublist_of` omap Symbols.entryOf (Syntax.preorder (Syntax.rootNode tree))
  /\ (Js.eqs (Syntax.type (Syntax.rootNode tree)) (lit "section") = true ->
      Syntax.childForFieldName (Syntax.rootNode tree) (lit "headline") = None ->
      Symbols.provideDocumentSymbols tree = []).
Proof.
  unfold Symbols.provideDocumentSymbols. split.
  - destruct (findSections_entries (Syntax.rootNode tree) [])
      as (found & -> & Hsub). done.
  - intros Hsec Hh.
    by rewrite findSections_eq, symbols_traverse_eq, Hsec, Hh.
Qed.

Lemma nested_eq (n : Syntax.SyntaxNode) :
  Symbols.nested n
  = (if Symbols.isSection n
     then bool_decide
            (is_Some (Syntax.childForFieldName n (lit "headline")))
     else true)
    && forallb (fun child =>
                  match child with
                  | Some (_, c) =>
                      if Symbols.isSection n && negb (Symbols.isSection c)
                      then Symbols.sectionFree c else Symbols.nested c
                  | None => true
                  end) (Syntax.children n).
Proof. by destruct n. Qed.

Lemma sectionFree_entries (n : Syntax.SyntaxNode) :
  Symbols.sectionFree n = true ->
  omap Symbols.entryOf (Syntax.preorder n) = [].
Proof.
  unfold Symbols.sectionFree.
  induction (Syntax.preorder n) as [|m l IH]; [done|]. simpl.
  intros [Hm Hl]%andb_true_iff. unfold Symbols.entryOf at 1.
  unfold Symbols.isSection in Hm. apply negb_true_iff in Hm.
  rewrite Hm. by apply IH.
Qed.

Lemma symbols_traverse_nested (n : Syntax.SyntaxNode) :
  Symbols.nested n = true -> Symbols.isSection n = true ->
  exists s, Symbols.traverse n = Some s
            /\ Symbols.entries s
               = omap Symbols.entryOf (Syntax.preorder n).
Proof.
  induction n as [n IH] using SyntaxNode_ind'.
  rewrite nested_eq, symbols_traverse_eq, preorder_eq.
  change (omap Symbols.entryOf (n :: ?l))
    with (match Symbols.entryOf n with
          | Some y => y :: omap Symbols.entryOf l
          | None => omap Symbols.entryOf l
          end).
  unfold Symbols.entryOf at 1. intros Hn Hsec. rewrite Hsec in Hn.
  unfold Symbols.isSection in Hsec. rewrite Hsec.
  apply andb_true_iff in Hn as [Hh Hcs]. apply bool_decide_eq_true in Hh.
  destruct Hh as [h Hh]. rewrite Hh. eexists. split; [done|].
  rewrite entries_eq. f_equal. unfold Syntax.kidsOf in IH.
  induction (Syntax.children n) as [|[[f c]|] cs IHcs]; simpl; [done| |].
  - simpl in IH, Hcs. apply Forall_cons in IH as [Hc IH].
    apply andb_true_iff in Hcs as [Hcn Hcs]. rewrite omap_app.
    specialize (IHcs IH Hcs).
    change (Js.eqs (Syntax.type c) _) with (Symbols.isSection c).
    destruct (Symbols.isSection c) eqn:Ec; simpl in Hcn.
    + destruct (Hc Hcn eq_refl) as (s' & -> & Hs'). simpl.
      by rewrite Hs', <- IHcs.
    + by rewrite (sectionFree_entries c Hcn).
  - simpl in IH, Hcs. by apply IHcs.
Qed.

Lemma findSections_nested (n : Syntax.SyntaxNode) :
  Symbols.nested n = true ->
  forall symbols, exists found,
    Symbols.findSections n symbols = symbols ++ found
    /\ flat_map Symbols.entries found
       = omap Symbols.entryOf (Syntax.preorder n).
Proof.
  induction n as [n IH] using SyntaxNode_ind'. intros Hn symbols.
  rewrite findSections_eq. fold (Symbols.isSection n).
  destruct (Symbols.isSection n) eqn:Esec.
  - destruct (symbols_traverse_nested n Hn Esec) as (s & -> & Hs).
    exists [s]. split; [done|]. simpl. by rewrite app_nil_r.
  - rewrite nested_eq, Esec in Hn. simpl in Hn. rewrite preorder_eq.
    change (omap Symbols.entryOf (n :: ?l))
      with (match Symbols.entryOf n with
            | Some y => y :: omap Symbols.entryOf l
            | None => omap Symbols.entryOf l
            end).
    unfold Symbols.entryOf at 1. fold (Symbols.isSection n). rewrite Esec.
    unfold Syntax.kidsOf in IH. revert symbols.
    induction (Syntax.children n) as [|[[f c]|] cs IHcs]; intros symbols;
      simpl.
    + exists []. by rewrite app_nil_r.
    + simpl in IH, Hn. apply Forall_cons in IH as [Hc IH].
      apply andb_true_iff in Hn as [Hcn Hcs].
      destruct (Hc Hcn symbols) as (fc & -> & Hfc).
      destruct (IHcs IH Hcs (symbols ++ fc)) as (fr & -> & Hfr).
      exists (fc ++ fr). split; [by rewrite app_assoc|].
      by rewrite flat_map_app, omap_app, Hfc, Hfr.
    + simpl in IH, Hn. by apply IHcs.
Qed.

(** X14.  On a tree whose sections nest as a grammar of headlines nests
    them, the outline leaves no section out: read at every level, it is
    the list of the sections of the tree in document order. *)
Theorem outline_of_nested_tree (tree : Syntax.Tree) :
  Symbols.nested (Syntax.rootNode tree) = true ->
  flat_map Symbols.entries (Symbols.provideDocumentSymbols tree)
  = omap Symbols.entryOf (Syntax.preorder (Syntax.rootNode tree)).
Proof.
  intros Hn. unfold Symbols.provideDocumentSymbols.
  by destruct (findSections_nested (Syntax.rootNode tree) Hn [])
    as (found & -> & Hf).
Qed.

Lemma outline_of_nested_tree_witness :
  Symbols.nested (Syntax.rootNode outlineSample) = true
  /\ flat_map Symbols.entries (Symbols.provideDocumentSymbols outlineSample)
     = omap Symbols.entryOf (Syntax.preorder (Syntax.rootNode outlineSample)).
Proof.
  split; [by vm_compute|]. apply outline_of_nested_tree. by vm_compute.
Defined.

(** ** Fixture content under a test headline *)

Lemma headlineMatch_hit (k : nat) (rest : str) :
  1 <= k ->
  headlineMatch (repeat "*"%char k ++ " "%char :: rest) = Some k.
Proof.
  intros Hk. unfold headlineMatch. rewrite span_stars by done.
  destruct k as [|k]; [lia|]. simpl. by rewrite repeat_length.
Qed.

Lemma headlineMatch_some (line : str) (k : nat) :
  headlineMatch line = Some k ->
  1 <= k /\ exists rest, line = repeat "*"%char k ++ " "%char :: rest.
Proof.
  unfold headlineMatch. pose proof (span_app (Js.eqc "*") line) as Happ.
  pose proof (span_all (Js.eqc "*") line) as Hall.
  destruct (Js.span (Js.eqc "*") line) as [stars rest]. simpl in *.
  destruct stars as [|s stars]; [done|]. destruct rest as [|c rest]; [done|].
  destruct (Js.eqc c " ") eqn:Ec; [|done]. apply eqc_true in Ec as ->.
  intros [= <-]. split; [simpl; lia|]. exists rest. rewrite <- Happ.
  f_equal. clear Happ. change (S (length stars)) with (length (s :: stars)).
  generalize dependent (s :: stars). intros l Hall.
  induction Hall as [|x l Hx Hl IH]; [done|].
  apply eqc_true in Hx as <-. simpl. by rewrite <- IH.
Qed.

Lemma transformLine_headline (p k : nat) (rest : str) :
  1 <= k ->
  transformLine p (repeat "*"%char k ++ " "%char :: rest)
  = repeat "*"%char (p + k) ++ " "%char :: rest.
Proof.
  intros Hk. unfold transformLine. rewrite headlineMatch_hit by done.
  f_equal. rewrite drop_app_length'; [done|]. by rewrite repeat_length.
Qed.

Lemma transformLine_match (p : nat) (line : str) :
  headlineMatch (transformLine p line)
  = (fun level => p + level) <$> headlineMatch line.
Proof.
  destruct (headlineMatch line) as [k|] eqn:E.
  - apply headlineMatch_some in E as (Hk & rest & ->).
    rewrite transformLine_headline by done. simpl.
    apply headlineMatch_hit. lia.
  - unfold transformLine. by rewrite E.
Qed.

Lemma transformLine_zero (line : str) : transformLine 0 line = line.
Proof.
  destruct (headlineMatch line) as [k|] eqn:E.
  - apply headlineMatch_some in E as (Hk & rest & ->).
    by rewrite transformLine_headline.
  - unfold transformLine. by rewrite E.
Qed.

Lemma transformLine_twice (a b : nat) (line : str) :
  transformLine b (transformLine a line) = transformLine (b + a) line.
Proof.
  destruct (headlineMatch line) as [k|] eqn:E.
  - apply headlineMatch_some in E as (Hk & rest & ->).
    rewrite !transformLine_headline by lia. by rewrite Nat.add_assoc.
  - unfold transformLine at 2 3. rewrite E. unfold transformLine.
    by rewrite E.
Qed.

Lemma transformLine_no_lf (p : nat) (line : str) :
  ~ In "010"%char line -> ~ In "010"%char (transformLine p line).
Proof.
  destruct (headlineMatch line) as [k|] eqn:E.
  - apply headlineMatch_some in E as (Hk & rest & ->).
    rewrite transformLine_headline by done. intros Hno Hin. apply Hno.
    apply in_app_iff in Hin as [Hin|Hin].
    + by apply repeat_spec in Hin.
    + apply in_app_iff. by right.
  - unfold transformLine. by rewrite E.
Qed.

Lemma transform_lines (content : str) (p : nat) :
  Js.split "010" (transformSrcContent content p)
  = map (transformLine p) (Js.split "010" content).
Proof.
  unfold transformSrcContent. apply split_join.
  - pose proof (split_not_nil "010" content).
    by destruct (Js.split "010" content).
  - pose proof (split_no_lf content) as Hno.
    induction Hno as [|l ls Hl Hls IH]; simpl; constructor; [|done].
    by apply transformLine_no_lf.
Qed.

(** X15.  Moving fixture content below a test headline keeps the lines:
    a headline of level [k] becomes a headline of level [parentLevel + k]
    with the same text, and a line that is no headline stays as it is and
    is no headline afterwards.  Level zero changes nothing, and moving
    twice is moving once by the sum. *)
Theorem transform_shifts_headlines (content : str) (parentLevel more : nat) :
  Js.split "010" (transformSrcContent content parentLevel)
    = map (transformLine parentLevel) (Js.split "010" content)
  /\ map headlineMatch (Js.split "010" (transformSrcContent content parentLevel))
     = map (fun line => (fun level => parentLevel + level) <$> headlineMatch line)
         (Js.split "010" content)
  /\ (forall line, headlineMatch line = None ->
        transformLine parentLevel line = line)
  /\ (forall level rest, 1 <= level ->
        transformLine parentLevel (repeat "*"%char level ++ " "%char :: rest)
        = repeat "*"%char (parentLevel + level) ++ " "%char :: rest)
  /\ transformSrcContent content 0 = content
  /\ transformSrcContent (transformSrcContent content parentLevel) more
     = transformSrcContent content (more + parentLevel).
Proof.
  split; [apply transform_lines|]. split; [|split; [|split; [|split]]].
  - rewrite transform_lines, map_map. apply map_ext. intros line.
    apply transformLine_match.
  - intros line E. unfold transformLine. by rewrite E.
  - intros level rest Hl. by apply transformLine_headline.
  - unfold transformSrcContent.
    rewrite (map_ext _ id transformLine_zero), map_id. apply join_split.
  - unfold transformSrcContent at 1 3. rewrite transform_lines, map_map.
    f_equal. apply map_ext. intros line. apply transformLine_twice.
Qed.
